(** * Bighorn transport layer: REST request scheduler and gateway socket

    A shallow embedding of [package/src/core/rest.ts] (class [Rest]) and of
    [core/socket] (class [Socket]) together with the properties the
    specification states about them.

    JavaScript runs these classes on a single-threaded event loop.  Each
    model below is therefore a transition system whose steps are the
    macrotasks of that loop: a call made by the embedding application, a
    promise of the host (fetch, WebSocket, timer) that settles.  A step runs
    the source code from the point where it is resumed up to its next
    suspension point. *)

From Stdlib Require Import ZArith QArith Qround Lqa List Bool String Ascii Lia.
From stdpp Require Import base gmap strings list.

Set Default Proof Using "Type".

(** ** Strict comparison on rationals, as a boolean *)

(** [x < y] *)
Definition Qltb (x y : Q) : bool := negb (Qle_bool y x).

(** ** String.prototype.toUpperCase on ASCII text *)

Definition upper_ascii (c : ascii) : ascii :=
  let n := nat_of_ascii c in
  if (97 <=? n)%nat && (n <=? 122)%nat then ascii_of_nat (n - 32) else c.

Fixpoint toUpperCase (s : string) : string :=
  match s with
  | EmptyString => EmptyString
  | String c s' => String (upper_ascii c) (toUpperCase s')
  end.

(** * The request scheduler: [rest.ts] *)

Module Rest.

(** [enum Method] *)
Inductive Method := POST | GET | PATCH | DELETE | PUT.

(** The string value of a member of [Method]. *)
Definition Method_value (m : Method) : string :=
  match m with
  | POST => "POST" | GET => "GET" | PATCH => "PATCH"
  | DELETE => "DELETE" | PUT => "PUT"
  end.

(** The closure [async () => { const res = await fetch(...) ... }] that
    [request] hands to [queueRequest].  It captures [method] and [_route]
    (used by its own call of [getBucketKey]) and the [resolve]/[reject] pair
    of the promise [request] returns; [c_id] names that promise. *)
Record Closure := { c_id : nat; c_method : Method; c_route : string }.

(** [type RequestJob = { fn: () => Promise<void> }] *)
Record RequestJob := { fn : Closure }.

(** [type BucketInfo].  [resetAt] is in milliseconds and may be fractional
    ([reset * 1000] with [reset] from [parseFloat]). *)
Record BucketInfo := {
  resetAt : Q;
  remaining : Z;
  queue : list RequestJob;
  isRunning : bool
}.

(** What [fetch] resolves with, as far as the job reads it: [res.ok],
    [res.status], the two rate-limit headers after [parseInt]/[parseFloat]
    ([None] when [headers.get] returns null) and the outcome of
    [res.json()] ([None] when it rejects). *)
Record Response := {
  ok : bool;
  status : Z;
  hdr_remaining : option Z;
  hdr_reset : option Q;
  json : option string
}.

(** A JSON value handed to [resolve]/[reject]: parsed data or the [{}] that
    [.catch(() => ({}))] substitutes. *)
Inductive Body := EmptyObject | Data (text : string).

(** State of the promise returned by [request]. *)
Inductive Settled :=
  | Pending
  | Resolved (data : Body)
  | Rejected (status : Z) (body : Body).

(** Where a running job is suspended. *)
Inductive Phase :=
  | AwaitFetch
  | AwaitJson (res : Response).

(** A call [job.fn()] whose promise has not settled; [run_key] is the
    argument of the [runBucket] call that started it. *)
Record Running := { run_key : string; run_fn : Closure; run_phase : Phase }.

(** A pending [setTimeout(() => this.runBucket(key), delay)]; [t_set] is the
    value of [Date.now()] when it was armed. *)
Record Timer := { t_key : string; t_delay : Q; t_set : Q }.

(** The moment the timer was asked to fire. *)
Definition t_due (t : Timer) : Q := (t_set t + t_delay t)%Q.

(** Ghost record of one [job.fn()] call made by [runBucket]: the key, the
    job, the value of [Date.now()] and the bucket as [runBucket] read it
    before [remaining--]. *)
Record Start := { s_key : string; s_fn : Closure; s_at : Q; s_bucket : BucketInfo }.

(** The [Rest] instance and the part of the event loop it lives in.
    [buckets] is [new Dictionary()] without a limit, so [Dictionary.set]
    always stores.  [started] is the ghost log of the [job.fn()] calls, oldest
    first. *)
Record State := {
  buckets : gmap string BucketInfo;
  now : Q;
  promises : list Settled;
  issued : list Closure;
  inflight : list Running;
  timers : list Timer;
  started : list Start
}.

(** [new Rest(token)]: no bucket, nothing issued. *)
Definition init : State :=
  {| buckets := ∅; now := 0; promises := []; issued := [];
     inflight := []; timers := []; started := [] |}.

(** *** Field updates *)

Definition set_buckets (f : gmap string BucketInfo -> gmap string BucketInfo) (st : State) : State :=
  {| buckets := f (buckets st); now := now st; promises := promises st;
     issued := issued st; inflight := inflight st; timers := timers st;
     started := started st |}.

Definition set_inflight (f : list Running -> list Running) (st : State) : State :=
  {| buckets := buckets st; now := now st; promises := promises st;
     issued := issued st; inflight := f (inflight st); timers := timers st;
     started := started st |}.

Definition set_timers (f : list Timer -> list Timer) (st : State) : State :=
  {| buckets := buckets st; now := now st; promises := promises st;
     issued := issued st; inflight := inflight st; timers := f (timers st);
     started := started st |}.

Definition set_promises (f : list Settled -> list Settled) (st : State) : State :=
  {| buckets := buckets st; now := now st; promises := f (promises st);
     issued := issued st; inflight := inflight st; timers := timers st;
     started := started st |}.

Definition set_now (t : Q) (st : State) : State :=
  {| buckets := buckets st; now := t; promises := promises st;
     issued := issued st; inflight := inflight st; timers := timers st;
     started := started st |}.

(** [getBucketKey] *)
Definition getBucketKey (method : Method) (route : string) : string :=
  toUpperCase (Method_value method) +:+ " " +:+ route.

(** The key the job computes for itself after [fetch]. *)
Definition closure_key (c : Closure) : string :=
  getBucketKey (c_method c) (c_route c).

(** The guard of [runBucket]:
    [bucket.remaining <= 0 && Date.now() < bucket.resetAt]. *)
Definition limited (bucket : BucketInfo) (t : Q) : bool :=
  (remaining bucket <=? 0)%Z && Qltb t (resetAt bucket).

(** [runBucket] *)
Definition runBucket (key : string) (st : State) : State :=
  match buckets st !! key with
  | None => st
  | Some bucket =>
    if limited bucket (now st) then
      let delay := (resetAt bucket - now st)%Q in
      set_timers (fun ts => ts ++ [{| t_key := key; t_delay := delay; t_set := now st |}]) st
    else
      match queue bucket with
      | [] =>
        set_buckets (insert key
          {| resetAt := resetAt bucket; remaining := remaining bucket;
             queue := []; isRunning := false |}) st
      | job :: rest =>
        let bucket' :=
          {| resetAt := resetAt bucket; remaining := (remaining bucket - 1)%Z;
             queue := rest; isRunning := true |} in
        let st1 := set_buckets (insert key bucket') st in
        let st2 := set_inflight (fun l => l ++
          [{| run_key := key; run_fn := fn job; run_phase := AwaitFetch |}]) st1 in
        {| buckets := buckets st2; now := now st2; promises := promises st2;
           issued := issued st2; inflight := inflight st2; timers := timers st2;
           started := started st2 ++
             [{| s_key := key; s_fn := fn job; s_at := now st2; s_bucket := bucket |}] |}
      end
  end.

(** [queueRequest] *)
Definition queueRequest (method : Method) (route : string) (exec : Closure) (st : State) : State :=
  let key := getBucketKey method route in
  let bucket := default {| resetAt := 0; remaining := 1; queue := []; isRunning := false |}
                        (buckets st !! key) in
  let bucket := {| resetAt := resetAt bucket; remaining := remaining bucket;
                   queue := queue bucket ++ [{| fn := exec |}];
                   isRunning := isRunning bucket |} in
  let st := set_buckets (insert key bucket) st in
  if negb (isRunning bucket) then runBucket key st else st.

(** [request], from the creation of the returned promise on: the executor
    runs [queueRequest] synchronously. *)
Definition request (method : Method) (route : string) (st : State) : State :=
  let exec := {| c_id := length (promises st); c_method := method; c_route := route |} in
  let st := {| buckets := buckets st; now := now st;
               promises := promises st ++ [Pending];
               issued := issued st ++ [exec];
               inflight := inflight st; timers := timers st;
               started := started st |} in
  queueRequest method route exec st.

(** The job after [await fetch(...)] resolved: read the headers, update the
    bucket, suspend on [res.json()]. *)
Definition job_after_fetch (i : nat) (r : Running) (res : Response) (st : State) : State :=
  let remaining' := default 1%Z (hdr_remaining res) in
  let reset := default 0%Q (hdr_reset res) in
  let key := closure_key (run_fn r) in
  let st :=
    match buckets st !! key with
    | Some bucket =>
      set_buckets (insert key
        {| resetAt := (reset * 1000)%Q; remaining := remaining';
           queue := queue bucket; isRunning := isRunning bucket |}) st
    | None => st
    end in
  set_inflight (fun l => <[i := {| run_key := run_key r; run_fn := run_fn r;
                                   run_phase := AwaitJson res |}]> l) st.

Definition body_of (res : Response) : Body :=
  match json res with Some text => Data text | None => EmptyObject end.

(** The job after [res.json().catch(...)] settled: settle the caller's
    promise, return; the [finally] callback then calls [runBucket]. *)
Definition job_after_json (i : nat) (r : Running) (res : Response) (st : State) : State :=
  let outcome := if negb (ok res) then Rejected (status res) (body_of res)
                 else Resolved (body_of res) in
  let st := set_promises (fun ps => <[c_id (run_fn r) := outcome]> ps) st in
  let st := set_inflight (delete i) st in
  runBucket (run_key r) st.

(** The job when [await fetch(...)] rejects: the async function rejects at
    once, nothing else of its body runs; the [finally] callback calls
    [runBucket]. *)
Definition job_fetch_failed (i : nat) (r : Running) (st : State) : State :=
  let st := set_inflight (delete i) st in
  runBucket (run_key r) st.

(** What can happen next: the application calls [request]; the clock
    advances; the [fetch] of the [i]-th running job resolves or rejects;
    its [res.json()] settles; the [i]-th pending timer fires. *)
Inductive Event :=
  | Request (method : Method) (route : string)
  | Tick (t : Q)
  | FetchResolves (i : nat) (res : Response)
  | FetchRejects (i : nat)
  | JsonSettles (i : nat)
  | TimerFires (i : nat).

(** One macrotask.  [None] when the event cannot happen in [st].  The clock
    never goes back.  A timer may fire at any moment after it was armed:
    [runBucket] checks the clock again. *)
Definition step (st : State) (e : Event) : option State :=
  match e with
  | Request method route => Some (request method route st)
  | Tick t => if Qle_bool (now st) t then Some (set_now t st) else None
  | FetchResolves i res =>
    match inflight st !! i with
    | Some r =>
      match run_phase r with
      | AwaitFetch => Some (job_after_fetch i r res st)
      | AwaitJson _ => None
      end
    | None => None
    end
  | FetchRejects i =>
    match inflight st !! i with
    | Some r =>
      match run_phase r with
      | AwaitFetch => Some (job_fetch_failed i r st)
      | AwaitJson _ => None
      end
    | None => None
    end
  | JsonSettles i =>
    match inflight st !! i with
    | Some r =>
      match run_phase r with
      | AwaitJson res => Some (job_after_json i r res st)
      | AwaitFetch => None
      end
    | None => None
    end
  | TimerFires i =>
    match timers st !! i with
    | Some t => Some (runBucket (t_key t) (set_timers (delete i) st))
    | None => None
    end
  end.

(** A sequence of events, from [st]. *)
Fixpoint run (st : State) (evs : list Event) : option State :=
  match evs with
  | [] => Some st
  | e :: evs' =>
    match step st e with
    | Some st' => run st' evs'
    | None => None
    end
  end.

(** The states of a [Rest] instance after any sequence of events. *)
Definition reachable (st : State) : Prop := exists evs, run init evs = Some st.

(** ** What one bucket sees of the state *)

(** The jobs in flight that [runBucket k] started. *)
Definition jobs_of (k : string) (st : State) : list Running :=
  filter (fun r => run_key r = k) (inflight st).

(** The pending retries of [runBucket k]. *)
Definition timers_of (k : string) (st : State) : list Timer :=
  filter (fun t => t_key t = k) (timers st).

(** The log of the jobs [runBucket k] started. *)
Definition started_of (k : string) (st : State) : list Start :=
  filter (fun x => s_key x = k) (started st).

(** The jobs [request] created for bucket [k], in call order. *)
Definition issued_of (k : string) (st : State) : list Closure :=
  filter (fun c => closure_key c = k) (issued st).

(** The jobs waiting in the queue of bucket [k], head first. *)
Definition queued_of (k : string) (st : State) : list Closure :=
  match buckets st !! k with
  | Some b => fn <$> queue b
  | None => []
  end.

(** All that the invariant of bucket [k] reads. *)
Definition view (k : string) (st : State) :=
  (buckets st !! k, jobs_of k st, timers_of k st, started_of k st, issued_of k st, now st).

(** ** Invariants of the scheduler *)

(** The jobs started from bucket [k], oldest first. *)
Definition started_fns (k : string) (st : State) : list Closure :=
  s_fn <$> started_of k st.

(** [isRunning] tells whether the bucket has a job in flight or a retry
    pending, never both and never two; an idle bucket has an empty queue
    and is not rate limited. *)
Definition bucket_ok (k : string) (st : State) : Prop :=
  match buckets st !! k with
  | None => jobs_of k st = [] /\ timers_of k st = []
  | Some b =>
    if isRunning b then length (jobs_of k st) + length (timers_of k st) = 1
    else jobs_of k st = [] /\ timers_of k st = [] /\ queue b = [] /\ limited b (now st) = false
  end.

(** The jobs of bucket [k] compute [k] as their own key. *)
Definition keys_ok (k : string) (st : State) : Prop :=
  (forall c, c ∈ queued_of k st -> closure_key c = k) /\
  (forall r, r ∈ jobs_of k st -> closure_key (run_fn r) = k).

(** Started, then queued: the jobs of the bucket in the order of their
    [request] calls. *)
Definition fifo (k : string) (st : State) : Prop :=
  started_fns k st ++ queued_of k st = issued_of k st.

(** A job in flight is the one started last. *)
Definition latest (k : string) (st : State) : Prop :=
  forall r, r ∈ jobs_of k st ->
    last (started_fns k st) = Some (run_fn r).

Definition inv_at (k : string) (st : State) : Prop :=
  bucket_ok k st /\ keys_ok k st /\ fifo k st /\ latest k st.

Definition inv (st : State) : Prop := forall k, inv_at k st.

(** the state in which [runBucket key] is entered *)
Definition run_pre (k : string) (st : State) : Prop :=
  exists b, buckets st !! k = Some b /\
    jobs_of k st = [] /\ timers_of k st = [] /\
    (isRunning b = true \/ limited b (now st) = false) /\
    keys_ok k st /\ fifo k st.

(** A 200 response that reports an exhausted quota, reset at 5 s. *)
Definition quota_response : Response :=
  {| ok := true; status := 200; hdr_remaining := Some 0%Z; hdr_reset := Some 5%Q;
     json := Some "{}"%string |}.

(** Two requests on one route and one on another; the first is answered,
    the clock passes the reset time and the retry timer fires. *)
Definition demo_events : list Event :=
  [Tick 1000; Request GET "user"; Request GET "user"; Request POST "channelMessages";
   FetchResolves 0 quota_response; JsonSettles 0; Tick 5000; TimerFires 0].

Definition demo_state : State :=
  Eval vm_compute in default init (run init demo_events).

(** ** Throttling *)

(** Bucket [k] learnt that its quota is used up until [R]; the job that
    brought the answer may still be reading the body. *)
Definition throttled (k : string) (R : Q) (st : State) : Prop :=
  (exists b, buckets st !! k = Some b /\ (remaining b <= 0)%Z /\ resetAt b = R /\
             isRunning b = true) /\
  (forall r, r ∈ jobs_of k st -> run_phase r <> AwaitFetch) /\
  (forall t, t ∈ timers_of k st -> (t_due t == R)%Q).

(** The condition under which [runBucket] goes on to [queue.shift()]. *)
Definition guarded (x : Start) : Prop :=
  (0 < remaining (s_bucket x))%Z \/ (resetAt (s_bucket x) <= s_at x)%Q.

(** Two requests on one route at 1000 ms. *)
Definition quota_before : State :=
  Eval vm_compute in
    default init (run init [Tick 1000; Request GET "user"; Request GET "user"]).

(** The first is answered with [quota_response]; the clock is at 4000 ms. *)
Definition quota_after : State :=
  Eval vm_compute in
    default init (run quota_before [FetchResolves 0 quota_response; JsonSettles 0; Tick 4000]).

(** ** Requests whose transport fails *)

(** No job that could settle promise [n] is left, and it is pending. *)
Definition stranded (n : nat) (st : State) : Prop :=
  promises st !! n = Some Pending /\
  Forall (fun r => c_id (run_fn r) <> n) (inflight st) /\
  (forall k b, buckets st !! k = Some b -> Forall (fun j => c_id (fn j) <> n) (queue b)).

(** A closure that still has to settle its caller's promise. *)
Definition live (c : Closure) (st : State) : Prop :=
  issued st !! c_id c = Some c /\ promises st !! c_id c = Some Pending.

(** Promises and closures are numbered in call order, and every job in
    flight or queued is [live]. *)
Definition ids_ok (st : State) : Prop :=
  length (promises st) = length (issued st) /\
  (forall n c, issued st !! n = Some c -> c_id c = n) /\
  Forall (fun r => live (run_fn r) st) (inflight st) /\
  (forall k b, buckets st !! k = Some b -> Forall (fun j => live (fn j) st) (queue b)).

(** One request whose [fetch] rejected. *)
Definition failed_transport : State :=
  Eval vm_compute in default init (run init [Request GET "user"; FetchRejects 0]).

End Rest.

(** * The gateway connection: [core/socket] *)

Module Socket.

(** [WebSocket.readyState] *)
Inductive ReadyState := CONNECTING | OPEN | CLOSING | CLOSED.

(** [enum SOCKET_MESSAGES], each template with the value that
    [fill_replacer] puts in its placeholder; [TEXT] is any other string that
    reaches the logger ([String(err)], [err.message]). *)
Inductive SOCKET_MESSAGES :=
  | MSG_CONNECTED
  | MSG_CLOSED (reason : string)
  | MSG_NO_SOCKET
  | MSG_DESTROYED
  | MSG_ACK
  | MSG_RECONNECT
  | MSG_INVALID_SESSION
  | MSG_RESUME
  | MSG_MAX_RETRIES_EXCEEDED
  | MSG_LISTENER_REPLACED (event : string)
  | MSG_JSON_INVALID (data : string)
  | MSG_PING_SENT
  | MSG_SESSION_CLEARED
  | MSG_SOCKET_CLOSING
  | TEXT (text : string).

(** The methods of [log] the class uses: [log.echo], [log.warn],
    [log.fail]. *)
Inductive Level := Echo | Warn | Fail.

(** A parsed JSON value; the members of an object in source order. *)
Inductive Json :=
  | JNull
  | JBool (b : bool)
  | JNum (n : Z)
  | JStr (text : string)
  | JObj (members : Members)
with Members :=
  | MNil
  | MCons (key : string) (value : Json) (rest : Members).

(** JavaScript truthiness. *)
Definition truthy (v : Json) : bool :=
  match v with
  | JNull => false
  | JBool b => b
  | JNum n => negb (n =? 0)%Z
  | JStr text => negb (String.eqb text "")
  | JObj _ => true
  end.

(** Property access [o.name] on an object. *)
Fixpoint field (name : string) (members : Members) : option Json :=
  match members with
  | MNil => None
  | MCons k v rest => if String.eqb k name then Some v else field name rest
  end.

(** [GatewayReceivePayload] after [JSON.parse] and
    [const { op, t, d, s } = payload]. *)
Record Payload := { op : Z; t : option string; d : Json; s : option Z }.

(** [GatewayOpcodes] of discord-api-types/v10. *)
Definition Dispatch : Z := 0.
Definition Heartbeat : Z := 1.
Definition Identify : Z := 2.
Definition PresenceUpdate : Z := 3.
Definition Resume : Z := 6.
Definition Reconnect : Z := 7.
Definition InvalidSession : Z := 9.
Definition Hello : Z := 10.
Definition HeartbeatAck : Z := 11.

(** The control frames the class writes with [ws.send(JSON.stringify(..))]:
    the opcode and the members of [d]. *)
Inductive SendPayload :=
  | HeartbeatFrame (d : option Z)
  | IdentifyFrame (token : string) (intents : Z)
  | ResumeFrame (token : string) (session_id : string) (seq : Z).

(** What [event.data.toString()] gives to [JSON.parse]. *)
Inductive Incoming :=
  | Malformed (data : string)
  | Parsed (payload : Payload).

(** Side effects on the collaborators: the logger, the sockets, the
    [sessionStore] and the registered handlers. *)
Inductive Effect :=
  | ELog (level : Level) (message : SOCKET_MESSAGES)
  | ESend (ws : nat) (frame : SendPayload)
  | EClose (ws : nat) (code : Z) (reason : SOCKET_MESSAGES)
  | ELoad
  | ESave (sessionId : string) (seq : Z)
  | EClear
  | ECall (handler : nat) (event : string) (d : Json).

(** [interface SocketSettings]; [sessionStore] tells whether one was
    supplied. *)
Record SocketSettings := {
  token : string;
  intents : Z;
  maxRetries : option Z;
  sessionStore : bool;
  debug : bool;
  warns : bool
}.

(** The fields of a [Socket] instance.  Timers, sockets and handlers are
    referred to by their index in the tables of [World]. *)
Record Socket := {
  started : bool;
  _lastPing : Z;
  _lastACK : Z;
  _heartbeat : option nat;
  _sessionId : option string;
  _lastSequence : option Z;
  _reconnecting : bool;
  _retries : nat;
  events : gmap string nat;
  _ws : option nat
}.

(** The [onclose] slot of a socket: empty, the logging closure of [start],
    or [() => res()] of the destroy call [call]. *)
Inductive CloseHandler :=
  | OnCloseNull
  | OnCloseStart
  | OnCloseDestroy (call : nat).

(** A host [WebSocket].  [onopen] and [onerror] hold the start call whose
    [resolve]/[reject] the closure captured; [onmessage] tells whether
    [_handleMessage] is installed; [closeFired] tells whether the close
    event has been dispatched (it is dispatched once). *)
Record WebSocket := {
  readyState : ReadyState;
  closeFired : bool;
  onopen : option nat;
  onerror : option nat;
  onmessage : bool;
  onclose : CloseHandler
}.

(** What a [start()] promise was rejected with. *)
Inductive StartError :=
  | FailObject
  | TypeErrorNull
  | StoreError (text : string).

(** Where a [start()] call is: awaiting [sessionStore.load()], awaiting the
    open event with its closures installed, or settled. *)
Inductive StartPhase :=
  | StartLoading
  | StartOpening
  | StartResolved
  | StartRejected (e : StartError).

(** A call of [start()]; [start_owner] is the [reconnect] call that awaits
    it, if any. *)
Record StartCall := { start_phase : StartPhase; start_owner : option nat }.

(** Where a [destroy()] call is: awaiting the close event of socket [ws],
    or settled with its result. *)
Inductive DestroyPhase :=
  | DestroyClosing (ws : nat)
  | DestroyResolved (result : bool).

(** A call of [destroy()]; [destroy_owner] is the [reconnect] call that
    awaits it, if any. *)
Record DestroyCall := { destroy_phase : DestroyPhase; destroy_owner : option nat }.

(** Where a [reconnect()] call is: awaiting [destroy()], waiting for the
    backoff timer, awaiting [start()], or settled. *)
Inductive ReconnectPhase :=
  | ReconnectDestroying
  | ReconnectBackoff
  | ReconnectStarting
  | ReconnectResolved (result : bool)
  | ReconnectRejected.

(** A call of [reconnect(clear)]. *)
Record ReconnectCall := { rc_clear : bool; rc_phase : ReconnectPhase }.

(** The instance and the part of the host it talks to.  [intervals] are
    the [setInterval] handles with their period and whether they are still
    armed; [timeouts] are the pending [setTimeout] callbacks of [reconnect]
    with their delay. *)
Record World := {
  settings : SocketSettings;
  self : Socket;
  now : Z;
  sockets : list WebSocket;
  intervals : list (Z * bool);
  timeouts : list (nat * Z);
  starts : list StartCall;
  destroys : list DestroyCall;
  reconnects : list ReconnectCall;
  trace : list Effect
}.

(** The field initialisers and the constructor. *)
Definition new_Socket : Socket :=
  {| started := false; _lastPing := 0; _lastACK := 0; _heartbeat := None;
     _sessionId := None; _lastSequence := None; _reconnecting := false;
     _retries := 0; events := ∅; _ws := None |}.

(** [new Socket(cfg)] in a host without sockets or timers. *)
Definition init (cfg : SocketSettings) : World :=
  {| settings := cfg; self := new_Socket; now := 0; sockets := []; intervals := [];
     timeouts := []; starts := []; destroys := []; reconnects := []; trace := [] |}.

(** *** Field updates *)

Definition set_self (f : Socket -> Socket) (w : World) : World :=
  {| settings := settings w; self := f (self w); now := now w; sockets := sockets w;
     intervals := intervals w; timeouts := timeouts w; starts := starts w;
     destroys := destroys w; reconnects := reconnects w; trace := trace w |}.

Definition set_now (n : Z) (w : World) : World :=
  {| settings := settings w; self := self w; now := n; sockets := sockets w;
     intervals := intervals w; timeouts := timeouts w; starts := starts w;
     destroys := destroys w; reconnects := reconnects w; trace := trace w |}.

Definition set_sockets (f : list WebSocket -> list WebSocket) (w : World) : World :=
  {| settings := settings w; self := self w; now := now w; sockets := f (sockets w);
     intervals := intervals w; timeouts := timeouts w; starts := starts w;
     destroys := destroys w; reconnects := reconnects w; trace := trace w |}.

Definition set_intervals (f : list (Z * bool) -> list (Z * bool)) (w : World) : World :=
  {| settings := settings w; self := self w; now := now w; sockets := sockets w;
     intervals := f (intervals w); timeouts := timeouts w; starts := starts w;
     destroys := destroys w; reconnects := reconnects w; trace := trace w |}.

Definition set_timeouts (f : list (nat * Z) -> list (nat * Z)) (w : World) : World :=
  {| settings := settings w; self := self w; now := now w; sockets := sockets w;
     intervals := intervals w; timeouts := f (timeouts w); starts := starts w;
     destroys := destroys w; reconnects := reconnects w; trace := trace w |}.

Definition set_starts (f : list StartCall -> list StartCall) (w : World) : World :=
  {| settings := settings w; self := self w; now := now w; sockets := sockets w;
     intervals := intervals w; timeouts := timeouts w; starts := f (starts w);
     destroys := destroys w; reconnects := reconnects w; trace := trace w |}.

Definition set_destroys (f : list DestroyCall -> list DestroyCall) (w : World) : World :=
  {| settings := settings w; self := self w; now := now w; sockets := sockets w;
     intervals := intervals w; timeouts := timeouts w; starts := starts w;
     destroys := f (destroys w); reconnects := reconnects w; trace := trace w |}.

Definition set_reconnects (f : list ReconnectCall -> list ReconnectCall) (w : World) : World :=
  {| settings := settings w; self := self w; now := now w; sockets := sockets w;
     intervals := intervals w; timeouts := timeouts w; starts := starts w;
     destroys := destroys w; reconnects := f (reconnects w); trace := trace w |}.

(** Append one effect to the trace. *)
Definition emit (e : Effect) (w : World) : World :=
  {| settings := settings w; self := self w; now := now w; sockets := sockets w;
     intervals := intervals w; timeouts := timeouts w; starts := starts w;
     destroys := destroys w; reconnects := reconnects w; trace := trace w ++ [e] |}.

(** Append it only when [c] holds. *)
Definition emit_if (c : bool) (e : Effect) (w : World) : World :=
  if c then emit e w else w.

Definition set_started (v : bool) (o : Socket) : Socket :=
  {| started := v; _lastPing := _lastPing o; _lastACK := _lastACK o;
     _heartbeat := _heartbeat o; _sessionId := _sessionId o;
     _lastSequence := _lastSequence o; _reconnecting := _reconnecting o;
     _retries := _retries o; events := events o; _ws := _ws o |}.

Definition set_lastPing (v : Z) (o : Socket) : Socket :=
  {| started := started o; _lastPing := v; _lastACK := _lastACK o;
     _heartbeat := _heartbeat o; _sessionId := _sessionId o;
     _lastSequence := _lastSequence o; _reconnecting := _reconnecting o;
     _retries := _retries o; events := events o; _ws := _ws o |}.

Definition set_lastACK (v : Z) (o : Socket) : Socket :=
  {| started := started o; _lastPing := _lastPing o; _lastACK := v;
     _heartbeat := _heartbeat o; _sessionId := _sessionId o;
     _lastSequence := _lastSequence o; _reconnecting := _reconnecting o;
     _retries := _retries o; events := events o; _ws := _ws o |}.

Definition set_heartbeat (v : option nat) (o : Socket) : Socket :=
  {| started := started o; _lastPing := _lastPing o; _lastACK := _lastACK o;
     _heartbeat := v; _sessionId := _sessionId o;
     _lastSequence := _lastSequence o; _reconnecting := _reconnecting o;
     _retries := _retries o; events := events o; _ws := _ws o |}.

Definition set_sessionId (v : option string) (o : Socket) : Socket :=
  {| started := started o; _lastPing := _lastPing o; _lastACK := _lastACK o;
     _heartbeat := _heartbeat o; _sessionId := v;
     _lastSequence := _lastSequence o; _reconnecting := _reconnecting o;
     _retries := _retries o; events := events o; _ws := _ws o |}.

Definition set_lastSequence (v : option Z) (o : Socket) : Socket :=
  {| started := started o; _lastPing := _lastPing o; _lastACK := _lastACK o;
     _heartbeat := _heartbeat o; _sessionId := _sessionId o;
     _lastSequence := v; _reconnecting := _reconnecting o;
     _retries := _retries o; events := events o; _ws := _ws o |}.

Definition set_reconnecting (v : bool) (o : Socket) : Socket :=
  {| started := started o; _lastPing := _lastPing o; _lastACK := _lastACK o;
     _heartbeat := _heartbeat o; _sessionId := _sessionId o;
     _lastSequence := _lastSequence o; _reconnecting := v;
     _retries := _retries o; events := events o; _ws := _ws o |}.

Definition set_retries (v : nat) (o : Socket) : Socket :=
  {| started := started o; _lastPing := _lastPing o; _lastACK := _lastACK o;
     _heartbeat := _heartbeat o; _sessionId := _sessionId o;
     _lastSequence := _lastSequence o; _reconnecting := _reconnecting o;
     _retries := v; events := events o; _ws := _ws o |}.

Definition set_events (v : gmap string nat) (o : Socket) : Socket :=
  {| started := started o; _lastPing := _lastPing o; _lastACK := _lastACK o;
     _heartbeat := _heartbeat o; _sessionId := _sessionId o;
     _lastSequence := _lastSequence o; _reconnecting := _reconnecting o;
     _retries := _retries o; events := v; _ws := _ws o |}.

Definition set_ws (v : option nat) (o : Socket) : Socket :=
  {| started := started o; _lastPing := _lastPing o; _lastACK := _lastACK o;
     _heartbeat := _heartbeat o; _sessionId := _sessionId o;
     _lastSequence := _lastSequence o; _reconnecting := _reconnecting o;
     _retries := _retries o; events := events o; _ws := v |}.


Definition set_start_phase (p : StartPhase) (c : StartCall) : StartCall :=
  {| start_phase := p; start_owner := start_owner c |}.

Definition set_destroy_phase (p : DestroyPhase) (c : DestroyCall) : DestroyCall :=
  {| destroy_phase := p; destroy_owner := destroy_owner c |}.

Definition set_rc_phase (p : ReconnectPhase) (c : ReconnectCall) : ReconnectCall :=
  {| rc_clear := rc_clear c; rc_phase := p |}.

Definition set_readyState (v : ReadyState) (x : WebSocket) : WebSocket :=
  {| readyState := v; closeFired := closeFired x; onopen := onopen x;
     onerror := onerror x; onmessage := onmessage x; onclose := onclose x |}.

Definition set_onclose (v : CloseHandler) (x : WebSocket) : WebSocket :=
  {| readyState := readyState x; closeFired := closeFired x; onopen := onopen x;
     onerror := onerror x; onmessage := onmessage x; onclose := v |}.

(** [new WebSocket(GATEWAY)] *)
Definition new_WebSocket : WebSocket :=
  {| readyState := CONNECTING; closeFired := false; onopen := None;
     onerror := None; onmessage := false; onclose := OnCloseNull |}.

(** *** The logger and the session store *)

(** [if ( this.settings.debug ) log.echo( SOCKET_HEADER, m )] *)
Definition echo (m : SOCKET_MESSAGES) (w : World) : World :=
  emit_if (debug (settings w)) (ELog Echo m) w.

(** [if ( this.settings.warns ) log.warn( SOCKET_HEADER, m )] *)
Definition warn (m : SOCKET_MESSAGES) (w : World) : World :=
  emit_if (warns (settings w)) (ELog Warn m) w.

(** [log.fail( SOCKET_HEADER, m )] *)
Definition fail (m : SOCKET_MESSAGES) (w : World) : World :=
  emit (ELog Fail m) w.

(** [this.settings.sessionStore?.clear()] *)
Definition store_clear (w : World) : World :=
  emit_if (sessionStore (settings w)) EClear w.

(** [this.settings.sessionStore?.save({ sessionId, seq })] *)
Definition store_save (sessionId : string) (seq : Z) (w : World) : World :=
  emit_if (sessionStore (settings w)) (ESave sessionId seq) w.

(** *** [ping] *)

Definition ping (o : Socket) : Z :=
  let delta := (_lastACK o - _lastPing o)%Z in
  if (delta >=? 0)%Z then delta else 0%Z.

(** *** [listen] *)

Definition listen (event : string) (handler : nat) (w : World) : World :=
  let w := match events (self w) !! event with
           | Some _ => warn (MSG_LISTENER_REPLACED event) w
           | None => w
           end in
  set_self (fun o => set_events (<[event := handler]> (events o)) o) w.

(** *** [reconnect], after [await this.destroy()] *)

(** [String(e)] for what [start()] rejects with. *)
Definition String_of_error (e : StartError) : string :=
  match e with
  | FailObject => "[object Object]"
  | TypeErrorNull => "TypeError: null is not an object"
  | StoreError text => text
  end.

(** [Math.min( 2 ** retries * 1000, 30000 )] *)
Definition backoff (retries : nat) : Z :=
  Z.min (2 ^ Z.of_nat retries * 1000) 30000.

(** The body of [reconnect] from [if ( clear )] to its [return]. *)
Definition reconnect_after_destroy (r : nat) (w : World) : World :=
  match reconnects w !! r with
  | Some call =>
    let w :=
      if rc_clear call then
        let w := set_self (fun o => set_lastSequence None (set_sessionId None o)) w in
        let w := store_clear w in
        echo MSG_SESSION_CLEARED w
      else w in
    let retries := _retries (self w) in
    let w := set_self (set_retries (S retries)) w in
    let maxRetries := default 5%Z (maxRetries (settings w)) in
    if (Z.of_nat retries >=? maxRetries)%Z then
      let w := fail MSG_MAX_RETRIES_EXCEEDED w in
      let w := store_clear w in
      let w := set_self (set_reconnecting false) w in
      set_reconnects (alter (set_rc_phase (ReconnectResolved false)) r) w
    else
      let w := set_timeouts (fun l => l ++ [(r, backoff retries)]) w in
      set_reconnects (alter (set_rc_phase ReconnectBackoff) r) w
  | None => w
  end.

(** The timer callback of [reconnect] after [await this.start()]: the rest
    of the [try] block, or the [catch] block. *)
Definition reconnect_after_start (r : nat) (outcome : StartPhase) (w : World) : World :=
  match outcome with
  | StartResolved =>
    let w := set_self (fun o => set_reconnecting false (set_retries 0 o)) w in
    set_reconnects (alter (set_rc_phase (ReconnectResolved true)) r) w
  | StartRejected e =>
    let w := fail (TEXT (String_of_error e)) w in
    let w := set_self (set_reconnecting false) w in
    set_reconnects (alter (set_rc_phase ReconnectRejected) r) w
  | _ => w
  end.

(** *** [start] *)

(** [resolve()] or [reject(..)] of the promise of start call [s]: a promise
    settles once; the [reconnect] call that awaits it goes on. *)
Definition settle_start (s : nat) (outcome : StartPhase) (w : World) : World :=
  match starts w !! s with
  | Some call =>
    match start_phase call with
    | StartLoading | StartOpening =>
      let w := set_starts (alter (set_start_phase outcome) s) w in
      match start_owner call with
      | Some r => reconnect_after_start r outcome w
      | None => w
      end
    | _ => w
    end
  | None => w
  end.

(** [start] after [await this.settings.sessionStore?.load()].  The executor
    of the returned promise assigns to [this._ws!.onopen]: a [TypeError]
    when [_ws] is null, which rejects the promise. *)
Definition start_after_load (s : nat) (resumeData : option (string * Z)) (w : World) : World :=
  let w := match resumeData with
           | Some (sessionId, seq) =>
             set_self (fun o => set_lastSequence (Some seq) (set_sessionId (Some sessionId) o)) w
           | None => w
           end in
  match _ws (self w) with
  | Some ws =>
    let w := set_sockets (alter (fun x =>
      {| readyState := readyState x; closeFired := closeFired x;
         onopen := Some s; onerror := Some s; onmessage := true;
         onclose := OnCloseStart |}) ws) w in
    set_starts (alter (set_start_phase StartOpening) s) w
  | None => settle_start s (StartRejected TypeErrorNull) w
  end.

(** [start], called by the application ([owner = None]) or by the timer
    callback of a [reconnect] call. *)
Definition start (owner : option nat) (w : World) : World :=
  let s := length (starts w) in
  let ws := length (sockets w) in
  let w := set_self (fun o => set_ws (Some ws) (set_started true o)) w in
  let w := set_sockets (fun l => l ++ [new_WebSocket]) w in
  let w := set_starts (fun l => l ++ [{| start_phase := StartLoading; start_owner := owner |}]) w in
  if sessionStore (settings w) then emit ELoad w
  else start_after_load s None w.

(** *** [destroy] *)

(** [destroy] after [await closing]. *)
Definition destroy_after_close (d : nat) (w : World) : World :=
  match destroys w !! d with
  | Some call =>
    match destroy_phase call with
    | DestroyClosing _ =>
      let w := echo MSG_DESTROYED w in
      let w := set_destroys (alter (set_destroy_phase (DestroyResolved true)) d) w in
      match destroy_owner call with
      | Some r => reconnect_after_destroy r w
      | None => w
      end
    | DestroyResolved _ => w
    end
  | None => w
  end.

(** [ws.readyState] *)
Definition ready (ws : nat) (w : World) : ReadyState :=
  from_option readyState CLOSED (sockets w !! ws).

(** [destroy] up to [await closing] or [return true].  Every operation of
    the [try] block is total on these arguments, so the [catch] block is
    not entered. *)
Definition destroy (owner : option nat) (w : World) : World :=
  let w := match _heartbeat (self w) with
           | Some h =>
             let w := set_intervals (alter (fun i => (i.1, false)) h) w in
             set_self (set_heartbeat None) w
           | None => w
           end in
  match _ws (self w) with
  | Some ws =>
    let d := length (destroys w) in
    let w := set_sockets (alter (set_onclose (OnCloseDestroy d)) ws) w in
    let w := match ready ws w with
             | OPEN | CONNECTING =>
               let w := echo MSG_SOCKET_CLOSING w in
               let w := emit (EClose ws 1000 MSG_DESTROYED) w in
               set_sockets (alter (set_readyState CLOSING) ws) w
             | _ => w
             end in
    let w := set_sockets (alter (fun x =>
      {| readyState := readyState x; closeFired := closeFired x;
         onopen := None; onerror := None; onmessage := false;
         onclose := onclose x |}) ws) w in
    let w := set_self (set_ws None) w in
    set_destroys (fun l => l ++
      [{| destroy_phase := DestroyClosing ws; destroy_owner := owner |}]) w
  | None =>
    set_destroys (fun l => l ++
      [{| destroy_phase := DestroyResolved true; destroy_owner := owner |}]) w
  end.

(** *** [reconnect] *)

(** [reconnect] up to its first suspension: the guard, then [destroy()],
    and the rest of the body at once when [destroy()] had nothing to wait
    for. *)
Definition reconnect (clear : bool) (w : World) : World :=
  let r := length (reconnects w) in
  if _reconnecting (self w) then
    set_reconnects (fun l => l ++
      [{| rc_clear := clear; rc_phase := ReconnectResolved false |}]) w
  else
    let w := set_self (set_reconnecting true) w in
    let w := set_reconnects (fun l => l ++
      [{| rc_clear := clear; rc_phase := ReconnectDestroying |}]) w in
    let d := length (destroys w) in
    let w := destroy (Some r) w in
    match destroy_phase <$> destroys w !! d with
    | Some (DestroyResolved _) => reconnect_after_destroy r w
    | _ => w
    end.

(** The timer callback [async () => { try { await this.start(); ... ] of
    reconnect call [r]. *)
Definition reconnect_timer (r : nat) (w : World) : World :=
  let w := set_reconnects (alter (set_rc_phase ReconnectStarting) r) w in
  start (Some r) w.

(** *** [_handleMessage] *)

(** [this._ws!.send( JSON.stringify( frame ) )], a call that returns;
    [None] is the [TypeError] on a null [_ws].  The frames of
    [_handleMessage] answer a message of an open socket, which is the
    socket in [_ws] unless [start()] was called again in between. *)
Definition send (frame : SendPayload) (w : World) : option World :=
  match _ws (self w) with
  | Some ws => Some (emit (ESend ws frame) w)
  | None => None
  end.

(** A statement that throws ends the handler: what it did so far stays. *)
Definition or_throw (w : World) (r : option World) : World := default w r.

(** [if ( s ) { ... }] *)
Definition note_sequence (s : option Z) (w : World) : World :=
  match s with
  | Some n =>
    if (n =? 0)%Z then w
    else
      let w := set_self (set_lastSequence (Some n)) w in
      match _sessionId (self w) with
      | Some sessionId =>
        if String.eqb sessionId "" then w else store_save sessionId n w
      | None => w
      end
  | None => w
  end.

(** Whether the socket in [_ws] is still connecting.  There
    [WebSocket.prototype.send] of the host throws an [InvalidStateError];
    on a socket that is open it writes the frame, and on one that is
    closing or closed it returns and the host discards the data. *)
Definition connecting (w : World) : bool :=
  match _ws (self w) with
  | Some ws =>
    match ready ws w with
    | CONNECTING => true
    | _ => false
    end
  | None => false
  end.

(** The interval callback armed on Hello.  It fires whatever socket [_ws]
    holds by then: when [send] throws, on a null [_ws] or on a socket that
    is still connecting, the callback ends there, with [_lastPing] set and
    nothing logged. *)
Definition heartbeat_tick (w : World) : World :=
  let w := set_self (set_lastPing (now w)) w in
  or_throw w
    (w' ← (if connecting w then None
           else send (HeartbeatFrame (_lastSequence (self w))) w);
     Some (echo MSG_PING_SENT w')).

(** The [Hello] case.  Reading [d.heartbeat_interval] throws when [d] is
    null. *)
Definition on_hello (d : Json) (w : World) : World :=
  let w := set_self (set_lastPing (now w)) w in
  match d with
  | JNull => w
  | _ =>
    let interval := match d with
                    | JObj m => match field "heartbeat_interval" m with
                                | Some (JNum n) => n
                                | _ => 0%Z
                                end
                    | _ => 0%Z
                    end in
    let h := length (intervals w) in
    let w := set_intervals (fun l => l ++ [(interval, true)]) w in
    let w := set_self (set_heartbeat (Some h)) w in
    or_throw w (send (IdentifyFrame (token (settings w)) (intents (settings w))) w)
  end.

(** The [InvalidSession] case:
    [if ( d && this._sessionId && this._lastSequence !== null )]. *)
Definition on_invalid_session (d : Json) (w : World) : World :=
  let w := warn MSG_INVALID_SESSION w in
  match _sessionId (self w), _lastSequence (self w) with
  | Some sessionId, Some seq =>
    if truthy d && negb (String.eqb sessionId "") then
      let w := echo MSG_RESUME w in
      or_throw w (send (ResumeFrame (token (settings w)) sessionId seq) w)
    else
      reconnect true (echo MSG_RECONNECT w)
  | _, _ => reconnect true (echo MSG_RECONNECT w)
  end.

(** [d.session_id] when truthy; the payload type makes it a string. *)
Definition session_id_of (d : Json) : option string :=
  match d with
  | JObj m =>
    match field "session_id" m with
    | Some (JStr id) => if String.eqb id "" then None else Some id
    | _ => None
    end
  | _ => None
  end.

(** The [Dispatch] case; [thrown] is what the handler throws, if it does. *)
Definition on_dispatch (t : option string) (d : Json) (thrown : option string) (w : World) : World :=
  let is_ready := match t with Some name => String.eqb name "READY" | None => false end in
  match is_ready, d with
  | true, JNull => w
  | _, _ =>
    let w :=
      match is_ready, session_id_of d with
      | true, Some id =>
        let w := set_self (set_sessionId (Some id)) w in
        store_save id (default 0%Z (_lastSequence (self w))) w
      | _, _ => w
      end in
    match t with
    | Some name =>
      if String.eqb name "" then w
      else
        match events (self w) !! name with
        | Some handler =>
          let w := emit (ECall handler name d) w in
          match thrown with
          | Some err => fail (TEXT ("Error in event handler " +:+ name +:+ ": " +:+ err)) w
          | None => w
          end
        | None => w
        end
    | None => w
    end
  end.

(** [switch ( op ) { ... }] *)
Definition on_op (payload : Payload) (thrown : option string) (w : World) : World :=
  if (op payload =? Hello)%Z then on_hello (d payload) w
  else if (op payload =? HeartbeatAck)%Z then
    echo MSG_ACK (set_self (set_lastACK (now w)) w)
  else if (op payload =? Reconnect)%Z then
    reconnect false (echo MSG_RECONNECT w)
  else if (op payload =? InvalidSession)%Z then on_invalid_session (d payload) w
  else if (op payload =? Dispatch)%Z then on_dispatch (t payload) (d payload) thrown w
  else w.

(** [_handleMessage] *)
Definition _handleMessage (data : Incoming) (thrown : option string) (w : World) : World :=
  match data with
  | Malformed text => fail (MSG_JSON_INVALID text) w
  | Parsed payload => on_op payload thrown (note_sequence (s payload) w)
  end.

(** *** The closures [start] installs on the socket *)

(** [onopen] *)
Definition on_open (s : nat) (w : World) : World :=
  let w := set_self (set_lastACK (now w)) w in
  let w := echo MSG_CONNECTED w in
  settle_start s StartResolved w.

(** [onerror]: [reject( log.fail( SOCKET_HEADER, err.message ) )] *)
Definition on_error (s : nat) (message : string) (w : World) : World :=
  let w := fail (TEXT message) w in
  settle_start s (StartRejected FailObject) w.

(** Whatever [onclose] holds when the close event is dispatched. *)
Definition on_close (h : CloseHandler) (reason : string) (w : World) : World :=
  match h with
  | OnCloseNull => w
  | OnCloseStart => warn (MSG_CLOSED reason) w
  | OnCloseDestroy d => destroy_after_close d w
  end.

(** *** The event loop *)

(** What can happen next: the application calls a public method; the clock
    advances; [sessionStore.load()] settles for a start call; a socket
    opens, fails, closes or delivers a message (with what the invoked
    handler throws, if it throws); a backoff timer or a heartbeat interval
    fires. *)
Inductive Event :=
  | CallStart
  | CallDestroy
  | CallReconnect (clear : bool)
  | CallListen (event : string) (handler : nat)
  | Tick (time : Z)
  | LoadSettles (s : nat) (resumeData : option (string * Z))
  | LoadRejects (s : nat) (error : string)
  | WsOpens (ws : nat)
  | WsErrors (ws : nat) (message : string)
  | WsCloses (ws : nat) (reason : string)
  | WsMessage (ws : nat) (data : Incoming) (thrown : option string)
  | TimeoutFires (i : nat)
  | IntervalFires (h : nat).

(** One macrotask; [None] when the event cannot happen in [w].  A socket
    opens from CONNECTING; fails before it is CLOSED, which closes it and
    fires its error event; fires its close event once; delivers messages
    until it is CLOSED. *)
Definition step (w : World) (e : Event) : option World :=
  match e with
  | CallStart => Some (start None w)
  | CallDestroy => Some (destroy None w)
  | CallReconnect clear => Some (reconnect clear w)
  | CallListen event handler => Some (listen event handler w)
  | Tick time => if (now w <=? time)%Z then Some (set_now time w) else None
  | LoadSettles s resumeData =>
    match start_phase <$> starts w !! s with
    | Some StartLoading => Some (start_after_load s resumeData w)
    | _ => None
    end
  | LoadRejects s error =>
    match start_phase <$> starts w !! s with
    | Some StartLoading => Some (settle_start s (StartRejected (StoreError error)) w)
    | _ => None
    end
  | WsOpens ws =>
    match sockets w !! ws with
    | Some x =>
      match readyState x with
      | CONNECTING =>
        let w := set_sockets (alter (set_readyState OPEN) ws) w in
        Some (match onopen x with Some s => on_open s w | None => w end)
      | _ => None
      end
    | None => None
    end
  | WsErrors ws message =>
    match sockets w !! ws with
    | Some x =>
      match readyState x with
      | CLOSED => None
      | _ =>
        let w := set_sockets (alter (set_readyState CLOSED) ws) w in
        Some (match onerror x with Some s => on_error s message w | None => w end)
      end
    | None => None
    end
  | WsCloses ws reason =>
    match sockets w !! ws with
    | Some x =>
      if closeFired x then None
      else
        let w := set_sockets (alter (fun x =>
          {| readyState := CLOSED; closeFired := true; onopen := onopen x;
             onerror := onerror x; onmessage := onmessage x;
             onclose := onclose x |}) ws) w in
        Some (on_close (onclose x) reason w)
    | None => None
    end
  | WsMessage ws data thrown =>
    match sockets w !! ws with
    | Some x =>
      match readyState x with
      | OPEN | CLOSING => Some (if onmessage x then _handleMessage data thrown w else w)
      | _ => None
      end
    | None => None
    end
  | TimeoutFires i =>
    match timeouts w !! i with
    | Some (r, _) => Some (reconnect_timer r (set_timeouts (delete i) w))
    | None => None
    end
  | IntervalFires h =>
    match intervals w !! h with
    | Some (_, true) => Some (heartbeat_tick w)
    | _ => None
    end
  end.

(** A sequence of events, from [w]. *)
Fixpoint run (w : World) (evs : list Event) : option World :=
  match evs with
  | [] => Some w
  | e :: evs' =>
    match step w e with
    | Some w' => run w' evs'
    | None => None
    end
  end.

(** The worlds of a [Socket] built with [cfg] after any sequence of
    events. *)
Definition reachable (cfg : SocketSettings) (w : World) : Prop :=
  exists evs, run (init cfg) evs = Some w.

(** ** Vocabulary of the properties *)

(** A handler invocation. *)
Definition is_call (e : Effect) : bool :=
  match e with ECall _ _ _ => true | _ => false end.

(** The effects [w'] has beyond those of [w]. *)
Definition since (w w' : World) : list Effect := drop (length (trace w)) (trace w').

(** The settings [Client] passes on: no [debug], no [warns]; here without
    a session store. *)
Definition quiet : SocketSettings :=
  {| token := "Bot t"; intents := 513; maxRetries := None; sessionStore := false;
     debug := false; warns := false |}.

(** Everything switched on, with a session store. *)
Definition verbose : SocketSettings :=
  {| token := "Bot t"; intents := 513; maxRetries := None; sessionStore := true;
     debug := true; warns := true |}.

(** A Dispatch frame [{ op: 0, t: event, d: data, s: seq }]. *)
Definition dispatch_frame (event : string) (data : Json) (seq : option Z) : Payload :=
  {| op := Dispatch; t := Some event; d := data; s := seq |}.

(** ** Sequence numbers *)

(** [{ op: 10, d: { heartbeat_interval: 41250 } }] *)
Definition hello_frame : Payload :=
  {| op := Hello; t := None; d := JObj (MCons "heartbeat_interval" (JNum 41250) MNil); s := None |}.

(** [{ op: 0, t: "READY", s: 41, d: { session_id: "abc" } }] *)
Definition ready_frame : Payload :=
  dispatch_frame "READY" (JObj (MCons "session_id" (JStr "abc") MNil)) (Some 41%Z).

(** A connection that identified and received READY with sequence 41. *)
Definition session_events : list Event :=
  [CallStart; LoadSettles 0 None; WsOpens 0;
   WsMessage 0 (Parsed hello_frame) None; WsMessage 0 (Parsed ready_frame) None].

Definition session_world : World :=
  Eval vm_compute in default (init verbose) (run (init verbose) session_events).

(** ** Which effects a piece of code adds *)

(** [w'] has the trace of [w] and then effects that all satisfy [P]. *)
Definition grows (P : Effect -> bool) (w w' : World) : Prop :=
  exists l, trace w' = trace w ++ l /\ forallb P l = true.

(** Anything but a frame written to a socket. *)
Definition not_send (e : Effect) : bool :=
  match e with ESend _ _ => false | _ => true end.

(** ** InvalidSession *)


(** [{ op: 9, d: resumable }] *)
Definition invalid_session_frame (resumable : bool) : Payload :=
  {| op := InvalidSession; t := None; d := JBool resumable; s := None |}.

(** ** Reconnecting *)

(** [this.settings.maxRetries ?? 5] *)
Definition max_retries (w : World) : Z := default 5%Z (maxRetries (settings w)).

(** One failed attempt: the reconnect call, the close event of the socket
    that failed before (when there is one), the backoff timer, the session
    store answering, the new socket failing. *)
Definition failed_attempt (n : nat) : list Event :=
  [CallReconnect false] ++
  match n with 0 => [] | S m => [WsCloses m "connection failed"] end ++
  [TimeoutFires 0; LoadSettles n None; WsErrors n "connect ECONNREFUSED"].

(** Five failed attempts, then [destroy()] and the close event of the last
    socket. *)
Definition exhausting_events : list Event :=
  failed_attempt 0 ++ failed_attempt 1 ++ failed_attempt 2 ++ failed_attempt 3 ++
  failed_attempt 4 ++ [CallDestroy; WsCloses 4 "connection failed"].

Definition exhausted_world : World :=
  Eval vm_compute in default (init verbose) (run (init verbose) exhausting_events).

(** ** Code that leaves the host tables alone *)

Definition same_host (w w' : World) : Prop :=
  starts w' = starts w /\ sockets w' = sockets w /\ destroys w' = destroys w.

(** ** A destroy call that waits for a close event that has already fired *)

(** Destroy call [d] is suspended and every socket that holds its
    [() => res()] has dispatched its close event already. *)
Definition hung (d : nat) (w : World) : Prop :=
  (exists ws owner, destroys w !! d =
     Some {| destroy_phase := DestroyClosing ws; destroy_owner := owner |}) /\
  Forall (fun x => onclose x = OnCloseDestroy d -> closeFired x = true) (sockets w).

(** Every [() => res()] on a socket belongs to a destroy call made so far. *)
Definition onclose_wf (w : World) : Prop :=
  Forall (fun x => forall d, onclose x = OnCloseDestroy d -> d < length (destroys w)) (sockets w).

(** The server closes the connection; later the application calls
    [destroy()]. *)
Definition closed_by_server : list Event :=
  [CallStart; WsOpens 0; WsCloses 0 "going away"; CallDestroy].

Definition destroy_hangs : World :=
  Eval vm_compute in default (init quiet) (run (init quiet) closed_by_server).

(** ** A start call whose handlers were removed *)

Definition no_handler (s : nat) (x : WebSocket) : Prop :=
  onopen x <> Some s /\ onerror x <> Some s.

(** Start call [s] is pending and no socket holds a closure that could
    settle it. *)
Definition orphaned (s : nat) (w : World) : Prop :=
  (exists owner, starts w !! s =
     Some {| start_phase := StartOpening; start_owner := owner |}) /\
  Forall (no_handler s) (sockets w).

(** ** Where the handlers of a start call are *)

Definition has_handler (s : nat) (x : WebSocket) : Prop :=
  onopen x = Some s \/ onerror x = Some s.

(** The closures of start call [s] sit on at most one socket, and only
    once the call is past its [await]. *)
Definition handlers_wf (w : World) : Prop :=
  forall ws x s, sockets w !! ws = Some x -> has_handler s x ->
    (exists c, starts w !! s = Some c /\ start_phase c <> StartLoading) /\
    forall ws' x', sockets w !! ws' = Some x' -> has_handler s x' -> ws' = ws.

(** From [w] to [w'] no closure of a start call was installed and no call
    went back to loading. *)
Definition settles (w w' : World) : Prop :=
  (forall i x' s, sockets w' !! i = Some x' -> has_handler s x' ->
     exists x, sockets w !! i = Some x /\ has_handler s x) /\
  (forall s c, starts w !! s = Some c -> start_phase c <> StartLoading ->
     exists c', starts w' !! s = Some c' /\ start_phase c' <> StartLoading).

End Socket.

(** * JavaScript numbers *)

(** A [number]: a finite value, an infinity or NaN. *)
Inductive number := Fin (q : Q) | PosInf | NegInf | NaN.

(** * The bounded map: [dictionary] *)

Module Dictionary.

(** The value of [EFFECTIVE_LIMIT], kept in [this.limit]: an integer
    ([Math.round]) or [Number.POSITIVE_INFINITY]. *)
Inductive Limit := Finite (n : Z) | Infinity.

(** [Math.round] on a finite value: the nearest integer, halves upwards. *)
Definition Math_round (q : Q) : Z := Qfloor (q + (1 # 2)).

(** [limit && limit > 0 ? Math.round(limit) : Number.POSITIVE_INFINITY];
    [None] is an argument left out. *)
Definition EFFECTIVE_LIMIT (limit : option number) : Limit :=
  match limit with
  | Some (Fin q) => if Qltb 0 q then Finite (Math_round q) else Infinity
  | Some PosInf => Infinity
  | Some NegInf | Some NaN | None => Infinity
  end.

(** [this.limit] as an argument of the constructor. *)
Definition number_of (l : Limit) : number :=
  match l with
  | Finite n => Fin (inject_Z n)
  | Infinity => PosInf
  end.

(** What the constructor makes of a limit that an instance hands back to
    it: [EFFECTIVE_LIMIT (Some (number_of l))]. *)
Definition again (l : Limit) : Limit :=
  match l with
  | Finite n => if (0 <? n)%Z then Finite n else Infinity
  | Infinity => Infinity
  end.

(** [log.warn( `Dictionary(${name})`, `Reached its limit of ${limit}
    entries.` )] *)
Inductive Warning := ReachedLimit (name : string) (limit : Limit).

(** An instance: the entries of the underlying [Map] in insertion order,
    and the two fields. *)
Record Dictionary (Key Value : Type) := {
  entries : list (Key * Value);
  limit : Limit;
  name : string
}.
Arguments entries {Key Value} _.
Arguments limit {Key Value} _.
Arguments name {Key Value} _.

Section Methods.
Context {Key : Type} `{EqDecision Key}.

(** [Map.prototype.set]: a known key keeps its place, a new one goes
    last. *)
Fixpoint Map_set {Value} (key : Key) (value : Value) (l : list (Key * Value)) : list (Key * Value) :=
  match l with
  | [] => [(key, value)]
  | (k, v) :: l' => if decide (k = key) then (k, value) :: l' else (k, v) :: Map_set key value l'
  end.

(** [new Map(iterable)]: one [set] per item, in order.  The constructor of
    [Map] calls the overriding [set] below, at a moment when [this.limit]
    is still undefined, so that its test [this.size >= this.limit] is
    false. *)
Definition Map_of {Value} (iterable : list (Key * Value)) : list (Key * Value) :=
  fold_left (fun m kv => Map_set kv.1 kv.2 m) iterable [].

(** [Map.prototype.get] *)
Fixpoint Map_get {Value} (key : Key) (l : list (Key * Value)) : option Value :=
  match l with
  | [] => None
  | (k, v) :: l' => if decide (k = key) then Some v else Map_get key l'
  end.

(** The constructor.  With a finite limit the iterable is cut after
    [EFFECTIVE_LIMIT] items. *)
Definition new {Value} (iterable : option (list (Key * Value))) (limit : option number)
    (name : option string) : Dictionary Key Value :=
  let EFFECTIVE_LIMIT := EFFECTIVE_LIMIT limit in
  let items :=
    match iterable, EFFECTIVE_LIMIT with
    | Some items, Finite n => take (Z.to_nat n) items
    | Some items, Infinity => items
    | None, _ => []
    end in
  {| entries := Map_of items;
     limit := EFFECTIVE_LIMIT;
     name := match name with
             | Some text => if String.eqb text "" then "unknown" else text
             | None => "unknown"
             end |}.

(** [this.size] *)
Definition size {Value} (d : Dictionary Key Value) : nat := length (entries d).

(** [get] and [has], inherited from [Map]. *)
Definition get {Value} (key : Key) (d : Dictionary Key Value) : option Value :=
  Map_get key (entries d).

Definition has {Value} (key : Key) (d : Dictionary Key Value) : bool :=
  bool_decide (key ∈ (entries d).*1).

(** [this.size >= this.limit] *)
Definition full {Value} (d : Dictionary Key Value) : bool :=
  match limit d with
  | Finite n => (n <=? Z.of_nat (size d))%Z
  | Infinity => false
  end.

(** [set]: the dictionary afterwards and what was logged. *)
Definition set {Value} (key : Key) (value : Value) (d : Dictionary Key Value)
    : Dictionary Key Value * list Warning :=
  if full d then (d, [ReachedLimit (name d) (limit d)])
  else ({| entries := Map_set key value (entries d); limit := limit d; name := name d |}, []).

(** [filter] *)
Definition filter {Value} (callback : Value -> Key -> Dictionary Key Value -> bool)
    (d : Dictionary Key Value) : Dictionary Key Value :=
  new (Some (List.filter (fun kv => callback kv.2 kv.1 d) (entries d)))
      (Some (number_of (limit d))) (Some (name d)).

(** [find] *)
Definition find {Value} (callback : Value -> Key -> Dictionary Key Value -> bool)
    (d : Dictionary Key Value) : option Value :=
  snd <$> List.find (fun kv => callback kv.2 kv.1 d) (entries d).




(** [map] *)
Definition map {Value T} (callback : Value -> Key -> Dictionary Key Value -> T)
    (d : Dictionary Key Value) : Dictionary Key T :=
  new (Some (List.map (fun kv => (kv.1, callback kv.2 kv.1 d)) (entries d)))
      (Some (number_of (limit d))) (Some (name d)).

(** [first] *)
Definition first {Value} (d : Dictionary Key Value) : option Value :=
  head (entries d).*2.

(** [last] *)
Definition last {Value} (d : Dictionary Key Value) : option Value :=
  list.last (entries d).*2.

(** [clone] *)
Definition clone {Value} (d : Dictionary Key Value) : Dictionary Key Value :=
  new (Some (entries d)) (Some (number_of (limit d))) (Some (name d)).

(** [remaining]: [this.limit - this.size] *)
Definition remaining {Value} (d : Dictionary Key Value) : Limit :=
  match limit d with
  | Finite n => Finite (n - Z.of_nat (size d))
  | Infinity => Infinity
  end.

(** The dictionaries a program can hold: made by the constructor and
    passed through [set], [filter], [map] and [clone]. *)
Inductive built : forall {Value}, Dictionary Key Value -> Prop :=
  | built_new {Value} (iterable : option (list (Key * Value))) limit name :
      built (new iterable limit name)
  | built_set {Value} key value (d : Dictionary Key Value) :
      built d -> built (set key value d).1
  | built_filter {Value} callback (d : Dictionary Key Value) :
      built d -> built (filter callback d)
  | built_map {Value T} (callback : Value -> Key -> Dictionary Key Value -> T) d :
      built d -> built (map callback d)
  | built_clone {Value} (d : Dictionary Key Value) :
      built d -> built (clone d).

(** Distinct keys, no more entries than the limit allows, a name. *)
Definition wf {Value} (d : Dictionary Key Value) : Prop :=
  NoDup (entries d).*1 /\
  match limit d with
  | Finite n => (Z.of_nat (size d) <= n)%Z
  | Infinity => True
  end /\
  name d <> "".

End Methods.

(** A dictionary of limit 2 that holds two entries. *)
Definition two_entries : Dictionary string Z :=
  (set "b" 2%Z (new (Some [("a", 1%Z)]) (Some (Fin 2)) (Some "two"))).1.

End Dictionary.

(** * ANSI styles: [logger/styler] *)

Module Styler.

(** [enum Styles] *)
Inductive Styles :=
  | Reset | ResetBold | ResetItalic | ResetUnderline | ResetBlik | ResetInverse
  | ResetHidden | ResetStrikethrough | ResetColor | ResetBgColor
  | Bold | Dim | Italic | Underline | Blink | Inverse | Hidden | Strikethrough
  | RGBColor | BITColor | RGBBackground | BITBackground
  | Black | Red | Green | Yellow | Blue | Magenta | Cyan | White
  | BrightBlack | BrightRed | BrightGreen | BrightYellow | BrightBlue
  | BrightMagenta | BrightCyan | BrightWhite
  | BgBlack | BgRed | BgGreen | BgYellow | BgBlue | BgMagenta | BgCyan | BgWhite
  | BgBrightBlack | BgBrightRed | BgBrightGreen | BgBrightYellow | BgBrightBlue
  | BgBrightMagenta | BgBrightCyan | BgBrightWhite.

#[global] Instance Styles_eq_dec : EqDecision Styles.
Proof. solve_decision. Defined.

(** What [Array.prototype.join] makes of a member: the digits of a
    numeric member, the text of a string member. *)
Definition Styles_value (s : Styles) : string :=
  match s with
  | Reset => "0" | ResetBold => "22" | ResetItalic => "23" | ResetUnderline => "24"
  | ResetBlik => "25" | ResetInverse => "27" | ResetHidden => "28"
  | ResetStrikethrough => "29" | ResetColor => "39" | ResetBgColor => "49"
  | Bold => "1" | Dim => "2" | Italic => "3" | Underline => "4" | Blink => "5"
  | Inverse => "7" | Hidden => "8" | Strikethrough => "9"
  | RGBColor => "38;2" | BITColor => "38;5" | RGBBackground => "48;2" | BITBackground => "48;5"
  | Black => "30" | Red => "31" | Green => "32" | Yellow => "33" | Blue => "34"
  | Magenta => "35" | Cyan => "36" | White => "37"
  | BrightBlack => "90" | BrightRed => "91" | BrightGreen => "92" | BrightYellow => "93"
  | BrightBlue => "94" | BrightMagenta => "95" | BrightCyan => "96" | BrightWhite => "97"
  | BgBlack => "40" | BgRed => "41" | BgGreen => "42" | BgYellow => "43" | BgBlue => "44"
  | BgMagenta => "45" | BgCyan => "46" | BgWhite => "47"
  | BgBrightBlack => "100" | BgBrightRed => "101" | BgBrightGreen => "102"
  | BgBrightYellow => "103" | BgBrightBlue => "104" | BgBrightMagenta => "105"
  | BgBrightCyan => "106" | BgBrightWhite => "107"
  end.

(** The escape character [\x1b]. *)
Definition ESC : string := String (ascii_of_nat 27) "".

(** [Array.prototype.join] *)
Fixpoint join (separator : string) (l : list string) : string :=
  match l with
  | [] => ""
  | [x] => x
  | x :: l' => x +:+ separator +:+ join separator l'
  end.

(** [paint] *)
Definition paint (styles : list Styles) : string :=
  ESC +:+ "[" +:+ join ";" (Styles_value <$> styles) +:+ "m".

(** [Array.prototype.indexOf]; [None] is -1. *)
Fixpoint indexOf (x : Styles) (l : list Styles) : option nat :=
  match l with
  | [] => None
  | y :: l' => if decide (y = x) then Some 0 else S <$> indexOf x l'
  end.

(** [style]: the text it returns, and the array [styles] afterwards, which
    [splice] cuts at the index of [Reset]. *)
Definition style (text : string) (styles : list Styles) : string * list Styles :=
  match indexOf Reset styles with
  | None => (paint styles +:+ text +:+ paint [Reset], styles)
  | Some RESET_INDEX =>
    (paint (drop RESET_INDEX styles) +:+ text +:+ paint [Reset], take RESET_INDEX styles)
  end.

End Styler.

(** * Snowflakes: [classes/entities/user], [classes/entities/image] *)

Module Snowflake.

(** [EPOCH] *)
Definition EPOCH : Z := 1420070400000.

(** The getter [User.created], on the value of [BigInt( this.raw.id )]:
    the argument of [new Date(..)], in milliseconds.  [>>] on a BigInt is
    the arithmetic shift. *)
Definition created (id : Z) : Z := Z.shiftr id 22 + EPOCH.

(** [INDEX] of [UserAvatar.default], on the value of
    [BigInt( this.raw.ownerId )]; [%] on a BigInt truncates. *)
Definition default_avatar_index (ownerId : Z) : Z := Z.rem (Z.shiftr ownerId 22) 6.

End Snowflake.

Module Rest2.
Export Rest.

(** ** Which bucket an event belongs to *)

(** The key of the [runBucket] call an event leads to: the bucket of the
    request, of the job whose promise settles, of the timer that fires. *)
Definition event_key (st : State) (e : Event) : option string :=
  match e with
  | Request method route => Some (getBucketKey method route)
  | Tick _ => None
  | FetchResolves i _ | FetchRejects i | JsonSettles i => run_key <$> inflight st !! i
  | TimerFires i => t_key <$> timers st !! i
  end.

(** The events after which [runBucket] is called again for a bucket that
    is running: [job.fn()] settled, or the retry timer fired. *)
Definition is_wakeup (e : Event) : bool :=
  match e with
  | FetchRejects _ | JsonSettles _ | TimerFires _ => true
  | _ => false
  end.

(** [quota_before] after the response to its first request has arrived:
    the job awaits the body. *)
Definition quota_answered : State :=
  Eval vm_compute in default init (step quota_before (FetchResolves 0 quota_response)).

End Rest2.

Module Socket2.
Export Socket.

(** *** The getter [ws] and [presence] *)

(** The getter [ws]: the socket, or the failure that is logged and thrown
    as an [Error]. *)
Definition ws (w : World) : World * option nat :=
  match _ws (self w) with
  | Some x => (w, Some x)
  | None => (fail MSG_NO_SOCKET w, None)
  end.

(** What [presence] throws: the [Error] of the getter, whose message is
    the text logged, or the [InvalidStateError] of
    [WebSocket.prototype.send] on a socket that is still connecting. *)
Inductive PresenceError :=
  | NoSocketError (message : SOCKET_MESSAGES)
  | InvalidStateError (ws : nat).

(** How a call of [presence] ends: it throws, or [ws.send] of
    [{ op: PresenceUpdate, d: data }] returns; the host writes the frame
    to an open socket and discards it on one that is closing or closed. *)
Inductive PresenceOutcome :=
  | PresenceThrows (error : PresenceError)
  | PresenceSent (ws : nat) (op : Z) (data : Json).

(** [presence] *)
Definition presence (data : Json) (w : World) : World * PresenceOutcome :=
  match ws w with
  | (w, Some x) =>
    match ready x w with
    | CONNECTING => (w, PresenceThrows (InvalidStateError x))
    | _ => (w, PresenceSent x PresenceUpdate data)
    end
  | (w, None) => (w, PresenceThrows (NoSocketError MSG_NO_SOCKET))
  end.

(** ** What the settings allow *)

(** The effects a socket built with [cfg] may have: debug lines only with
    [debug], warnings only with [warns], the session store only when one
    was given, and frames that carry the token and the intents of [cfg]. *)
Definition allowed (cfg : SocketSettings) (e : Effect) : bool :=
  match e with
  | ELog Echo _ => debug cfg
  | ELog Warn _ => warns cfg
  | ELog Fail _ => true
  | ESend _ (IdentifyFrame tok i) => String.eqb tok (token cfg) && (i =? intents cfg)%Z
  | ESend _ (ResumeFrame tok _ _) => String.eqb tok (token cfg)
  | ESend _ (HeartbeatFrame _) => true
  | EClose _ code _ => (code =? 1000)%Z
  | ELoad | ESave _ _ | EClear => sessionStore cfg
  | ECall _ _ _ => true
  end.

(** A world of a socket built with [cfg] whose effects so far were all
    allowed. *)
Definition within (cfg : SocketSettings) (w : World) : Prop :=
  settings w = cfg /\ forallb (allowed cfg) (trace w) = true.

(** ** Code that leaves the clock, the time stamps and the settings alone *)

(** From [w] to [w'] the settings, the clock and the two time stamps are
    the same, the effects added are allowed by the settings, no interval
    was armed, a cleared one stays cleared, and either [_heartbeat] and the
    intervals are the same or [_heartbeat] is null. *)
Definition calm (w w' : World) : Prop :=
  settings w' = settings w /\ now w' = now w /\
  _lastPing (self w') = _lastPing (self w) /\ _lastACK (self w') = _lastACK (self w) /\
  (exists l, trace w' = trace w ++ l /\ forallb (allowed (settings w)) l = true) /\
  length (intervals w') = length (intervals w) /\
  (forall h, snd <$> intervals w !! h = Some false -> snd <$> intervals w' !! h = Some false) /\
  (_heartbeat (self w') = _heartbeat (self w) /\ intervals w' = intervals w \/
   _heartbeat (self w') = None).

(** ** The clock and the two time stamps *)

Definition stamps_ok (w : World) : Prop :=
  (_lastPing (self w) <= now w)%Z /\ (_lastACK (self w) <= now w)%Z /\ (0 <= now w)%Z.

(** ** Heartbeat intervals *)

(** Interval [h] has been cleared. *)
Definition cleared (h : nat) (w : World) : Prop :=
  snd <$> intervals w !! h = Some false.

(** [_heartbeat] holds the handle of an interval that is armed. *)
Definition heartbeat_wf (w : World) : Prop :=
  forall h, _heartbeat (self w) = Some h -> snd <$> intervals w !! h = Some true.

(** What holds of every world of a socket built with [cfg]. *)
Definition good (cfg : SocketSettings) (w : World) : Prop :=
  within cfg w /\ stamps_ok w /\ heartbeat_wf w.

(** ** Sample worlds *)

(** A connection that has just opened. *)
Definition opened_world : World :=
  Eval vm_compute in default (init quiet) (run (init quiet) [CallStart; WsOpens 0]).

(** A [reconnect()] whose backoff has passed and whose [start()] waits for
    its socket. *)
Definition retrying_world : World :=
  Eval vm_compute in
    default (init quiet) (run (init quiet) [CallReconnect false; TimeoutFires 0]).

End Socket2.

(** * The client: [core/client] *)

Module Client.
Import Socket.

(** The settings [new Client(settings)] builds its socket with: the token
    prefixed, [debug] and [warns] left out. *)
Definition socket_settings (settings : SocketSettings) : SocketSettings :=
  {| token := "Bot " +:+ token settings;
     intents := intents settings;
     maxRetries := maxRetries settings;
     sessionStore := sessionStore settings;
     debug := false;
     warns := false |}.

(** The instance, beside its socket and its rest client. *)
Record Client := { _start_time : Z }.

(** The field initialiser: [Bun.nanoseconds()] at construction. *)
Definition new (nanoseconds : Z) : Client := {| _start_time := nanoseconds |}.

(** The getter [uptime], when [Bun.nanoseconds()] reads [nanoseconds]. *)
Definition uptime (nanoseconds : Z) (c : Client) : Z :=
  let time := (nanoseconds - _start_time c)%Z in
  if (time <? 0)%Z then 0%Z else time.

(** [destroy], as far as the client's own field goes. *)
Definition destroy (c : Client) : Client := {| _start_time := 0 |}.

(** The settings of a client, and its socket after [session_events]. *)
Definition client_settings : SocketSettings :=
  {| token := "t"; intents := 513; maxRetries := None; sessionStore := true;
     debug := true; warns := true |}.

Definition client_world : World :=
  Eval vm_compute in
    default (init (socket_settings client_settings))
            (run (init (socket_settings client_settings)) session_events).

End Client.

(** How many elements of [l] satisfy [P]. *)
Fixpoint count {A} (P : A -> bool) (l : list A) : nat :=
  match l with
  | [] => 0
  | x :: l' => (if P x then 1 else 0) + count P l'
  end.

Module Socket3.
Export Socket.

(** ** Calls in progress *)

(** A [reconnect()] call that has not returned. *)
Definition rc_pending (c : ReconnectCall) : bool :=
  match rc_phase c with
  | ReconnectDestroying | ReconnectBackoff | ReconnectStarting => true
  | _ => false
  end.

(** A [start()] call whose promise is pending. *)
Definition start_pending (c : StartCall) : bool :=
  match start_phase c with
  | StartLoading | StartOpening => true
  | _ => false
  end.

(** A pending [start()] call that a [reconnect()] call awaits. *)
Definition start_awaited (c : StartCall) : bool :=
  start_pending c && bool_decide (is_Some (start_owner c)).

(** A [destroy()] call that waits for a close event. *)
Definition destroy_pending (c : DestroyCall) : bool :=
  match destroy_phase c with
  | DestroyClosing _ => true
  | DestroyResolved _ => false
  end.

(** A waiting [destroy()] call that a [reconnect()] call awaits. *)
Definition destroy_awaited (c : DestroyCall) : bool :=
  destroy_pending c && bool_decide (is_Some (destroy_owner c)).

(** The bookkeeping of [reconnect]: [_reconnecting] tells whether a call
    is in progress, and there is at most one; what it waits for is one
    thing at a time, a [destroy()], then the backoff timer, then a
    [start()], and these belong to the call in progress. *)
Definition one_at_a_time (flag : bool) (rcs : list ReconnectCall) (tos : list (nat * Z))
    (sts : list StartCall) (des : list DestroyCall) : Prop :=
  count rc_pending rcs = (if flag then 1 else 0) /\
  length tos + count start_awaited sts + count destroy_awaited des <= count rc_pending rcs /\
  (forall i r delay, tos !! i = Some (r, delay) ->
     rc_phase <$> rcs !! r = Some ReconnectBackoff) /\
  (forall s c r, sts !! s = Some c -> start_pending c = true -> start_owner c = Some r ->
     rc_phase <$> rcs !! r = Some ReconnectStarting) /\
  (forall d c r, des !! d = Some c -> destroy_pending c = true -> destroy_owner c = Some r ->
     rc_phase <$> rcs !! r = Some ReconnectDestroying).

(** What the bookkeeping reads of a world. *)
Definition shape (w : World) :=
  (_reconnecting (self w), reconnects w, timeouts w, starts w, destroys w).

Definition reconnect_wf (w : World) : Prop :=
  one_at_a_time (_reconnecting (self w)) (reconnects w) (timeouts w) (starts w) (destroys w).

(** Call [r] is the one in progress and is between two of its waits. *)
Definition between (r : nat) (rcs : list ReconnectCall) (tos : list (nat * Z))
    (sts : list StartCall) (des : list DestroyCall) : Prop :=
  (exists c, rcs !! r = Some c /\ rc_pending c = true) /\
  count rc_pending rcs = 1 /\
  tos = [] /\ count start_awaited sts = 0 /\ count destroy_awaited des = 0.

(** ** A reconnect call that waits for a close event that has fired *)

(** The two effects of the retry check when it gives up, the failure
    MAX_RETRIES_EXCEEDED and [sessionStore.clear()]. *)
Definition gives_up (e : Effect) : bool :=
  match e with
  | ELog Fail MSG_MAX_RETRIES_EXCEEDED => true
  | EClear => true
  | _ => false
  end.

Definition no_give_up (e : Effect) : bool := negb (gives_up e).

(** From [w] to [w'] no [reconnect()] call went on: the flag, the attempt
    counter, the calls made so far and the owners of the [destroy()] calls
    are the same, and nothing was given up. *)
Definition idle (w w' : World) : Prop :=
  _reconnecting (self w') = _reconnecting (self w) /\
  _retries (self w') = _retries (self w) /\
  (exists l, reconnects w' = reconnects w ++ l) /\
  (exists l, destroy_owner <$> destroys w' = (destroy_owner <$> destroys w) ++ l) /\
  grows no_give_up w w'.

(** Reconnect call [r] awaits destroy call [d], which is hung; the attempt
    counter is [n]. *)
Definition stuck (r d n : nat) (w : World) : Prop :=
  hung d w /\
  destroy_owner <$> destroys w !! d = Some (Some r) /\
  rc_phase <$> reconnects w !! r = Some ReconnectDestroying /\
  _reconnecting (self w) = true /\
  _retries (self w) = n /\
  reconnect_wf w.

(** Five failed attempts, each made once the socket of the one before has
    failed, and then the close event of the last socket. *)
Definition exhausted_closed : World :=
  Eval vm_compute in
    default (init verbose)
      (run (init verbose)
         (failed_attempt 0 ++ failed_attempt 1 ++ failed_attempt 2 ++ failed_attempt 3 ++
          failed_attempt 4 ++ [WsCloses 4 "connection failed"])).

End Socket3.

(** * Interactions: [classes/entities/interaction.ts] *)

Module Interaction.

(** A [Message] entity, as far as [reply] reads it: [raw.id]. *)
Record Message := { id : string }.

(** What the [Message] constructor makes of the data a request resolved
    with: an entity, or an exception (it reads [raw.id] and
    [raw.author.id]); [err] is [String( err )] of that exception. *)
Inductive API := Constructs (m : Message) | ConstructorThrows (err : string).

(** The members of [InteractionResponseType] that are used here. *)
Inductive InteractionResponseType :=
  | ChannelMessageWithSource
  | DeferredChannelMessageWithSource.

(** The argument of [rest.request]: the method, the route, and the
    [type] of the body where the body is a callback. *)
Record Request := {
  method : Rest.Method;
  route : string;
  type : option InteractionResponseType
}.

(** The texts that are logged and thrown.  [Text err] is [String( err )]
    of a caught exception. *)
Inductive Message_text :=
  | ALREADY_DEFERRED
  | FOLLOW_UP_REACHED
  | FOLLOW_UP_REMAINING (remaining : Z)
  | Text (err : string).

(** A line of the log: [log.warn] and [log.fail] with the argument of
    [format_name] and the text, and the warnings of the dictionary. *)
Inductive Line :=
  | WarnLine (prop : string) (text : Message_text)
  | FailLine (prop : string) (text : Message_text)
  | DictionaryLine (warning : Dictionary.Warning).

(** The fields of an instance. *)
Record Interaction := {
  _remaining_followup : Z;
  _followup_messages : Dictionary.Dictionary string Message;
  _completed : bool;
  _deferred : bool
}.

(** The [await] at which a call of a method stands. *)
Inductive Awaits :=
  | FirstReply      (* reply: POST interactionCallback *)
  | EditReply       (* reply: PATCH webhookMessage *)
  | FollowUp        (* reply: POST webhook *)
  | Defer
  | Edit
  | Original
  | Destroy.

(** How a call ends. *)
Inductive Result :=
  | ReturnsMessage (m : Message)
  | ReturnsBool (b : bool)
  | ReturnsNull
  | Throws (text : Message_text).

Inductive Call := Waiting (a : Awaits) | Settled (r : Result).

(** An instance, the calls made on it (the request of a waiting call is
    in flight), the requests handed to [rest.request] and the log. *)
Record World := {
  self : Interaction;
  calls : list Call;
  requests : list Request;
  log : list Line
}.

(** [new Interaction( rest, raw )]: the field initialisers. *)
Definition new : Interaction :=
  let _remaining_followup := 5%Z in
  {| _remaining_followup := _remaining_followup;
     _followup_messages :=
       Dictionary.new None (Some (Fin (inject_Z _remaining_followup))) (Some "followup_messages");
     _completed := false;
     _deferred := false |}.

Definition init : World :=
  {| self := new; calls := []; requests := []; log := [] |}.

Definition set_self (f : Interaction -> Interaction) (w : World) : World :=
  {| self := f (self w); calls := calls w; requests := requests w; log := log w |}.

Definition logs (l : list Line) (w : World) : World :=
  {| self := self w; calls := calls w; requests := requests w; log := log w ++ l |}.

Definition warn (prop : string) (text : Message_text) : World -> World :=
  logs [WarnLine prop text].

Definition fail (prop : string) (text : Message_text) : World -> World :=
  logs [FailLine prop text].

(** A call that ends without an [await]. *)
Definition returns (r : Result) (w : World) : World :=
  {| self := self w; calls := calls w ++ [Settled r]; requests := requests w; log := log w |}.

(** [await this.rest.request( request )]: the call is suspended. *)
Definition awaits (a : Awaits) (request : Request) (w : World) : World :=
  {| self := self w; calls := calls w ++ [Waiting a];
     requests := requests w ++ [request]; log := log w |}.

(** Call [i] ends after its [await]. *)
Definition settle (i : nat) (r : Result) (w : World) : World :=
  {| self := self w; calls := alter (fun _ => Settled r) i (calls w);
     requests := requests w; log := log w |}.

Definition set_deferred (b : bool) (s : Interaction) : Interaction :=
  {| _remaining_followup := _remaining_followup s;
     _followup_messages := _followup_messages s;
     _completed := _completed s;
     _deferred := b |}.

Definition set_completed (b : bool) (s : Interaction) : Interaction :=
  {| _remaining_followup := _remaining_followup s;
     _followup_messages := _followup_messages s;
     _completed := b;
     _deferred := _deferred s |}.

Definition set_remaining_followup (n : Z) (s : Interaction) : Interaction :=
  {| _remaining_followup := n;
     _followup_messages := _followup_messages s;
     _completed := _completed s;
     _deferred := _deferred s |}.

Definition set_followup_messages (d : Dictionary.Dictionary string Message)
    (s : Interaction) : Interaction :=
  {| _remaining_followup := _remaining_followup s;
     _followup_messages := d;
     _completed := _completed s;
     _deferred := _deferred s |}.

(** [original()] up to its [await]. *)
Definition original (w : World) : World :=
  if negb (_deferred (self w)) || negb (_completed (self w)) then returns ReturnsNull w
  else awaits Original {| method := Rest.GET; route := "webhookMessage"; type := None |} w.

(** [defer( flags )] up to its [await]. *)
Definition defer (w : World) : World :=
  if _deferred (self w) then
    returns (ReturnsBool true) (warn "defer" ALREADY_DEFERRED w)
  else
    awaits Defer {| method := Rest.POST; route := "interactionCallback";
                    type := Some DeferredChannelMessageWithSource |} w.

(** [reply( data, attachments )] up to its [await]. *)
Definition reply (w : World) : World :=
  if (_remaining_followup (self w) <=? 0)%Z then
    returns (Throws FOLLOW_UP_REACHED) (fail "reply" FOLLOW_UP_REACHED w)
  else if negb (_deferred (self w)) then
    awaits FirstReply {| method := Rest.POST; route := "interactionCallback";
                         type := Some ChannelMessageWithSource |} w
  else if negb (_completed (self w)) then
    awaits EditReply {| method := Rest.PATCH; route := "webhookMessage"; type := None |} w
  else
    let w1 := set_self (fun s => set_remaining_followup (_remaining_followup s - 1) s) w in
    let w2 := warn "reply" (FOLLOW_UP_REMAINING (_remaining_followup (self w1))) w1 in
    awaits FollowUp {| method := Rest.POST; route := "webhook"; type := None |} w2.

(** [edit( data, attachments )] up to its [await].  Before completion it
    is [return await this.reply( ... )]. *)
Definition edit (w : World) : World :=
  if negb (_completed (self w)) then reply w
  else awaits Edit {| method := Rest.PATCH; route := "webhookMessage"; type := None |} w.

(** [destroy( reason )] up to its [await]. *)
Definition destroy (w : World) : World :=
  awaits Destroy {| method := Rest.DELETE; route := "webhookMessage"; type := None |} w.

(** The rest of call [i] once its request has resolved. *)
Definition resolved (i : nat) (a : Awaits) (api : API) (w : World) : World :=
  match a with
  | FirstReply =>
      let w1 := set_self (fun s => set_completed true (set_deferred true s)) w in
      match api with
      | Constructs m => settle i (ReturnsMessage m) w1
      | ConstructorThrows err => settle i (Throws (Text err)) (fail "reply" (Text err) w1)
      end
  | EditReply =>
      let w1 := set_self (set_completed true) w in
      match api with
      | Constructs m => settle i (ReturnsMessage m) w1
      | ConstructorThrows err => settle i (Throws (Text err)) (fail "reply" (Text err) w1)
      end
  | FollowUp =>
      match api with
      | Constructs MESSAGE =>
          let '(d, warnings) :=
            Dictionary.set (id MESSAGE) MESSAGE (_followup_messages (self w)) in
          let w1 := logs (DictionaryLine <$> warnings) (set_self (set_followup_messages d) w) in
          settle i (ReturnsMessage MESSAGE) w1
      | ConstructorThrows err => settle i (Throws (Text err)) (fail "reply" (Text err) w)
      end
  | Defer => settle i (ReturnsBool true) (set_self (set_deferred true) w)
  | Edit =>
      match api with
      | Constructs m => settle i (ReturnsMessage m) w
      | ConstructorThrows err => settle i (Throws (Text err)) (fail "user" (Text err) w)
      end
  | Original =>
      match api with
      | Constructs m => settle i (ReturnsMessage m) w
      | ConstructorThrows err => settle i ReturnsNull (warn "original" (Text err) w)
      end
  | Destroy => settle i (ReturnsBool true) w
  end.

(** The rest of call [i] once its request has rejected: the [catch]
    block; [err] is [String( err )]. *)
Definition rejected (i : nat) (a : Awaits) (err : string) (w : World) : World :=
  match a with
  | FirstReply | EditReply | FollowUp =>
      settle i (Throws (Text err)) (fail "reply" (Text err) w)
  | Defer => settle i (ReturnsBool false) (warn "defer" (Text err) w)
  | Edit => settle i (Throws (Text err)) (fail "user" (Text err) w)
  | Original => settle i ReturnsNull (warn "original" (Text err) w)
  | Destroy => settle i (Throws (Text err)) (fail "destroy" (Text err) w)
  end.

(** What happens to an instance: the program calls a method, or the
    request of a waiting call settles. *)
Inductive Event :=
  | CallOriginal
  | CallDefer
  | CallReply
  | CallEdit
  | CallDestroy
  | Resolves (i : nat) (api : API)
  | Rejects (i : nat) (err : string).

Definition step (e : Event) (w : World) : World :=
  match e with
  | CallOriginal => original w
  | CallDefer => defer w
  | CallReply => reply w
  | CallEdit => edit w
  | CallDestroy => destroy w
  | Resolves i api =>
      match calls w !! i with
      | Some (Waiting a) => resolved i a api w
      | _ => w
      end
  | Rejects i err =>
      match calls w !! i with
      | Some (Waiting a) => rejected i a err w
      | _ => w
      end
  end.

Definition run (es : list Event) (w : World) : World :=
  fold_left (fun w e => step e w) es w.

Definition reachable (w : World) : Prop := exists es, w = run es init.

(** ** Follow-ups *)

Definition is_followup (r : Request) : bool :=
  match method r with
  | Rest.POST => String.eqb (route r) "webhook"
  | _ => false
  end.

Definition awaits_followup (c : Call) : bool :=
  match c with
  | Waiting FollowUp => true
  | _ => false
  end.

Definition is_dictionary_line (l : Line) : bool :=
  match l with
  | DictionaryLine _ => true
  | _ => false
  end.

(** The follow-up budget: the counter stays between 0 and 5 and tells how
    many follow-ups were sent; the stored messages and the follow-ups in
    flight fit in what was sent; the dictionary, whose limit is 5, has
    refused nothing. *)
Definition budget (w : World) : Prop :=
  (0 <= _remaining_followup (self w) <= 5)%Z /\
  Z.of_nat (count is_followup (requests w)) = (5 - _remaining_followup (self w))%Z /\
  Dictionary.limit (_followup_messages (self w)) = Dictionary.Finite 5 /\
  Dictionary.size (_followup_messages (self w)) + count awaits_followup (calls w)
    <= count is_followup (requests w) /\
  count is_dictionary_line (log w) = 0.

(** An edit of the deferred response is only awaited by an instance that
    is deferred, and a completed instance is deferred. *)
Definition staged (w : World) : Prop :=
  (_completed (self w) = true -> _deferred (self w) = true) /\
  (forall i, calls w !! i = Some (Waiting EditReply) -> _deferred (self w) = true).

End Interaction.

(** * Proofs *)

Lemma Qltb_lt (x y : Q) : Qltb x y = true <-> (x < y)%Q.
Proof.
  unfold Qltb. rewrite negb_true_iff.
  destruct (Qle_bool y x) eqn:E.
  - apply Qle_bool_iff in E. split; [discriminate | lra].
  - split; [intros _ | reflexivity].
    assert (~ (y <= x)%Q) by (rewrite <- Qle_bool_iff; congruence). lra.
Qed.

Lemma Qltb_ge (x y : Q) : Qltb x y = false <-> (y <= x)%Q.
Proof.
  destruct (Qltb x y) eqn:E.
  - apply Qltb_lt in E. split; [discriminate | lra].
  - split; [intros _ | reflexivity].
    assert (~ (x < y)%Q) by (rewrite <- Qltb_lt; congruence). lra.
Qed.

Module RestProofs.
Import Rest.

Lemma runBucket_view_ne k0 k st : k <> k0 -> view k (runBucket k0 st) = view k st.
Proof.
  intros Hne. unfold runBucket.
  destruct (buckets st !! k0) as [b|] eqn:Hb; [|done].
  destruct (limited b (now st)).
  - unfold view, jobs_of, timers_of, started_of, issued_of; simpl.
    rewrite filter_app, filter_cons_False, filter_nil, app_nil_r by (simpl; congruence). done.
  - destruct (queue b) as [|job rest].
    + unfold view, jobs_of, timers_of, started_of, issued_of; simpl.
      rewrite lookup_insert_ne by done. done.
    + unfold view, jobs_of, timers_of, started_of, issued_of; simpl.
      rewrite lookup_insert_ne by done.
      rewrite !filter_app, !filter_cons_False, !filter_nil, !app_nil_r by (simpl; congruence). done.
Qed.

Lemma queued_of_view k st st' : view k st = view k st' -> queued_of k st = queued_of k st'.
Proof. unfold view, queued_of. intros H. injection H as -> _ _ _ _ _. done. Qed.

Lemma inv_at_view k st st' : view k st = view k st' -> inv_at k st -> inv_at k st'.
Proof.
  intros H. pose proof (queued_of_view _ _ _ H) as Hq.
  unfold inv_at, bucket_ok, keys_ok, fifo, latest, started_fns. rewrite Hq.
  unfold view in H. injection H as -> -> -> -> -> ->. done.
Qed.

Lemma runBucket_inv_at k st : run_pre k st -> inv_at k (runBucket k st).
Proof.
  intros (b & Hb & Hj & Ht & Hrun & [Hkq Hkj] & Hf).
  unfold runBucket. rewrite Hb.
  destruct (limited b (now st)) eqn:Hlim.
  - destruct Hrun as [Hrun|]; [|done].
    split; [|split; [|split]].
    + unfold bucket_ok, jobs_of, timers_of in *; simpl. rewrite Hb, Hrun, Hj.
      rewrite filter_app, Ht, filter_cons_True by done. done.
    + split; [exact Hkq|]. unfold jobs_of in *; simpl. exact Hkj.
    + exact Hf.
    + intros r. unfold jobs_of in *. simpl. rewrite Hj. intros Hr. inversion Hr.
  - destruct (queue b) as [|job rest] eqn:Hq.
    + split; [|split; [|split]].
      * unfold bucket_ok, jobs_of, timers_of in *; simpl.
        rewrite lookup_insert_eq. simpl. done.
      * unfold keys_ok, queued_of, jobs_of in *. simpl. rewrite lookup_insert_eq. simpl.
        split; [intros c Hc; inversion Hc | exact Hkj].
      * unfold fifo, started_fns, queued_of, started_of, issued_of in *. simpl.
        rewrite lookup_insert_eq. simpl. rewrite Hb, Hq in Hf. exact Hf.
      * intros r. unfold jobs_of in *. simpl. rewrite Hj. intros Hr. inversion Hr.
    + split; [|split; [|split]].
      * unfold bucket_ok, jobs_of, timers_of in *; simpl.
        rewrite lookup_insert_eq. simpl.
        rewrite filter_app, Hj, Ht, filter_cons_True by done. done.
      * unfold keys_ok, queued_of, jobs_of in *. simpl. rewrite lookup_insert_eq. simpl.
        rewrite Hb, Hq in Hkq. simpl in Hkq.
        split.
        -- intros c Hc. apply Hkq. by right.
        -- intros r. rewrite filter_app, Hj, filter_cons_True by done. simpl.
           intros Hr. apply list_elem_of_singleton in Hr. subst r. simpl. apply Hkq. by left.
      * unfold fifo, started_fns, queued_of, started_of, issued_of in *. simpl.
        rewrite lookup_insert_eq. simpl. rewrite Hb, Hq in Hf. simpl in Hf.
        rewrite filter_app, filter_cons_True, filter_nil by done.
        rewrite fmap_app. simpl. rewrite <- app_assoc. simpl. exact Hf.
      * intros r. unfold started_fns, jobs_of, started_of in *. simpl.
        rewrite !filter_app, Hj, !filter_cons_True, !filter_nil by done. simpl.
        intros Hr. apply list_elem_of_singleton in Hr. subst r. simpl.
        rewrite fmap_app. simpl. apply last_snoc.
Qed.

Section Lists.
Context {A : Type} (P : A -> Prop) `{!forall x, Decision (P x)}.

Lemma filter_delete_in (l : list A) i x :
  l !! i = Some x -> P x -> length (filter P l) = S (length (filter P (delete i l))).
Proof.
  intros Hi Hx. rewrite delete_take_drop.
  rewrite <- (take_drop_middle l i x Hi) at 1.
  rewrite !filter_app, filter_cons_True, !length_app by done. simpl. lia.
Qed.

Lemma filter_delete_out (l : list A) i x :
  l !! i = Some x -> ~ P x -> filter P (delete i l) = filter P l.
Proof.
  intros Hi Hx. rewrite delete_take_drop.
  rewrite <- (take_drop_middle l i x Hi) at 3.
  rewrite !filter_app, filter_cons_False by done. done.
Qed.

Lemma filter_insert_in (l : list A) i x y :
  l !! i = Some x -> P x -> P y ->
  exists l1 l2, filter P l = l1 ++ x :: l2 /\ filter P (<[i:=y]> l) = l1 ++ y :: l2.
Proof.
  intros Hi Hx Hy. exists (filter P (take i l)), (filter P (drop (S i) l)).
  rewrite insert_take_drop by (eapply lookup_lt_Some; eauto).
  rewrite <- (take_drop_middle l i x Hi) at 1.
  rewrite !filter_app, !filter_cons_True by done. done.
Qed.

Lemma filter_insert_out (l : list A) i x y :
  l !! i = Some x -> ~ P x -> ~ P y -> filter P (<[i:=y]> l) = filter P l.
Proof.
  intros Hi Hx Hy.
  rewrite insert_take_drop by (eapply lookup_lt_Some; eauto).
  rewrite <- (take_drop_middle l i x Hi) at 3.
  rewrite !filter_app, !filter_cons_False by done. done.
Qed.
End Lists.

Lemma length_0_nil {A} (l : list A) : length l = 0 -> l = [].
Proof. destruct l; simpl; [done | lia]. Qed.

Lemma limited_mono b t t' : (t <= t')%Q -> limited b t = false -> limited b t' = false.
Proof.
  unfold limited. intros Hle. rewrite !andb_false_iff, !Qltb_ge.
  intros [H|H]; [by left | right; lra].
Qed.

Lemma step_tick_inv st t st' : step st (Tick t) = Some st' -> inv st -> inv st'.
Proof.
  simpl. destruct (Qle_bool (now st) t) eqn:Hle; [|done]. intros [= <-] Hinv k.
  apply Qle_bool_iff in Hle.
  destruct (Hinv k) as (Hb & Hk & Hf & Hl). split; [|split; [|split]]; [|exact Hk|exact Hf|exact Hl].
  unfold bucket_ok in *. simpl. unfold jobs_of, timers_of in *. simpl.
  destruct (buckets st !! k) as [b|]; [|done].
  destruct (isRunning b); [done|]. destruct Hb as (?&?&?&?). eauto using limited_mono.
Qed.

(** a bucket with something in flight or a timer armed is marked running *)
Lemma busy_running k st b :
  bucket_ok k st -> buckets st !! k = Some b ->
  (jobs_of k st <> [] \/ timers_of k st <> []) -> isRunning b = true.
Proof.
  unfold bucket_ok. intros H Hb Hne. rewrite Hb in H.
  destruct (isRunning b); [done|]. destruct H as (?&?&_). destruct Hne; congruence.
Qed.

Lemma busy_bucket k st :
  bucket_ok k st -> (jobs_of k st <> [] \/ timers_of k st <> []) ->
  exists b, buckets st !! k = Some b /\ isRunning b = true /\
            length (jobs_of k st) + length (timers_of k st) = 1.
Proof.
  unfold bucket_ok. intros H Hne.
  destruct (buckets st !! k) as [b|] eqn:Hb.
  - exists b. destruct (isRunning b); [done|]. destruct H as (?&?&_). destruct Hne; congruence.
  - destruct H. destruct Hne; congruence.
Qed.

Lemma job_in_jobs_of st i r : inflight st !! i = Some r -> r ∈ jobs_of (run_key r) st.
Proof. intros H. apply list_elem_of_filter. split; [done|]. eapply list_elem_of_lookup_2; eauto. Qed.

Lemma elem_ne_nil {A} (l : list A) x : x ∈ l -> l <> [].
Proof. intros H ->. inversion H. Qed.

Lemma runBucket_inv k0 st st1 :
  inv st -> (forall k, k <> k0 -> view k st1 = view k st) -> run_pre k0 st1 ->
  inv (runBucket k0 st1).
Proof.
  intros Hinv Hview Hpre k. destruct (decide (k = k0)) as [->|Hne].
  - by apply runBucket_inv_at.
  - apply (inv_at_view k st); [|apply Hinv].
    rewrite runBucket_view_ne by done. symmetry. by apply Hview.
Qed.

Lemma job_done_pre st i r (f : list Settled -> list Settled) :
  inv st -> inflight st !! i = Some r ->
  let st1 := set_inflight (delete i) (set_promises f st) in
  (forall k, k <> run_key r -> view k st1 = view k st) /\ run_pre (run_key r) st1.
Proof.
  intros Hinv Hi st1. split.
  - intros k Hne. unfold view, jobs_of, timers_of, started_of, issued_of. simpl.
    rewrite (filter_delete_out _ _ _ _ Hi) by (intros ?; congruence). done.
  - destruct (Hinv (run_key r)) as (Hb & [Hkq Hkj] & Hf & _).
    pose proof (job_in_jobs_of _ _ _ Hi) as Hin.
    destruct (busy_bucket _ _ Hb) as (b & Hbk & Hrun & Hbusy); [left; eauto using elem_ne_nil|].
    pose proof (filter_delete_in (fun r' => run_key r' = run_key r) (inflight st) i r Hi eq_refl) as Hlen.
    unfold jobs_of, timers_of in Hbusy.
    exists b. repeat split.
    + exact Hbk.
    + apply length_0_nil. unfold jobs_of. simpl. lia.
    + apply length_0_nil. unfold timers_of. simpl. lia.
    + by left.
    + exact Hkq.
    + intros r'. unfold jobs_of. simpl. intros Hr'. apply Hkj. unfold jobs_of.
      apply list_elem_of_filter in Hr' as [? Hr']. apply list_elem_of_filter. split; [done|].
      rewrite delete_take_drop in Hr'. rewrite <- (take_drop_middle _ _ _ Hi).
      apply elem_of_app in Hr' as [?|?]; apply elem_of_app; [by left | right; by right].
    + exact Hf.
Qed.

Lemma timer_done_pre st i t :
  inv st -> timers st !! i = Some t ->
  let st1 := set_timers (delete i) st in
  (forall k, k <> t_key t -> view k st1 = view k st) /\ run_pre (t_key t) st1.
Proof.
  intros Hinv Hi st1. split.
  - intros k Hne. unfold view, jobs_of, timers_of, started_of, issued_of. simpl.
    rewrite (filter_delete_out _ _ _ _ Hi) by (intros ?; congruence). done.
  - destruct (Hinv (t_key t)) as (Hb & [Hkq Hkj] & Hf & _).
    assert (t ∈ timers_of (t_key t) st) as Hin.
    { apply list_elem_of_filter. split; [done|]. eapply list_elem_of_lookup_2; eauto. }
    destruct (busy_bucket _ _ Hb) as (b & Hbk & Hrun & Hbusy); [right; eauto using elem_ne_nil|].
    pose proof (filter_delete_in (fun t' => t_key t' = t_key t) (timers st) i t Hi eq_refl) as Hlen.
    unfold jobs_of, timers_of in Hbusy.
    exists b. repeat split.
    + exact Hbk.
    + apply length_0_nil. unfold jobs_of. simpl. lia.
    + apply length_0_nil. unfold timers_of. simpl. lia.
    + by left.
    + exact Hkq.
    + exact Hkj.
    + exact Hf.
Qed.

Lemma step_timer_inv st i st' : step st (TimerFires i) = Some st' -> inv st -> inv st'.
Proof.
  simpl. destruct (timers st !! i) as [t|] eqn:Hi; [|done]. intros [= <-] Hinv.
  destruct (timer_done_pre st i t Hinv Hi) as [Hv Hp].
  eapply runBucket_inv; eauto.
Qed.

Lemma step_reject_inv st i st' : step st (FetchRejects i) = Some st' -> inv st -> inv st'.
Proof.
  simpl. destruct (inflight st !! i) as [r|] eqn:Hi; [|done].
  destruct (run_phase r); [|done]. intros [= <-] Hinv.
  destruct (job_done_pre st i r (fun ps => ps) Hinv Hi) as [Hv Hp].
  eapply runBucket_inv; eauto.
Qed.

Lemma step_json_inv st i st' : step st (JsonSettles i) = Some st' -> inv st -> inv st'.
Proof.
  simpl. destruct (inflight st !! i) as [r|] eqn:Hi; [|done].
  destruct (run_phase r) as [|res]; [done|]. intros [= <-] Hinv.
  destruct (job_done_pre st i r
    (fun ps => <[c_id (run_fn r) := if negb (ok res) then Rejected (status res) (body_of res)
                                    else Resolved (body_of res)]> ps) Hinv Hi) as [Hv Hp].
  eapply runBucket_inv; eauto.
Qed.

Lemma step_fetch_inv st i res st' : step st (FetchResolves i res) = Some st' -> inv st -> inv st'.
Proof.
  simpl. destruct (inflight st !! i) as [r|] eqn:Hi; [|done].
  destruct (run_phase r) eqn:Hph; [|done]. intros [= <-] Hinv.
  pose proof (job_in_jobs_of _ _ _ Hi) as Hin.
  assert (closure_key (run_fn r) = run_key r) as Hkey.
  { destruct (Hinv (run_key r)) as (_ & [_ Hkj] & _). by apply Hkj. }
  set (r' := {| run_key := run_key r; run_fn := run_fn r; run_phase := AwaitJson res |}).
  intros k. destruct (Hinv k) as (Hb & [Hkq Hkj] & Hf & Hla).
  assert (length (jobs_of k (job_after_fetch i r res st)) = length (jobs_of k st) /\
          forall x, x ∈ jobs_of k (job_after_fetch i r res st) ->
                    exists y, y ∈ jobs_of k st /\ run_fn x = run_fn y) as [Hlen Hsub].
  { unfold job_after_fetch, jobs_of. fold r'. rewrite Hkey.
    assert (forall s, inflight (set_inflight (fun l => <[i:=r']> l) s) = <[i:=r']> (inflight s)) as E by done.
    rewrite E. clear E.
    assert (inflight (match buckets st !! run_key r with
       | Some bucket => set_buckets (insert (run_key r)
           {| resetAt := (default 0%Q (hdr_reset res) * 1000)%Q;
              remaining := default 1%Z (hdr_remaining res);
              queue := queue bucket; isRunning := isRunning bucket |}) st
       | None => st end) = inflight st) as -> by (destruct (buckets st !! run_key r); done).
    destruct (decide (run_key r = k)) as [Hk|Hk].
    - destruct (filter_insert_in (fun x => run_key x = k) (inflight st) i r r' Hi Hk Hk)
        as (l1 & l2 & -> & ->).
      split; [by rewrite !length_app|].
      intros x Hx. apply elem_of_app in Hx as [Hx|Hx].
      + exists x. split; [|done]. apply elem_of_app. by left.
      + apply elem_of_cons in Hx as [->|Hx].
        * exists r. split; [|done]. apply elem_of_app. right. by left.
        * exists x. split; [|done]. apply elem_of_app. right. by right.
    - rewrite (filter_insert_out (fun x => run_key x = k) (inflight st) i r r' Hi Hk Hk).
      split; [done|]. intros x Hx. by exists x. }
  assert (timers_of k (job_after_fetch i r res st) = timers_of k st) as Htm.
  { unfold job_after_fetch, timers_of. simpl. destruct (buckets st !! _); done. }
  assert (started_of k (job_after_fetch i r res st) = started_of k st) as Hst.
  { unfold job_after_fetch, started_of. simpl. destruct (buckets st !! _); done. }
  assert (issued_of k (job_after_fetch i r res st) = issued_of k st) as His.
  { unfold job_after_fetch, issued_of. simpl. destruct (buckets st !! _); done. }
  assert (now (job_after_fetch i r res st) = now st) as Hnow.
  { unfold job_after_fetch. simpl. destruct (buckets st !! _); done. }
  assert (queued_of k (job_after_fetch i r res st) = queued_of k st) as Hqu.
  { unfold job_after_fetch, queued_of. simpl. rewrite Hkey.
    destruct (buckets st !! run_key r) as [b0|] eqn:Hb0; simpl; [|done].
    destruct (decide (k = run_key r)) as [->|Hne].
    - rewrite lookup_insert_eq, Hb0. done.
    - rewrite lookup_insert_ne by done. done. }
  split; [|split; [|split]].
  - unfold bucket_ok in *. rewrite Htm, Hnow.
    destruct (decide (k = run_key r)) as [->|Hne].
    + destruct (busy_bucket _ _ Hb) as (b & Hbk & Hrun & Hbusy); [left; eauto using elem_ne_nil|].
      unfold job_after_fetch at 1. rewrite Hkey, Hbk. simpl. rewrite lookup_insert_eq. simpl.
      rewrite Hrun. lia.
    + assert (buckets (job_after_fetch i r res st) !! k = buckets st !! k) as ->.
      { unfold job_after_fetch. simpl. rewrite Hkey.
        destruct (buckets st !! run_key r); simpl; [|done]. by rewrite lookup_insert_ne. }
      destruct (buckets st !! k) as [b|].
      * destruct (isRunning b); [lia|]. destruct Hb as (Hj&?&?&?). repeat split; try done.
        apply length_0_nil. rewrite Hlen, Hj. done.
      * destruct Hb as [Hj ?]. split; [|done]. apply length_0_nil. rewrite Hlen, Hj. done.
  - split.
    + rewrite Hqu. exact Hkq.
    + intros x Hx. destruct (Hsub x Hx) as (y & Hy & ->). by apply Hkj.
  - unfold fifo, started_fns. rewrite Hst, His, Hqu. exact Hf.
  - intros x Hx. unfold started_fns. rewrite Hst. destruct (Hsub x Hx) as (y & Hy & ->). by apply Hla.
Qed.

Lemma step_request_inv st method route st' :
  step st (Request method route) = Some st' -> inv st -> inv st'.
Proof.
  simpl. intros [= <-] Hinv. unfold request, queueRequest.
  set (k0 := getBucketKey method route).
  set (exec := {| c_id := length (promises st); c_method := method; c_route := route |}).
  set (st0 := {| buckets := buckets st; now := now st; promises := promises st ++ [Pending];
                 issued := issued st ++ [exec]; inflight := inflight st;
                 timers := timers st; started := started st |}).
  set (old := default {| resetAt := 0; remaining := 1; queue := []; isRunning := false |}
                      (buckets st0 !! k0)).
  set (bucket := {| resetAt := resetAt old; remaining := remaining old;
                    queue := queue old ++ [{| fn := exec |}]; isRunning := isRunning old |}).
  set (st1 := set_buckets (insert k0 bucket) st0).
  assert (forall k, k <> k0 -> view k st1 = view k st) as Hview.
  { intros k Hne. unfold view, jobs_of, timers_of, started_of, issued_of. simpl.
    rewrite lookup_insert_ne by done.
    rewrite filter_app, filter_cons_False, filter_nil, app_nil_r; [done|].
    unfold closure_key. simpl. fold k0. congruence. }
  destruct (Hinv k0) as (Hb & [Hkq Hkj] & Hf & Hla).
  assert (keys_ok k0 st1) as Hkeys.
  { split; [|exact Hkj]. unfold queued_of. simpl. rewrite lookup_insert_eq. simpl.
    intros c. rewrite fmap_app. intros Hc. apply elem_of_app in Hc as [Hc|Hc].
    - apply Hkq. unfold queued_of. subst old. simpl in Hc.
      destruct (buckets st !! k0); [done | inversion Hc].
    - apply list_elem_of_singleton in Hc. subst c. done. }
  assert (fifo k0 st1) as Hfifo.
  { unfold fifo, started_fns, queued_of, started_of, issued_of in *. simpl. rewrite lookup_insert_eq. simpl.
    rewrite filter_app, filter_cons_True, filter_nil by done.
    rewrite fmap_app, app_assoc. simpl. f_equal. rewrite <- Hf. f_equal.
    subst old. simpl. destruct (buckets st !! k0); done. }
  destruct (isRunning bucket) eqn:Hrun; simpl.
  - intros k. destruct (decide (k = k0)) as [->|Hne].
    + split; [|split; [|split]]; [|exact Hkeys|exact Hfifo|exact Hla].
      unfold bucket_ok in *. unfold jobs_of, timers_of in *. simpl. rewrite lookup_insert_eq.
      rewrite Hrun. subst bucket old. simpl in Hrun.
      destruct (buckets st !! k0) as [b|]; simpl in Hrun; [|done]. simpl in Hb.
      by rewrite Hrun in Hb.
    + apply (inv_at_view k st); [|apply Hinv]. symmetry. by apply Hview.
  - apply (runBucket_inv k0 st st1 Hinv Hview).
    exists bucket.
    assert (jobs_of k0 st1 = [] /\ timers_of k0 st1 = [] /\
            limited bucket (now st1) = false) as (Hj & Ht & Hl).
    { unfold bucket_ok in Hb. subst bucket old. simpl in *.
      unfold jobs_of, timers_of in *. simpl.
      destruct (buckets st !! k0) as [b|]; simpl in *.
      - rewrite Hrun in Hb. destruct Hb as (?&?&?&Hl). done.
      - destruct Hb. done. }
    split_and!; try done.
    + simpl. apply lookup_insert_eq.
    + by right.
Qed.

Lemma step_inv st e st' : step st e = Some st' -> inv st -> inv st'.
Proof.
  destruct e; eauto using step_request_inv, step_tick_inv, step_fetch_inv,
    step_reject_inv, step_json_inv, step_timer_inv.
Qed.

Lemma init_inv : inv init.
Proof.
  intros k. split; [|split; [|split]].
  - unfold bucket_ok. simpl. rewrite lookup_empty. done.
  - split; unfold queued_of, jobs_of; simpl; [rewrite lookup_empty|]; intros ? H; inversion H.
  - unfold fifo, queued_of. simpl. rewrite lookup_empty. done.
  - intros r H. inversion H.
Qed.

Lemma run_inv evs : forall st st', run st evs = Some st' -> inv st -> inv st'.
Proof.
  induction evs as [|e evs IH]; simpl; intros st st' H Hinv.
  - by injection H as <-.
  - destruct (step st e) as [st1|] eqn:He; [|done]. eauto using step_inv.
Qed.

Lemma reachable_inv st : reachable st -> inv st.
Proof. intros [evs H]. eapply run_inv; eauto using init_inv. Qed.

(** C1.  In every state the scheduler can reach, for every bucket key: at
    most one job of that bucket is in flight (its [fn()] was called and its
    promise has not settled yet); the jobs started from the bucket followed
    by the jobs still queued are exactly the jobs issued for the bucket, in
    issue order (strict FIFO); and the job in flight is the one started
    last, so every job started before it has finished: execution windows
    of one bucket never overlap. *)
Theorem bucket_one_in_flight_fifo (st : State) (k : string) :
  reachable st ->
  length (jobs_of k st) <= 1 /\
  started_fns k st ++ queued_of k st = issued_of k st /\
  (forall r, r ∈ jobs_of k st -> last (started_fns k st) = Some (run_fn r)).
Proof.
  intros Hr. destruct (reachable_inv st Hr k) as (Hb & _ & Hf & Hl).
  split; [|split; [exact Hf | exact Hl]].
  unfold bucket_ok in Hb. destruct (buckets st !! k) as [b|].
  - destruct (isRunning b); [lia|]. destruct Hb as [-> _]. simpl. lia.
  - destruct Hb as [-> _]. simpl. lia.
Qed.

(** C1, at a concrete run: two requests on one route and one on another,
    a response, a clock tick and the retry timer. *)
Lemma bucket_one_in_flight_fifo_witness :
  reachable demo_state /\ length (jobs_of "GET user" demo_state) <= 1.
Proof.
  assert (reachable demo_state) as H by (exists demo_events; vm_compute; reflexivity).
  split; [exact H|]. exact (proj1 (bucket_one_in_flight_fifo demo_state "GET user" H)).
Defined.

Lemma throttled_view k R st st' : view k st = view k st' -> throttled k R st -> throttled k R st'.
Proof.
  unfold view, throttled. intros H. injection H as -> -> -> _ _ _. done.
Qed.

Lemma limited_inv b t :
  limited b t = false <-> (0 < remaining b)%Z \/ (resetAt b <= t)%Q.
Proof.
  unfold limited. rewrite andb_false_iff, Z.leb_gt, Qltb_ge. done.
Qed.

Lemma limited_true b t :
  limited b t = true <-> (remaining b <= 0)%Z /\ (t < resetAt b)%Q.
Proof.
  unfold limited. rewrite andb_true_iff, Z.leb_le, Qltb_lt. done.
Qed.

Lemma runBucket_limited key st b :
  buckets st !! key = Some b -> limited b (now st) = true ->
  runBucket key st =
    set_timers (fun ts => ts ++
      [{| t_key := key; t_delay := (resetAt b - now st)%Q; t_set := now st |}]) st.
Proof. intros Hb Hl. unfold runBucket. by rewrite Hb, Hl. Qed.

Lemma runBucket_pop key st :
  started (runBucket key st) <> started st ->
  exists b job rest,
    buckets st !! key = Some b /\ queue b = job :: rest /\
    ((0 < remaining b)%Z \/ (resetAt b <= now st)%Q) /\
    started (runBucket key st) = started st ++
      [{| s_key := key; s_fn := fn job; s_at := now st; s_bucket := b |}] /\
    inflight (runBucket key st) =
      inflight st ++ [{| run_key := key; run_fn := fn job; run_phase := AwaitFetch |}].
Proof.
  unfold runBucket. destruct (buckets st !! key) as [b|] eqn:Hb; [|done].
  destruct (limited b (now st)) eqn:Hl; [done|].
  destruct (queue b) as [|job rest] eqn:Hq; [done|]. simpl. intros _.
  exists b, job, rest. split_and!; try done. by apply limited_inv.
Qed.

Lemma runBucket_started key st :
  exists new, started (runBucket key st) = started st ++ new /\
              forall x, x ∈ new -> s_key x = key /\ s_at x = now st.
Proof.
  unfold runBucket. destruct (buckets st !! key) as [b|] eqn:Hb.
  2:{ exists []. rewrite app_nil_r. split; [done|]. intros x Hx. inversion Hx. }
  destruct (limited b (now st)).
  { exists []. rewrite app_nil_r. split; [done|]. intros x Hx. inversion Hx. }
  destruct (queue b) as [|job rest].
  { exists []. rewrite app_nil_r. split; [done|]. intros x Hx. inversion Hx. }
  eexists. split; [reflexivity|]. intros x Hx. apply list_elem_of_singleton in Hx. by subst x.
Qed.

Lemma runBucket_now key st : now (runBucket key st) = now st.
Proof.
  unfold runBucket. destruct (buckets st !! key) as [b|]; [|done].
  destruct (limited b (now st)); [done|]. destruct (queue b); done.
Qed.

Lemma step_started st e st' :
  step st e = Some st' ->
  exists new, started st' = started st ++ new /\ forall x, x ∈ new -> s_at x = now st.
Proof.
  destruct e; simpl.
  - intros [= <-]. unfold request, queueRequest.
    match goal with |- context [if ?c then _ else _] => destruct c end.
    + match goal with |- context [runBucket ?k ?s] =>
        destruct (runBucket_started k s) as (new & -> & Hn) end.
      exists new. split; [done|]. intros x Hx. by apply Hn.
    + exists []. rewrite app_nil_r. split; [done|]. intros x Hx. inversion Hx.
  - destruct (Qle_bool _ _); [|done]. intros [= <-].
    exists []. rewrite app_nil_r. split; [done|]. intros x Hx. inversion Hx.
  - destruct (inflight st !! i) as [r|]; [|done]. destruct (run_phase r); [|done].
    intros [= <-]. exists []. rewrite app_nil_r. split; [|intros x Hx; inversion Hx].
    unfold job_after_fetch. simpl. destruct (buckets st !! _); done.
  - destruct (inflight st !! i) as [r|]; [|done]. destruct (run_phase r); [|done].
    intros [= <-]. unfold job_fetch_failed.
    match goal with |- context [runBucket ?k ?s] =>
      destruct (runBucket_started k s) as (new & -> & Hn) end.
    exists new. split; [done|]. intros x Hx. by apply Hn.
  - destruct (inflight st !! i) as [r|]; [|done]. destruct (run_phase r); [done|].
    intros [= <-]. unfold job_after_json.
    match goal with |- context [runBucket ?k ?s] =>
      destruct (runBucket_started k s) as (new & -> & Hn) end.
    exists new. split; [done|]. intros x Hx. by apply Hn.
  - destruct (timers st !! i) as [t|]; [|done]. intros [= <-].
    match goal with |- context [runBucket ?k ?s] =>
      destruct (runBucket_started k s) as (new & -> & Hn) end.
    exists new. split; [done|]. intros x Hx. by apply Hn.
Qed.

Lemma step_now st e st' : step st e = Some st' -> (now st <= now st')%Q.
Proof.
  destruct e; simpl.
  - intros [= <-]. unfold request, queueRequest.
    match goal with |- context [if ?c then _ else _] => destruct c end;
      rewrite ?runBucket_now; simpl; lra.
  - destruct (Qle_bool _ _) eqn:E; [|done]. intros [= <-]. simpl. by apply Qle_bool_iff.
  - destruct (inflight st !! i) as [r|]; [|done]. destruct (run_phase r); [|done].
    intros [= <-]. unfold job_after_fetch. simpl. destruct (buckets st !! _); simpl; lra.
  - destruct (inflight st !! i) as [r|]; [|done]. destruct (run_phase r); [|done].
    intros [= <-]. unfold job_fetch_failed. rewrite runBucket_now. simpl. lra.
  - destruct (inflight st !! i) as [r|]; [|done]. destruct (run_phase r); [done|].
    intros [= <-]. unfold job_after_json. rewrite runBucket_now. simpl. lra.
  - destruct (timers st !! i) as [t|]; [|done]. intros [= <-].
    rewrite runBucket_now. simpl. lra.
Qed.

Lemma request_view_ne k method route st :
  k <> getBucketKey method route -> view k (request method route st) = view k st.
Proof.
  intros Hne. unfold request, queueRequest.
  match goal with |- context [if ?c then _ else _] => destruct c end;
    rewrite ?runBucket_view_ne by done;
    unfold view, jobs_of, timers_of, started_of, issued_of; simpl;
    rewrite lookup_insert_ne by done;
    (rewrite filter_app, filter_cons_False, filter_nil, app_nil_r; [done|]);
    unfold closure_key; simpl; congruence.
Qed.

Lemma fetch_view_ne k i r res st :
  inflight st !! i = Some r -> k <> run_key r -> closure_key (run_fn r) = run_key r ->
  view k (job_after_fetch i r res st) = view k st.
Proof.
  intros Hi Hne Hkey. unfold job_after_fetch. rewrite Hkey.
  unfold view, jobs_of, timers_of, started_of, issued_of; simpl.
  assert (forall s, inflight s = inflight st ->
    filter (fun x => run_key x = k) (<[i:={| run_key := run_key r; run_fn := run_fn r;
                                          run_phase := AwaitJson res |}]> (inflight s)) =
    filter (fun x => run_key x = k) (inflight st)) as E.
  { intros s ->. apply (filter_insert_out (fun x => run_key x = k) _ i r); simpl; congruence. }
  destruct (buckets st !! run_key r); simpl; rewrite E by done; [|done].
  rewrite lookup_insert_ne by done. done.
Qed.

Lemma runBucket_throttled k R st b :
  buckets st !! k = Some b -> (remaining b <= 0)%Z -> resetAt b = R -> isRunning b = true ->
  (now st < R)%Q ->
  (forall r, r ∈ jobs_of k st -> run_phase r <> AwaitFetch) ->
  (forall t, t ∈ timers_of k st -> (t_due t == R)%Q) ->
  throttled k R (runBucket k st) /\ started (runBucket k st) = started st.
Proof.
  intros Hb Hrem HR Hrun Hnow Hj Ht.
  assert (limited b (now st) = true) as Hl by (apply limited_true; subst R; done).
  rewrite (runBucket_limited _ _ _ Hb Hl). split; [|done].
  split; [|split].
  - exists b. done.
  - exact Hj.
  - intros t. unfold timers_of. simpl. rewrite filter_app, filter_cons_True, filter_nil by done.
    intros Hin. apply elem_of_app in Hin as [Hin|Hin]; [by apply Ht|].
    apply list_elem_of_singleton in Hin. subst t. unfold t_due. simpl. subst R. ring.
Qed.

Lemma filter_delete_sub {A} (P : A -> Prop) `{!forall x, Decision (P x)} (l : list A) i x :
  x ∈ filter P (delete i l) -> x ∈ filter P l.
Proof.
  rewrite !list_elem_of_filter. intros [? Hx]. split; [done|].
  rewrite delete_take_drop in Hx.
  rewrite <- (take_drop i l). apply elem_of_app in Hx as [Hx|Hx]; apply elem_of_app; [by left|right].
  rewrite <- (take_drop 1 (drop i l)), drop_drop. apply elem_of_app. right.
  by replace (i + 1) with (S i) by lia.
Qed.

Lemma step_throttled k R st e st' :
  inv st -> throttled k R st -> (now st < R)%Q -> step st e = Some st' ->
  throttled k R st' /\ started_of k st' = started_of k st.
Proof.
  intros Hinv Hth Hnow.
  assert (forall s, view k s = view k st -> throttled k R s /\ started_of k s = started_of k st) as Hview.
  { intros s Hs. split; [apply (throttled_view k R st s); [by symmetry | exact Hth]|].
    unfold view in Hs. injection Hs as _ _ _ H _ _. exact H. }
  destruct Hth as ((b & Hb & Hrem & HR & Hrun) & Hj & Ht).
  destruct e; simpl.
  - intros [= <-]. destruct (decide (k = getBucketKey method route)) as [->|Hne].
    2:{ apply Hview. by apply request_view_ne. }
    unfold request, queueRequest. simpl. rewrite Hb. simpl. rewrite Hrun. simpl.
    split; [|done]. split; [|split]; [|exact Hj|exact Ht].
    eexists. simpl. rewrite lookup_insert_eq. split; [reflexivity|]. done.
  - destruct (Qle_bool _ _); [|done]. intros [= <-]. split; [|done].
    split; [|split]; [|exact Hj|exact Ht]. exists b. done.
  - destruct (inflight st !! i) as [r|] eqn:Hi; [|done]. destruct (run_phase r) eqn:Hph; [|done].
    intros [= <-]. pose proof (job_in_jobs_of _ _ _ Hi) as Hin.
    assert (k <> run_key r) as Hne by (intros ->; by apply (Hj r)).
    apply Hview. apply fetch_view_ne; [done|done|].
    destruct (Hinv (run_key r)) as (_ & [_ Hkj] & _). by apply Hkj.
  - destruct (inflight st !! i) as [r|] eqn:Hi; [|done]. destruct (run_phase r) eqn:Hph; [|done].
    intros [= <-]. pose proof (job_in_jobs_of _ _ _ Hi) as Hin.
    assert (k <> run_key r) as Hne by (intros ->; by apply (Hj r)).
    apply Hview. unfold job_fetch_failed. rewrite runBucket_view_ne by done.
    by apply (job_done_pre st i r (fun ps => ps) Hinv Hi).
  - destruct (inflight st !! i) as [r|] eqn:Hi; [|done].
    destruct (run_phase r) as [|res] eqn:Hph; [done|].
    intros [= <-]. unfold job_after_json.
    destruct (decide (k = run_key r)) as [->|Hne].
    + match goal with |- context [runBucket _ ?s] =>
        destruct (runBucket_throttled (run_key r) R s b) as [H1 H2] end; try done.
      * intros r'. unfold jobs_of. simpl. intros Hr'. apply Hj. eapply filter_delete_sub; eauto.
      * split; [done|]. unfold started_of. by rewrite H2.
    + apply Hview. rewrite runBucket_view_ne by done.
      by apply (job_done_pre st i r _ Hinv Hi).
  - destruct (timers st !! i) as [t|] eqn:Hi; [|done]. intros [= <-].
    destruct (decide (k = t_key t)) as [->|Hne].
    + match goal with |- context [runBucket _ ?s] =>
        destruct (runBucket_throttled (t_key t) R s b) as [H1 H2] end; try done.
      * intros t'. unfold timers_of. simpl. intros Ht'. apply Ht. eapply filter_delete_sub; eauto.
      * split; [done|]. unfold started_of. by rewrite H2.
    + apply Hview. rewrite runBucket_view_ne by done.
      by apply (timer_done_pre st i t Hinv Hi).
Qed.

Lemma runBucket_guarded key st :
  Forall guarded (started st) -> Forall guarded (started (runBucket key st)).
Proof.
  intros H. unfold runBucket. destruct (buckets st !! key) as [b|]; [|done].
  destruct (limited b (now st)) eqn:Hl; [done|]. destruct (queue b); [done|]. simpl.
  apply Forall_app. split; [done|]. apply Forall_singleton. by apply limited_inv.
Qed.

Lemma step_guarded st e st' :
  step st e = Some st' -> Forall guarded (started st) -> Forall guarded (started st').
Proof.
  destruct e; simpl.
  - intros [= <-] H. unfold request, queueRequest.
    match goal with |- context [if ?c then _ else _] => destruct c end; [|done].
    by apply runBucket_guarded.
  - destruct (Qle_bool _ _); [|done]. by intros [= <-].
  - destruct (inflight st !! i) as [r|]; [|done]. destruct (run_phase r); [|done].
    intros [= <-]. unfold job_after_fetch. simpl. destruct (buckets st !! _); done.
  - destruct (inflight st !! i) as [r|]; [|done]. destruct (run_phase r); [|done].
    intros [= <-] H. by apply runBucket_guarded.
  - destruct (inflight st !! i) as [r|]; [|done]. destruct (run_phase r); [done|].
    intros [= <-] H. by apply runBucket_guarded.
  - destruct (timers st !! i) as [t|]; [|done]. intros [= <-] H. by apply runBucket_guarded.
Qed.

Lemma reachable_guarded st : reachable st -> Forall guarded (started st).
Proof.
  intros [evs H]. revert H. generalize init (List.Forall_nil guarded : Forall guarded (started init)).
  induction evs as [|e evs IH]; simpl; intros s Hs H.
  - by injection H as <-.
  - destruct (step s e) as [s1|] eqn:He; [|done]. eauto using step_guarded.
Qed.

Lemma run_throttled k R evs : forall st st',
  inv st -> throttled k R st \/ (R <= now st)%Q -> run st evs = Some st' ->
  (throttled k R st' \/ (R <= now st')%Q) /\
  exists new, started st' = started st ++ new /\
              forall x, x ∈ new -> s_key x = k -> (R <= s_at x)%Q.
Proof.
  induction evs as [|e evs IH]; simpl; intros st st' Hinv Hth H.
  - injection H as <-. split; [done|]. exists []. rewrite app_nil_r. split; [done|].
    intros x Hx. inversion Hx.
  - destruct (step st e) as [s1|] eqn:He; [|done].
    pose proof (step_inv _ _ _ He Hinv) as Hinv1.
    pose proof (step_now _ _ _ He) as Hmono.
    destruct (step_started _ _ _ He) as (new1 & Hnew1 & Hstamp).
    assert ((throttled k R s1 \/ (R <= now s1)%Q) /\
            forall x, x ∈ new1 -> s_key x = k -> (R <= s_at x)%Q) as [Hth1 Hnew1k].
    { destruct (Qlt_le_dec (now st) R) as [Hlt|Hge].
      - destruct Hth as [Hth|Hge]; [|lra].
        destruct (step_throttled k R st e s1 Hinv Hth Hlt He) as [Hth1 Hsame].
        split; [by left|]. intros x Hx Hk. exfalso.
        unfold started_of in Hsame. rewrite Hnew1, filter_app in Hsame.
        assert (filter (fun x => s_key x = k) new1 = []) as Hnil.
        { apply (app_inv_head (filter (fun x => s_key x = k) (started st))).
          by rewrite app_nil_r. }
        assert (x ∈ filter (fun x => s_key x = k) new1) as Hin by (by apply list_elem_of_filter).
        rewrite Hnil in Hin. inversion Hin.
      - split; [right; lra|]. intros x Hx _. rewrite (Hstamp x Hx). done. }
    destruct (IH s1 st' Hinv1 Hth1 H) as (Hth' & new2 & Hnew2 & Hnew2k).
    split; [done|]. exists (new1 ++ new2). rewrite Hnew2, Hnew1, app_assoc. split; [done|].
    intros x Hx Hk. apply elem_of_app in Hx as [Hx|Hx]; eauto.
Qed.

Lemma fetch_throttles st i r res n reset :
  inv st -> inflight st !! i = Some r ->
  hdr_remaining res = Some n -> (n <= 0)%Z -> hdr_reset res = Some reset ->
  throttled (run_key r) (reset * 1000) (job_after_fetch i r res st).
Proof.
  intros Hinv Hi Hrem Hn Hreset.
  pose proof (job_in_jobs_of _ _ _ Hi) as Hin.
  destruct (Hinv (run_key r)) as (Hb & [_ Hkj] & _).
  assert (closure_key (run_fn r) = run_key r) as Hkey by (by apply Hkj).
  destruct (busy_bucket _ _ Hb) as (b & Hbk & Hrun & Hbusy); [left; eauto using elem_ne_nil|].
  set (r' := {| run_key := run_key r; run_fn := run_fn r; run_phase := AwaitJson res |}).
  destruct (filter_insert_in (fun x => run_key x = run_key r) (inflight st) i r r' Hi eq_refl eq_refl)
    as (l1 & l2 & E1 & E2).
  unfold jobs_of, timers_of in Hbusy. rewrite E1, length_app in Hbusy. simpl in Hbusy.
  assert (l1 = [] /\ l2 = [] /\ filter (fun t => t_key t = run_key r) (timers st) = [])
    as (-> & -> & Ht) by (split_and!; apply length_0_nil; lia).
  unfold job_after_fetch. fold r'. rewrite Hkey, Hbk, Hrem, Hreset. simpl.
  split; [|split].
  - eexists. simpl. rewrite lookup_insert_eq. split; [reflexivity|]. done.
  - intros x. unfold jobs_of. simpl. rewrite E2. simpl. intros Hx.
    apply list_elem_of_singleton in Hx. by subst x.
  - intros t. unfold timers_of. simpl. rewrite Ht. intros Hx. inversion Hx.
Qed.

(** C2.  In every reachable state, every job that was started was popped
    by [runBucket] when [remaining > 0] or [now >= resetAt] held for its
    bucket ([guarded]).  Moreover, when a response reports [remaining = 0]
    and a reset time still in the future, every job of that bucket started
    afterwards starts at or after that reset time; and as long as the reset
    time has not come, once the answered job has returned, exactly one
    timer is armed for the bucket and it is due at the reset time. *)
Theorem bucket_waits_for_reset (st : State) :
  reachable st ->
  Forall guarded (started st) /\
  forall i r res reset st1,
    inflight st !! i = Some r ->
    hdr_remaining res = Some 0%Z -> hdr_reset res = Some reset ->
    (now st < reset * 1000)%Q ->
    step st (FetchResolves i res) = Some st1 ->
    forall evs st2, run st1 evs = Some st2 ->
      (exists new, started st2 = started st1 ++ new /\
         forall x, x ∈ new -> s_key x = run_key r -> (reset * 1000 <= s_at x)%Q) /\
      ((now st2 < reset * 1000)%Q -> jobs_of (run_key r) st2 = [] ->
         exists t, timers_of (run_key r) st2 = [t] /\ (t_due t == reset * 1000)%Q).
Proof.
  intros Hr. split; [by apply reachable_guarded|].
  intros i r res reset st1 Hi Hrem Hreset Hnow Hstep evs st2 Hrun.
  pose proof (reachable_inv _ Hr) as Hinv.
  pose proof (step_inv _ _ _ Hstep Hinv) as Hinv1.
  simpl in Hstep. rewrite Hi in Hstep. destruct (run_phase r) eqn:Hph; [|done].
  injection Hstep as <-.
  pose proof (fetch_throttles st i r res 0 reset Hinv Hi Hrem (Z.le_refl 0) Hreset) as Hth.
  destruct (run_throttled (run_key r) (reset * 1000) evs _ st2 Hinv1 (or_introl Hth) Hrun)
    as (Hth2 & Hnew).
  split; [exact Hnew|]. intros Hlt Hnojob.
  destruct Hth2 as [Hth2|Hge]; [|lra].
  destruct Hth2 as ((b & Hb & _ & _ & Hrunning) & _ & Ht).
  assert (inv st2) as Hinv2 by (eapply run_inv; eauto).
  destruct (Hinv2 (run_key r)) as (Hok & _).
  unfold bucket_ok in Hok. rewrite Hb, Hrunning, Hnojob in Hok. simpl in Hok.
  destruct (timers_of (run_key r) st2) as [|t [|t' ts]] eqn:Hts; simpl in Hok; try lia.
  exists t. split; [done|]. apply Ht. by left.
Qed.

(** C2, at a concrete run: the first of two queued requests is answered
    with remaining 0 and reset 5 s; at 4000 ms nothing more has started and
    the retry is due at 5000 ms. *)
Lemma bucket_waits_for_reset_witness :
  reachable quota_before /\
  started quota_after = started quota_before /\
  exists t, timers_of "GET user" quota_after = [t] /\ (t_due t == 5 * 1000)%Q.
Proof.
  assert (reachable quota_before) as Hr
    by (exists [Tick 1000; Request GET "user"; Request GET "user"]; vm_compute; reflexivity).
  split; [exact Hr|]. split; [vm_compute; reflexivity|].
  refine (proj2 (proj2 (bucket_waits_for_reset quota_before Hr) 0
    {| run_key := "GET user";
       run_fn := {| c_id := 0; c_method := GET; c_route := "user" |};
       run_phase := AwaitFetch |}
    quota_response 5%Q
    (default init (step quota_before (FetchResolves 0 quota_response)))
    _ _ _ _ _ [JsonSettles 0; Tick 4000] quota_after _) _ _);
    vm_compute; reflexivity.
Defined.

Lemma runBucket_stranded n key st : stranded n st -> stranded n (runBucket key st).
Proof.
  intros (Hp & Hi & Hq). unfold runBucket.
  destruct (buckets st !! key) as [b|] eqn:Hb; [|done].
  destruct (limited b (now st)); [done|].
  pose proof (Hq key b Hb) as Hqb.
  destruct (queue b) as [|job rest] eqn:Hqe.
  - split_and!; [done|done|]. simpl. intros k b'.
    destruct (decide (key = k)) as [->|Hne].
    + rewrite lookup_insert_eq. intros [= <-]. simpl. constructor.
    + rewrite lookup_insert_ne by done. apply Hq.
  - inversion Hqb; subst. split_and!; [done| |]; simpl.
    + apply Forall_app. split; [done|]. by apply Forall_singleton.
    + intros k b'. destruct (decide (key = k)) as [->|Hne].
      * rewrite lookup_insert_eq. intros [= <-]. done.
      * rewrite lookup_insert_ne by done. apply Hq.
Qed.

Lemma Forall_delete_list {A} (P : A -> Prop) (l : list A) i : Forall P l -> Forall P (delete i l).
Proof.
  intros H. rewrite delete_take_drop. apply Forall_app. split.
  - by apply Forall_take.
  - by apply Forall_drop.
Qed.

Lemma step_stranded n st e st' : step st e = Some st' -> stranded n st -> stranded n st'.
Proof.
  destruct e; simpl.
  - intros [= <-] (Hp & Hi & Hq). unfold request, queueRequest.
    assert (n < length (promises st)) as Hlt by (eapply lookup_lt_Some; eauto).
    match goal with |- context [if _ then runBucket ?k ?s else _] =>
      assert (stranded n s) as Hs end.
    { split_and!; simpl.
      - by rewrite lookup_app_l.
      - done.
      - intros k b. destruct (decide (getBucketKey method route = k)) as [<-|Hne].
        + rewrite lookup_insert_eq. intros [= <-]. simpl. apply Forall_app. split.
          * destruct (buckets st !! getBucketKey method route) as [b0|] eqn:Hb0; simpl; [eauto|constructor].
          * apply Forall_singleton. simpl. lia.
        + rewrite lookup_insert_ne by done. apply Hq. }
    match goal with |- context [if ?c then _ else _] => destruct c end; [|done].
    by apply runBucket_stranded.
  - destruct (Qle_bool _ _); [|done]. by intros [= <-].
  - destruct (inflight st !! i) as [r|] eqn:Hi; [|done]. destruct (run_phase r); [|done].
    intros [= <-] (Hp & Hfl & Hq). unfold job_after_fetch.
    assert (c_id (run_fn r) <> n) as Hr.
    { rewrite Forall_forall in Hfl. apply Hfl. eapply list_elem_of_lookup_2; eauto. }
    destruct (buckets st !! closure_key (run_fn r)) as [b0|] eqn:Hb0; split_and!; simpl; try done.
    + by apply Forall_insert.
    + intros k b. destruct (decide (closure_key (run_fn r) = k)) as [<-|Hne].
      * rewrite lookup_insert_eq. intros [= <-]. simpl. eauto.
      * rewrite lookup_insert_ne by done. apply Hq.
    + by apply Forall_insert.
  - destruct (inflight st !! i) as [r|] eqn:Hi; [|done]. destruct (run_phase r); [|done].
    intros [= <-] (Hp & Hfl & Hq). apply runBucket_stranded.
    split_and!; simpl; [done| |done]. by apply Forall_delete_list.
  - destruct (inflight st !! i) as [r|] eqn:Hi; [|done]. destruct (run_phase r); [done|].
    intros [= <-] (Hp & Hfl & Hq). apply runBucket_stranded.
    assert (c_id (run_fn r) <> n) as Hr.
    { rewrite Forall_forall in Hfl. apply Hfl. eapply list_elem_of_lookup_2; eauto. }
    split_and!; simpl; [|by apply Forall_delete_list|done].
    by rewrite list_lookup_insert_ne.
  - destruct (timers st !! i) as [t|]; [|done]. intros [= <-] H.
    by apply runBucket_stranded.
Qed.

Lemma run_stranded n evs : forall st st', run st evs = Some st' -> stranded n st -> stranded n st'.
Proof.
  induction evs as [|e evs IH]; simpl; intros st st' H Hs.
  - by injection H as <-.
  - destruct (step st e) as [s1|] eqn:He; [|done]. eauto using step_stranded.
Qed.

Lemma live_same c st st' :
  issued st' = issued st -> promises st' = promises st -> live c st -> live c st'.
Proof. unfold live. by intros -> ->. Qed.

Lemma runBucket_issued key st : issued (runBucket key st) = issued st.
Proof.
  unfold runBucket. destruct (buckets st !! key) as [b|]; [|done].
  destruct (limited b (now st)); [done|]. destruct (queue b); done.
Qed.

Lemma runBucket_ids key st : ids_ok st -> ids_ok (runBucket key st).
Proof.
  intros (Hlen & Hid & Hfl & Hq). unfold runBucket.
  destruct (buckets st !! key) as [b|] eqn:Hb; [|done].
  destruct (limited b (now st)); [done|].
  pose proof (Hq key b Hb) as Hqb.
  destruct (queue b) as [|job rest] eqn:Hqe.
  - split_and!; try done. simpl. intros k b'.
    destruct (decide (key = k)) as [->|Hne].
    + rewrite lookup_insert_eq. intros [= <-]. constructor.
    + rewrite lookup_insert_ne by done. apply Hq.
  - inversion Hqb; subst. split_and!; try done; simpl.
    + apply Forall_app. split; [done|]. by apply Forall_singleton.
    + intros k b'. destruct (decide (key = k)) as [->|Hne].
      * rewrite lookup_insert_eq. intros [= <-]. done.
      * rewrite lookup_insert_ne by done. apply Hq.
Qed.

Lemma ids_NoDup st : ids_ok st -> NoDup (issued st).
Proof.
  intros (_ & Hid & _). apply NoDup_alt. intros i j c Hi Hj.
  rewrite <- (Hid i c Hi). by apply Hid.
Qed.

(** Two calls in flight never share a promise. *)
Lemma inflight_distinct st i r r' :
  inv st -> ids_ok st -> inflight st !! i = Some r -> r' ∈ delete i (inflight st) ->
  c_id (run_fn r') <> c_id (run_fn r).
Proof.
  intros Hinv (_ & _ & Hfl & _) Hi Hr' Heq.
  rewrite Forall_forall in Hfl.
  assert (r ∈ inflight st) as Hin by (eapply list_elem_of_lookup_2; eauto).
  assert (r' ∈ inflight st) as Hin'.
  { rewrite delete_take_drop in Hr'. rewrite <- (take_drop_middle _ _ _ Hi).
    apply elem_of_app in Hr' as [?|?]; apply elem_of_app; [by left | right; by right]. }
  destruct (Hfl r Hin) as [Hr _]. destruct (Hfl r' Hin') as [Hr2 _].
  rewrite Heq, Hr in Hr2. injection Hr2 as Hfn.
  destruct (Hinv (run_key r)) as (Hb & [_ Hkj] & _).
  destruct (Hinv (run_key r')) as (_ & [_ Hkj'] & _).
  assert (run_key r' = run_key r) as Hk.
  { rewrite <- (Hkj r), <- (Hkj' r'), Hfn; [done| |]; by apply list_elem_of_filter. }
  pose proof (filter_delete_in (fun x => run_key x = run_key r) (inflight st) i r Hi eq_refl) as Hlen.
  assert (r' ∈ filter (fun x => run_key x = run_key r) (delete i (inflight st))) as Hf
    by (by apply list_elem_of_filter).
  assert (length (jobs_of (run_key r) st) <= 1) as Hle.
  { unfold bucket_ok in Hb. destruct (buckets st !! run_key r) as [b|].
    - destruct (isRunning b); [lia|]. destruct Hb as [-> _]. simpl. lia.
    - destruct Hb as [-> _]. simpl. lia. }
  unfold jobs_of in Hle. rewrite Hlen in Hle.
  destruct (filter _ (delete i (inflight st))); [inversion Hf | simpl in Hle; lia].
Qed.

(** A call in flight and a queued job never share a promise. *)
Lemma queued_distinct st i r k b j :
  inv st -> ids_ok st -> inflight st !! i = Some r ->
  buckets st !! k = Some b -> j ∈ queue b ->
  c_id (fn j) <> c_id (run_fn r).
Proof.
  intros Hinv Hids Hi Hb Hj Heq.
  pose proof (ids_NoDup st Hids) as Hnd.
  destruct Hids as (_ & _ & Hfl & Hq).
  rewrite Forall_forall in Hfl.
  assert (r ∈ inflight st) as Hin by (eapply list_elem_of_lookup_2; eauto).
  destruct (Hfl r Hin) as [Hr _].
  pose proof (Hq k b Hb) as Hqb. rewrite Forall_forall in Hqb.
  destruct (Hqb j Hj) as [Hj' _].
  rewrite Heq, Hr in Hj'. injection Hj' as Hfn.
  destruct (Hinv k) as (_ & [Hkq _] & Hfifo & _).
  assert (fn j ∈ queued_of k st) as Hjq.
  { unfold queued_of. rewrite Hb. apply list_elem_of_fmap. eauto. }
  assert (run_key r = k) as Hk.
  { destruct (Hinv (run_key r)) as (_ & [_ Hkj] & _).
    rewrite <- (Hkj r) by (by apply list_elem_of_filter). rewrite Hfn. by apply Hkq. }
  destruct (Hinv k) as (_ & _ & _ & Hlatest).
  assert (last (started_fns k st) = Some (run_fn r)) as Hlast
    by (apply Hlatest; apply list_elem_of_filter; done).
  assert (run_fn r ∈ started_fns k st) as Hrs.
  { destruct (started_fns k st) as [|c l] using rev_ind; [done|].
    rewrite last_snoc in Hlast. injection Hlast as ->. apply elem_of_app. right. by left. }
  assert (NoDup (started_fns k st ++ queued_of k st)) as Hnd'.
  { unfold fifo in Hfifo. rewrite Hfifo. unfold issued_of. by apply NoDup_filter. }
  apply NoDup_app in Hnd' as (_ & Hdisj & _).
  apply (Hdisj (run_fn r) Hrs). by rewrite Hfn.
Qed.

Lemma live_lookup_lt c st : live c st -> c_id c < length (promises st).
Proof. intros [_ H]. eapply lookup_lt_Some; eauto. Qed.

Lemma step_ids st e st' : inv st -> ids_ok st -> step st e = Some st' -> ids_ok st'.
Proof.
  intros Hinv Hids. pose proof Hids as (Hlen & Hid & Hfl & Hq).
  destruct e as [method route|t|i res|i|i|i]; simpl.
  - intros [= <-]. unfold request, queueRequest.
    set (exec := {| c_id := length (promises st); c_method := method; c_route := route |}).
    set (st0 := {| buckets := buckets st; now := now st; promises := promises st ++ [Pending];
                   issued := issued st ++ [exec]; inflight := inflight st;
                   timers := timers st; started := started st |}).
    assert (forall c, live c st -> live c st0) as Hlive.
    { intros c [H1 H2]. split; simpl.
      - rewrite lookup_app_l; [done|]. eapply lookup_lt_Some; eauto.
      - rewrite lookup_app_l; [done|]. eapply lookup_lt_Some; eauto. }
    assert (live exec st0) as Hexec.
    { split; simpl.
      - rewrite Hlen. by rewrite lookup_app_r, Nat.sub_diag.
      - by rewrite lookup_app_r, Nat.sub_diag. }
    match goal with |- ids_ok (if _ then runBucket ?k ?s else _) => assert (ids_ok s) as Hs end.
    { split_and!; simpl.
      - rewrite !length_app. simpl. lia.
      - intros n c Hn. apply lookup_app_Some in Hn as [Hn|[Hge Hn]]; [eauto|].
        destruct (n - length (issued st)) as [|m] eqn:E; simpl in Hn; [|done].
        injection Hn as <-. simpl. lia.
      - eapply Forall_impl; [exact Hfl|]. intros r Hr. by apply Hlive.
      - intros k b. destruct (decide (getBucketKey method route = k)) as [<-|Hne].
        + rewrite lookup_insert_eq. intros [= <-]. simpl. apply Forall_app. split.
          * destruct (buckets st !! getBucketKey method route) as [b0|] eqn:Hb0; simpl; [|constructor].
            eapply Forall_impl; [exact (Hq _ _ Hb0)|]. intros j Hj. by apply Hlive.
          * by apply Forall_singleton.
        + rewrite lookup_insert_ne by done. intros Hb.
          eapply Forall_impl; [exact (Hq _ _ Hb)|]. intros j Hj. by apply Hlive. }
    match goal with |- context [if ?c then _ else _] => destruct c end; [|done].
    by apply runBucket_ids.
  - destruct (Qle_bool _ _); [|done]. by intros [= <-].
  - destruct (inflight st !! i) as [r|] eqn:Hi; [|done]. destruct (run_phase r); [|done].
    intros [= <-]. unfold job_after_fetch.
    assert (live (run_fn r) st) as Hr.
    { rewrite Forall_forall in Hfl. apply Hfl. eapply list_elem_of_lookup_2; eauto. }
    destruct (buckets st !! closure_key (run_fn r)) as [b0|] eqn:Hb0; split_and!; simpl; try done.
    + apply Forall_insert; [|done]. eapply Forall_impl; [exact Hfl|]. by intros r' Hr'.
    + intros k b. destruct (decide (closure_key (run_fn r) = k)) as [<-|Hne].
      * rewrite lookup_insert_eq. intros [= <-]. simpl.
        eapply Forall_impl; [exact (Hq _ _ Hb0)|]. by intros j Hj.
      * rewrite lookup_insert_ne by done. intros Hb.
        eapply Forall_impl; [exact (Hq _ _ Hb)|]. by intros j Hj.
    + by apply Forall_insert.
  - destruct (inflight st !! i) as [r|] eqn:Hi; [|done]. destruct (run_phase r); [|done].
    intros [= <-]. apply runBucket_ids.
    split_and!; simpl; try done.
    eapply Forall_impl; [apply Forall_delete_list; exact Hfl|]. by intros r' Hr'.
  - destruct (inflight st !! i) as [r|] eqn:Hi; [|done]. destruct (run_phase r) as [|res']; [done|].
    intros [= <-]. apply runBucket_ids.
    assert (forall c, live c st -> c_id c <> c_id (run_fn r) ->
      live c (set_inflight (delete i) (set_promises (fun ps =>
        <[c_id (run_fn r) := if negb (ok res') then Rejected (status res') (body_of res')
                             else Resolved (body_of res')]> ps) st))) as Hlive.
    { intros c [H1 H2] Hne. split; simpl; [done|]. by rewrite list_lookup_insert_ne. }
    split_and!; simpl.
    + by rewrite length_insert.
    + done.
    + apply Forall_forall. intros r' Hr'. apply Hlive.
      * rewrite Forall_forall in Hfl. apply Hfl.
        rewrite delete_take_drop in Hr'. rewrite <- (take_drop_middle _ _ _ Hi).
        apply elem_of_app in Hr' as [?|?]; apply elem_of_app; [by left | right; by right].
      * by apply (inflight_distinct st i).
    + intros k b Hb. apply Forall_forall. intros j Hj. apply Hlive.
      * pose proof (Hq k b Hb) as Hqb. rewrite Forall_forall in Hqb. by apply Hqb.
      * by apply (queued_distinct st i r k b).
  - destruct (timers st !! i) as [t|]; [|done]. intros [= <-].
    by apply runBucket_ids.
Qed.

Lemma init_ids : ids_ok init.
Proof.
  split_and!; simpl; done.
Qed.

Lemma reachable_ids st : reachable st -> ids_ok st.
Proof.
  intros [evs H].
  assert (inv init /\ ids_ok init) as H0 by (split; [apply init_inv | apply init_ids]).
  revert H. generalize init H0. induction evs as [|e evs IH]; simpl; intros s [Hi Hd] H.
  - by injection H as <-.
  - destruct (step s e) as [s1|] eqn:He; [|done].
    apply (IH s1); [|done]. split; [eapply step_inv; eauto | eapply step_ids; eauto].
Qed.

(** C8, the failing input in general.  Whenever [fetch] rejects for a job
    in flight (DNS failure, connection reset), in any state the scheduler
    can reach, the promise [request] returned to that caller is still
    pending after any further events: it is never rejected.  (The bucket
    does advance: [job_fetch_failed] calls [runBucket].) *)
Theorem transport_failure_strands_caller (st : State) (i : nat) (r : Running) (st1 : State) :
  reachable st -> inflight st !! i = Some r ->
  step st (FetchRejects i) = Some st1 ->
  forall evs st2, run st1 evs = Some st2 ->
    promises st2 !! c_id (run_fn r) = Some Pending.
Proof.
  intros Hr Hi Hstep evs st2 Hrun.
  pose proof (reachable_inv st Hr) as Hinv.
  pose proof (reachable_ids st Hr) as Hids.
  simpl in Hstep. rewrite Hi in Hstep. destruct (run_phase r); [|done].
  injection Hstep as <-.
  assert (stranded (c_id (run_fn r)) (job_fetch_failed i r st)) as Hs.
  { apply runBucket_stranded. split_and!; simpl.
    - destruct Hids as (_ & _ & Hfl & _). rewrite Forall_forall in Hfl.
      apply Hfl. eapply list_elem_of_lookup_2; eauto.
    - apply Forall_forall. intros r' Hr'. by apply (inflight_distinct st i).
    - intros k b Hb. apply Forall_forall. intros j Hj.
      by apply (queued_distinct st i r k b). }
  by destruct (run_stranded _ evs _ _ Hrun Hs).
Qed.

(** C8, at a concrete run: one request whose [fetch] rejects, then a clock
    tick and another request. *)
Lemma transport_failure_strands_caller_witness :
  run init [Request GET "user"; FetchRejects 0] = Some failed_transport /\
  inflight failed_transport = [] /\ timers failed_transport = [] /\
  exists st2,
    run failed_transport [Tick 60000; Request GET "user"] = Some st2 /\
    promises st2 !! 0 = Some Pending.
Proof.
  split_and!; try (vm_compute; reflexivity).
  eexists. split; [vm_compute; reflexivity|].
  refine (transport_failure_strands_caller
    (default init (run init [Request GET "user"])) 0
    {| run_key := "GET user";
       run_fn := {| c_id := 0; c_method := GET; c_route := "user" |};
       run_phase := AwaitFetch |}
    failed_transport _ _ _ [Tick 60000; Request GET "user"] _ _).
  - exists [Request GET "user"]. vm_compute. reflexivity.
  - vm_compute. reflexivity.
  - vm_compute. reflexivity.
  - vm_compute. reflexivity.
Defined.

(** ** Responses that are not a success *)

Lemma runBucket_promises key st : promises (runBucket key st) = promises st.
Proof.
  unfold runBucket. destruct (buckets st !! key) as [b|]; [|done].
  destruct (limited b (now st)); [done|]. destruct (queue b); done.
Qed.

(** A response settles the caller's promise: resolved with the body on
    success, rejected with the status and the body otherwise. *)
Lemma response_settles_caller st i r res st' :
  reachable st ->
  inflight st !! i = Some r -> run_phase r = AwaitJson res ->
  step st (JsonSettles i) = Some st' ->
  promises st' !! c_id (run_fn r) =
    Some (if ok res then Resolved (body_of res) else Rejected (status res) (body_of res)).
Proof.
  intros Hreach Hi Hph.
  assert (c_id (run_fn r) < length (promises st)) as Hlt.
  { destruct (reachable_ids st Hreach) as (_ & _ & Hfl & _). rewrite Forall_forall in Hfl.
    apply live_lookup_lt, Hfl. eapply list_elem_of_lookup_2; eauto. }
  simpl. rewrite Hi, Hph. intros [= <-].
  unfold job_after_json. rewrite runBucket_promises. simpl.
  rewrite list_lookup_insert_eq by done. by destruct (ok res).
Qed.

(** ** The model on small runs *)

Example getBucketKey_GET_user : getBucketKey GET "user" = "GET user".
Proof. reflexivity. Qed.

(** Three requests on one route at 1000 ms.  The first answer leaves one
    call in the quota, so the second job starts as soon as the first
    returns; the second answer leaves none until 6000 ms, so the third job
    starts when the retry timer fires after that. *)
Example three_requests_one_route :
  let more := {| ok := true; status := 200; hdr_remaining := Some 1%Z;
                 hdr_reset := Some 6%Q; json := None |} in
  let none := {| ok := true; status := 200; hdr_remaining := Some 0%Z;
                 hdr_reset := Some 6%Q; json := None |} in
  (fun st => (c_id <$> (s_fn <$> started st), s_at <$> started st)) <$>
    run init [Tick 1000; Request GET "user"; Request GET "user"; Request GET "user";
              FetchResolves 0 more; JsonSettles 0;
              FetchResolves 0 none; JsonSettles 0;
              Tick 6000; TimerFires 0]
  = Some ([0; 1; 2], [1000%Q; 1000%Q; 6000%Q]).
Proof. vm_compute. reflexivity. Qed.

(** A 404 rejects the caller with the status and the body. *)
Example not_found_rejects :
  let res := {| ok := false; status := 404; hdr_remaining := None; hdr_reset := None;
                json := Some "{ message: Unknown User }" |} in
  promises <$> run init [Request GET "user"; FetchResolves 0 res; JsonSettles 0]
  = Some [Rejected 404 (Data "{ message: Unknown User }")].
Proof. vm_compute. reflexivity. Qed.

End RestProofs.

Module SocketProofs.
Import Socket.

(** C9 as stated fails: with [warns] unset the second [listen] for the
    same event adds nothing to the log. *)
Lemma listen_replaces_silently :
  let w := listen "MESSAGE_CREATE" 1 (init quiet) in
  events (self w) !! "MESSAGE_CREATE" = Some 1 /\
  trace (listen "MESSAGE_CREATE" 2 w) = trace w.
Proof. vm_compute. split; reflexivity. Qed.

Lemma since_app w w' l : trace w' = trace w ++ l -> since w w' = l.
Proof. unfold since. intros ->. by rewrite drop_app_length. Qed.

Lemma trace_emit_if c e w : trace (emit_if c e w) = trace w ++ (if c then [e] else []).
Proof. destruct c; simpl; [done | by rewrite app_nil_r]. Qed.

Lemma self_emit_if c e w : self (emit_if c e w) = self w.
Proof. by destruct c. Qed.


Lemma starts_emit_if c e w : starts (emit_if c e w) = starts w.
Proof. by destruct c. Qed.

Lemma reconnects_emit_if c e w : reconnects (emit_if c e w) = reconnects w.
Proof. by destruct c. Qed.

Lemma sockets_emit_if c e w : sockets (emit_if c e w) = sockets w.
Proof. by destruct c. Qed.

Lemma destroys_emit_if c e w : destroys (emit_if c e w) = destroys w.
Proof. by destruct c. Qed.

Lemma timeouts_emit_if c e w : timeouts (emit_if c e w) = timeouts w.
Proof. by destruct c. Qed.

(** C9, amended.  When [event] already has a handler, [listen(event, new)]
    leaves [new] as its only handler; it logs the LISTENER_REPLACED warning
    exactly when [settings.warns] is set, and logs nothing otherwise; and
    the next Dispatch frame named [event] calls [new] with the frame's data
    and calls no other handler.  (Event names are not empty, and a READY
    frame carries an object.) *)
Theorem listen_replaces_handler (w : World) (event : string) (old new : nat) :
  events (self w) !! event = Some old ->
  event <> "" ->
  let w' := listen event new w in
  events (self w') !! event = Some new /\
  since w w' = (if warns (settings w) then [ELog Warn (MSG_LISTENER_REPLACED event)] else []) /\
  forall data seq thrown,
    (event = "READY" -> data <> JNull) ->
    filter is_call (since w' (_handleMessage (Parsed (dispatch_frame event data seq)) thrown w'))
      = [ECall new event data].
Proof.
  intros Hold Hne w'. subst w'. unfold listen. rewrite Hold.
  split; [|split].
  - simpl. apply lookup_insert_eq.
  - apply since_app. unfold warn. simpl. apply trace_emit_if.
  - intros data seq thrown Hready.
    set (w1 := set_self _ _).
    assert (events (self w1) !! event = Some new) as Hev by (simpl; apply lookup_insert_eq).
    unfold _handleMessage, on_op. simpl.
    set (w2 := note_sequence seq w1).
    assert (events (self w2) = events (self w1) /\
            exists l, trace w2 = trace w1 ++ l /\ filter is_call l = []) as (Hev2 & l2 & Ht2 & Hc2).
    { subst w2. unfold note_sequence, store_save, emit_if.
      repeat case_match; simpl; (split; [done|]);
        first [ by (exists []; rewrite app_nil_r) | by (eexists; split; [reflexivity|]) ]. }
    unfold on_dispatch.
    assert (forall w3 : World, events (self w3) = events (self w1) ->
      forall l, trace w3 = trace w1 ++ l -> filter is_call l = [] ->
      filter is_call (since w1
        (if String.eqb event "" then w3 else
         match events (self w3) !! event with
         | Some handler =>
           let w := emit (ECall handler event data) w3 in
           match thrown with
           | Some err => fail (TEXT ("Error in event handler " +:+ event +:+ ": " +:+ err)) w
           | None => w
           end
         | None => w3
         end)) = [ECall new event data]) as Hcall.
    { intros w3 He3 l Hl Hc. destruct (String.eqb_spec event ""); [done|].
      rewrite He3, Hev. unfold since. destruct thrown; simpl;
        rewrite Hl, <- !app_assoc, drop_app_length, !filter_app, Hc; done. }
    destruct (String.eqb event "READY") eqn:Er.
    + apply String.eqb_eq in Er. specialize (Hready Er).
      destruct data; try done;
        (destruct (session_id_of _) as [id|];
         [ unfold store_save; eapply Hcall;
           [ rewrite self_emit_if; simpl; exact Hev2
           | rewrite trace_emit_if; simpl; rewrite Ht2, <- app_assoc; reflexivity
           | rewrite filter_app, Hc2; by destruct (sessionStore _) ]
         | eapply Hcall; eauto ]).
    + destruct data; eapply Hcall; eauto.
Qed.

Lemma session_world_reachable : reachable verbose session_world.
Proof. exists session_events. vm_compute. reflexivity. Qed.

(** C6 as stated fails: a frame with sequence number 0 leaves
    [_lastSequence] at 41 and saves nothing, although a session id is
    known. *)
Lemma sequence_zero_is_ignored :
  _sessionId (self session_world) = Some "abc" /\
  _lastSequence (self session_world) = Some 41%Z /\
  let w' := _handleMessage (Parsed (dispatch_frame "MESSAGE_CREATE" (JObj MNil) (Some 0%Z)))
                           None session_world in
  _lastSequence (self w') <> Some 0%Z /\ since session_world w' = [].
Proof. vm_compute. split_and!; try reflexivity. discriminate. Qed.

(** C6, amended.  For a frame that carries a sequence number [n] other
    than 0, [_lastSequence] becomes [n] before the opcode is handled, and on
    that same frame [sessionStore.save({sessionId, seq: n})] is called when
    a non-empty session id is known and a session store is configured, and
    nothing is saved otherwise. *)
Theorem sequence_is_written_through (w : World) (payload : Payload) (thrown : option string) (n : Z) :
  s payload = Some n -> n <> 0%Z ->
  let w1 := note_sequence (s payload) w in
  _handleMessage (Parsed payload) thrown w = on_op payload thrown w1 /\
  _lastSequence (self w1) = Some n /\
  since w w1 =
    match _sessionId (self w) with
    | Some sessionId =>
      if negb (String.eqb sessionId "") && sessionStore (settings w)
      then [ESave sessionId n] else []
    | None => []
    end.
Proof.
  intros Hs Hn w1. subst w1. rewrite Hs. split; [by unfold _handleMessage; rewrite Hs|].
  unfold note_sequence. apply Z.eqb_neq in Hn. rewrite Hn. simpl.
  destruct (_sessionId (self w)) as [sid|]; simpl.
  - destruct (String.eqb sid ""); simpl.
    + split; [done|]. apply since_app. by rewrite app_nil_r.
    + unfold store_save. rewrite self_emit_if. simpl. split; [done|].
      apply since_app. rewrite trace_emit_if. simpl. done.
  - split; [done|]. apply since_app. by rewrite app_nil_r.
Qed.

(** C6, amended, at a concrete input: sequence 42 with session "abc". *)
Lemma sequence_is_written_through_witness :
  _lastSequence (self (note_sequence (Some 42%Z) session_world)) = Some 42%Z /\
  since session_world (note_sequence (Some 42%Z) session_world) = [ESave "abc" 42].
Proof.
  pose proof (sequence_is_written_through session_world
    (dispatch_frame "MESSAGE_CREATE" (JObj MNil) (Some 42%Z)) None 42 eq_refl) as H.
  simpl in H. destruct H as (_ & H1 & H2); [discriminate|]. split; [exact H1 | exact H2].
Defined.

Lemma grows_refl P w : grows P w w.
Proof. exists []. by rewrite app_nil_r. Qed.

Lemma grows_trans P w1 w2 w3 : grows P w1 w2 -> grows P w2 w3 -> grows P w1 w3.
Proof.
  intros (l1 & H1 & P1) (l2 & H2 & P2). exists (l1 ++ l2).
  rewrite H2, H1, <- app_assoc. split; [done|]. rewrite forallb_app, P1, P2. done.
Qed.

Lemma grows_eq P w w' : trace w' = trace w -> grows P w w'.
Proof. intros H. exists []. by rewrite app_nil_r. Qed.

Lemma grows_emit P e w : P e = true -> grows P w (emit e w).
Proof. intros H. exists [e]. simpl. by rewrite H. Qed.


Lemma grows_since P w w' : grows P w w' -> forallb P (since w w') = true.
Proof. intros (l & H & Hl). by rewrite (since_app _ _ _ H). Qed.

Lemma reconnect_after_destroy_calls r w :
  length (reconnects (reconnect_after_destroy r w)) = length (reconnects w) /\
  forall i, rc_clear <$> reconnects (reconnect_after_destroy r w) !! i
            = rc_clear <$> reconnects w !! i.
Proof.
  unfold reconnect_after_destroy.
  destruct (reconnects w !! r) as [call|] eqn:Hr; [|done].
  assert (forall p (l : list ReconnectCall), length (alter (set_rc_phase p) r l) = length l /\
    forall i, rc_clear <$> alter (set_rc_phase p) r l !! i = rc_clear <$> l !! i) as Halter.
  { intros p l. split; [apply length_alter|]. intros i.
    destruct (decide (r = i)) as [->|Hne].
    - rewrite list_lookup_alter_eq. by destruct (l !! i).
    - by rewrite list_lookup_alter_ne. }
  destruct (rc_clear call); simpl; unfold store_clear, echo, fail, emit_if;
    repeat case_match; simpl; apply Halter.
Qed.

Lemma reconnect_after_destroy_grows r w : grows not_send w (reconnect_after_destroy r w).
Proof.
  unfold reconnect_after_destroy. destruct (reconnects w !! r) as [call|]; [|apply grows_refl].
  unfold store_clear, echo, fail, emit_if. unfold grows.
  repeat case_match; simpl;
    first [ by (exists []; rewrite app_nil_r)
          | by (eexists; rewrite <- ?app_assoc; split; [reflexivity|]) ].
Qed.









Lemma reconnect_no_socket clear w :
  _reconnecting (self w) = false -> _ws (self w) = None ->
  exists w0,
    reconnect clear w = reconnect_after_destroy (length (reconnects w)) w0 /\
    reconnects w0 = reconnects w ++ [{| rc_clear := clear; rc_phase := ReconnectDestroying |}] /\
    _retries (self w0) = _retries (self w) /\ settings w0 = settings w /\
    trace w0 = trace w /\ timeouts w0 = timeouts w /\ starts w0 = starts w.
Proof.
  intros Hr Hws. unfold reconnect. rewrite Hr. unfold destroy.
  destruct (_heartbeat (self w)) as [h|] eqn:Hh; simpl; rewrite Hh; simpl; rewrite Hws; simpl;
    rewrite lookup_app_r, Nat.sub_diag by done; simpl;
    eexists; (split; [reflexivity|]); done.
Qed.

Lemma gives_up_after_destroy r call w :
  reconnects w !! r = Some call ->
  (max_retries w <= Z.of_nat (_retries (self w)))%Z ->
  let w' := reconnect_after_destroy r w in
  rc_phase <$> reconnects w' !! r = Some (ReconnectResolved false) /\
  timeouts w' = timeouts w /\ starts w' = starts w /\
  _reconnecting (self w') = false /\
  ELog Fail MSG_MAX_RETRIES_EXCEEDED ∈ since w w' /\
  (sessionStore (settings w) = true -> last (since w w') = Some EClear).
Proof.
  intros Hr Hmax. cbv zeta. unfold reconnect_after_destroy, max_retries in *. rewrite Hr.
  assert (forall w1 : World, settings w1 = settings w -> _retries (self w1) = _retries (self w) ->
    (Z.of_nat (_retries (self w1)) >=? default 5%Z (maxRetries (settings w1)))%Z = true) as Hge.
  { intros w1 -> ->. apply Z.geb_le. lia. }
  assert (rc_phase <$> alter (set_rc_phase (ReconnectResolved false)) r (reconnects w) !! r
          = Some (ReconnectResolved false)) as Hphase.
  { rewrite list_lookup_alter_eq, Hr. done. }
  unfold store_clear, echo, fail, since.
  destruct (rc_clear call); simpl.
  - rewrite Hge by (unfold emit_if; repeat case_match; done). simpl.
    split_and!; try (unfold emit_if; repeat case_match; done).
    + unfold emit_if. repeat case_match; simpl; rewrite <- ?app_assoc, ?drop_app_length; set_solver.
    + intros Hst. unfold emit_if. rewrite !Hst. simpl.
      repeat case_match; simpl in *; try congruence;
        rewrite <- ?app_assoc, drop_app_length; simpl; done.
  - rewrite Hge by done. simpl.
    split_and!; try (unfold emit_if; repeat case_match; done).
    + unfold emit_if. repeat case_match; simpl; rewrite <- ?app_assoc, ?drop_app_length; set_solver.
    + intros Hst. unfold emit_if. rewrite !Hst. simpl.
      rewrite <- ?app_assoc, drop_app_length; simpl; done.
Qed.

(** Where [destroy()] completes, [reconnect] does give up.  When it
    reaches its retry check with the attempt counter at or above
    [maxRetries ?? 5], whether at once (no socket to destroy) or when the
    close event of the destroyed socket arrives, it
    logs MAX_RETRIES_EXCEEDED as a failure, calls [sessionStore.clear()]
    last, resets [_reconnecting], resolves to false, arms no timer and
    starts nothing.  When the [start()] awaited by a reconnect resolves,
    [_retries] is 0 again and the reconnect resolves to true. *)
Theorem reconnect_gives_up_at_max :
  (forall w clear,
     _reconnecting (self w) = false -> _ws (self w) = None ->
     (max_retries w <= Z.of_nat (_retries (self w)))%Z ->
     let r := length (reconnects w) in
     let w' := reconnect clear w in
     reconnects w' !! r = Some {| rc_clear := clear; rc_phase := ReconnectResolved false |} /\
     timeouts w' = timeouts w /\ starts w' = starts w /\
     _reconnecting (self w') = false /\
     ELog Fail MSG_MAX_RETRIES_EXCEEDED ∈ since w w' /\
     (sessionStore (settings w) = true -> last (since w w') = Some EClear)) /\
  (forall w ws x d r call reason,
     sockets w !! ws = Some x -> closeFired x = false -> onclose x = OnCloseDestroy d ->
     destroys w !! d = Some {| destroy_phase := DestroyClosing ws; destroy_owner := Some r |} ->
     reconnects w !! r = Some call ->
     (max_retries w <= Z.of_nat (_retries (self w)))%Z ->
     exists w', step w (WsCloses ws reason) = Some w' /\
       rc_phase <$> reconnects w' !! r = Some (ReconnectResolved false) /\
       timeouts w' = timeouts w /\ starts w' = starts w /\
       _reconnecting (self w') = false /\
       ELog Fail MSG_MAX_RETRIES_EXCEEDED ∈ since w w' /\
       (sessionStore (settings w) = true -> last (since w w') = Some EClear)) /\
  (forall w ws x s r call,
     sockets w !! ws = Some x -> readyState x = CONNECTING -> onopen x = Some s ->
     starts w !! s = Some {| start_phase := StartOpening; start_owner := Some r |} ->
     reconnects w !! r = Some call ->
     exists w', step w (WsOpens ws) = Some w' /\
       _retries (self w') = 0 /\ _reconnecting (self w') = false /\
       rc_phase <$> reconnects w' !! r = Some (ReconnectResolved true)).
Proof.
  split; [|split].
  - intros w clear Hr Hws Hmax. cbv zeta.
    destruct (reconnect_no_socket clear w Hr Hws) as (w0 & -> & Hrc & Hret & Hset & Htr & Hto & Hst).
    assert (reconnects w0 !! length (reconnects w) =
            Some {| rc_clear := clear; rc_phase := ReconnectDestroying |}) as Hcall.
    { rewrite Hrc, lookup_app_r, Nat.sub_diag by done. done. }
    destruct (gives_up_after_destroy _ _ w0 Hcall) as (H1 & H2 & H3 & H4 & H5 & H6).
    { unfold max_retries. rewrite Hset, Hret. exact Hmax. }
    unfold since in *. rewrite Htr, Hset in *. rewrite H2, H3, Hto, Hst.
    split_and!; try done.
    destruct (reconnect_after_destroy_calls (length (reconnects w)) w0) as [_ Hclear].
    specialize (Hclear (length (reconnects w))). rewrite Hcall in Hclear.
    destruct (reconnects (reconnect_after_destroy _ w0) !! _) as [[c p]|]; [|done].
    simpl in *. congruence.
  - intros w ws x d r call reason Hx Hcf Hoc Hd Hr Hmax.
    eexists. simpl. rewrite Hx, Hcf, Hoc. split; [reflexivity|].
    unfold on_close, destroy_after_close. simpl. rewrite Hd. simpl.
    set (w0 := set_destroys _ _).
    assert (reconnects w0 !! r = Some call) as Hr0.
    { subst w0. unfold echo, emit_if. by repeat case_match. }
    destruct (gives_up_after_destroy r call w0 Hr0) as (H1 & H2 & H3 & H4 & H5 & H6).
    { subst w0. unfold max_retries, echo, emit_if in *. by repeat case_match. }
    assert (exists l, trace w0 = trace w ++ l /\ forall e, e ∈ l -> e = ELog Echo MSG_DESTROYED)
      as (l & Hl & Hdl).
    { subst w0. unfold echo, emit_if. case_match; simpl.
      - eexists. split; [reflexivity|]. by intros e ->%list_elem_of_singleton.
      - exists []. rewrite app_nil_r. split; [done|]. intros e He. inversion He. }
    assert (timeouts w0 = timeouts w /\ starts w0 = starts w /\ settings w0 = settings w)
      as (E1 & E2 & E3) by (subst w0; unfold echo, emit_if; by repeat case_match).
    rewrite H2, H3, E1, E2. split_and!; try done.
    + destruct (reconnect_after_destroy_grows r w0) as (l' & Hl' & _).
      unfold since in *. rewrite Hl', drop_app_length in H5.
      rewrite Hl', Hl, <- app_assoc, drop_app_length. apply elem_of_app. by right.
    + rewrite <- E3. intros Hs. specialize (H6 Hs).
      destruct (reconnect_after_destroy_grows r w0) as (l' & Hl' & _).
      unfold since in *. rewrite Hl', drop_app_length in H6.
      rewrite Hl', Hl, <- app_assoc, drop_app_length.
      destruct l' as [|e l'] using rev_ind; [done|].
      rewrite app_assoc, last_snoc. by rewrite last_snoc in H6.
  - intros w ws x s r call Hx Hrs Hoo Hs Hr.
    eexists. simpl. rewrite Hx, Hrs, Hoo. split; [reflexivity|].
    unfold on_open, settle_start. simpl.
    unfold echo. rewrite starts_emit_if.
    simpl. rewrite Hs. simpl.
    split_and!; try done.
    rewrite list_lookup_alter_eq, reconnects_emit_if.
    simpl. rewrite Hr. done.
Qed.

(** At a concrete run with the default maximum: five attempts whose
    sockets fail, [destroy()] and the close event of the last socket, then
    a sixth [reconnect()]. *)
Lemma reconnect_gives_up_at_max_witness :
  reachable verbose exhausted_world /\
  _retries (self exhausted_world) = 5 /\
  let w' := reconnect false exhausted_world in
  reconnects w' !! 5 = Some {| rc_clear := false; rc_phase := ReconnectResolved false |} /\
  timeouts w' = timeouts exhausted_world /\
  last (since exhausted_world w') = Some EClear.
Proof.
  split; [exists exhausting_events; vm_compute; reflexivity|].
  split; [reflexivity|].
  destruct (proj1 reconnect_gives_up_at_max exhausted_world false)
    as (H1 & H2 & _ & _ & _ & H6); [reflexivity | reflexivity | vm_compute; discriminate |].
  split; [exact H1|]. split; [exact H2|]. apply H6. reflexivity.
Defined.

(** ** Backoff *)
Lemma backoff_capped n : 5 <= n -> backoff n = 30000%Z.
Proof.
  intros Hn. unfold backoff. apply Z.min_r.
  assert (2 ^ 5 <= 2 ^ Z.of_nat n)%Z by (apply Z.pow_le_mono_r; lia).
  change (2 ^ 5)%Z with 32%Z in *. lia.
Qed.

(** C4.  The delay is [min(2^n * 1000, 30000)]: 1000, 2000, 4000, 8000,
    16000, then 30000 for every [n >= 5].  A [reconnect] that is below the
    maximum arms one timer with the delay of the current attempt number and
    does not call [start()] itself; [start()] is called when that timer
    fires. *)
Theorem backoff_delay_schedule :
  (forall n, backoff n = Z.min (2 ^ Z.of_nat n * 1000) 30000) /\
  backoff <$> [0; 1; 2; 3; 4; 5; 6] = [1000; 2000; 4000; 8000; 16000; 30000; 30000]%Z /\
  (forall n, 5 <= n -> backoff n = 30000%Z) /\
  (forall w r call,
     reconnects w !! r = Some call ->
     (Z.of_nat (_retries (self w)) < max_retries w)%Z ->
     let w' := reconnect_after_destroy r w in
     timeouts w' = timeouts w ++ [(r, backoff (_retries (self w)))] /\
     starts w' = starts w /\ _retries (self w') = S (_retries (self w)) /\
     rc_phase <$> reconnects w' !! r = Some ReconnectBackoff) /\
  (forall w i r delay,
     timeouts w !! i = Some (r, delay) ->
     exists w', step w (TimeoutFires i) = Some w' /\
       timeouts w' = delete i (timeouts w) /\
       length (starts w') = S (length (starts w)) /\
       start_owner <$> starts w' !! length (starts w) = Some (Some r)).
Proof.
  split_and!.
  - done.
  - vm_compute. reflexivity.
  - apply backoff_capped.
  - intros w r call Hr Hlt. cbv zeta. unfold reconnect_after_destroy, max_retries in *. rewrite Hr.
    assert (forall w1 : World, settings w1 = settings w -> _retries (self w1) = _retries (self w) ->
      (Z.of_nat (_retries (self w1)) >=? default 5%Z (maxRetries (settings w1)))%Z = false) as Hge.
    { intros w1 -> ->. rewrite Z.geb_leb. apply Z.leb_gt. lia. }
    unfold store_clear, echo.
    destruct (rc_clear call); simpl.
    + rewrite Hge by (unfold emit_if; repeat case_match; done). simpl.
      rewrite list_lookup_alter_eq.
      split_and!; unfold emit_if; repeat case_match; simpl in *; try congruence;
        by rewrite Hr.
    + rewrite Hge by done. simpl. rewrite list_lookup_alter_eq, Hr. done.
  - intros w i r delay Hi. eexists. simpl. rewrite Hi. split; [reflexivity|].
    unfold reconnect_timer, start. simpl.
    destruct (sessionStore (settings w)); simpl.
    + rewrite length_app. simpl. split_and!; [done|lia|].
      by rewrite lookup_app_r, Nat.sub_diag.
    + unfold start_after_load. simpl.
      rewrite length_alter, length_app. simpl. split_and!; [done|lia|].
      rewrite list_lookup_alter_eq, lookup_app_r, Nat.sub_diag by done. done.
Qed.

(** C4, at a concrete run: the second attempt waits 2000 ms. *)
Lemma backoff_delay_schedule_witness :
  let w := default (init verbose) (run (init verbose) (failed_attempt 0 ++ [CallReconnect false])) in
  _retries (self w) = 1 /\
  timeouts (reconnect_after_destroy 1 w) = timeouts w ++ [(1, 2000%Z)].
Proof.
  cbv zeta. split; [vm_compute; reflexivity|].
  refine (proj1 (proj1 (proj2 (proj2 (proj2 backoff_delay_schedule))) _ 1
    {| rc_clear := false; rc_phase := ReconnectDestroying |} _ _)).
  - vm_compute. reflexivity.
  - vm_compute. reflexivity.
Defined.

Lemma reconnect_after_destroy_host r w : same_host w (reconnect_after_destroy r w).
Proof.
  unfold same_host, reconnect_after_destroy, store_clear, echo, fail, emit_if.
  repeat case_match; done.
Qed.

Lemma reconnect_after_start_host r o w : same_host w (reconnect_after_start r o w).
Proof. unfold same_host, reconnect_after_start, fail. repeat case_match; done. Qed.

Lemma listen_host ev h w : same_host w (listen ev h w).
Proof. unfold same_host, listen, warn, emit_if. repeat case_match; done. Qed.

Lemma note_sequence_host seq w : same_host w (note_sequence seq w).
Proof. unfold same_host, note_sequence, store_save, emit_if. repeat case_match; done. Qed.

Lemma heartbeat_tick_host w : same_host w (heartbeat_tick w).
Proof.
  unfold same_host, heartbeat_tick, or_throw, send, echo, emit_if. simpl.
  repeat case_match; simplify_eq; simpl in *; repeat case_match; simplify_eq; done.
Qed.

Lemma on_hello_host data w : same_host w (on_hello data w).
Proof.
  unfold same_host, on_hello, or_throw, send. simpl.
  repeat case_match; done.
Qed.

Lemma on_dispatch_host t data thrown w : same_host w (on_dispatch t data thrown w).
Proof.
  unfold same_host, on_dispatch, store_save, fail, emit_if.
  repeat case_match; done.
Qed.

Lemma settle_start_host s o w :
  sockets (settle_start s o w) = sockets w /\ destroys (settle_start s o w) = destroys w.
Proof.
  unfold settle_start. repeat case_match; try done;
    match goal with |- context [reconnect_after_start ?r ?o ?w] =>
      destruct (reconnect_after_start_host r o w) as (_ & -> & ->) end; done.
Qed.

Lemma hung_same d w w' :
  sockets w' = sockets w -> destroys w' = destroys w -> hung d w -> hung d w'.
Proof. unfold hung. by intros -> ->. Qed.

Lemma hung_host d w w' : same_host w w' -> hung d w -> hung d w'.
Proof. intros (_ & H1 & H2). by apply hung_same. Qed.

Lemma hung_emit_if d c e w : hung d w -> hung d (emit_if c e w).
Proof. apply hung_same; by destruct c. Qed.

Lemma hung_settle_start d s o w : hung d w -> hung d (settle_start s o w).
Proof. destruct (settle_start_host s o w). by apply hung_same. Qed.

Lemma hung_start_after_load d s rd w : hung d w -> hung d (start_after_load s rd w).
Proof.
  intros H. unfold start_after_load.
  set (w1 := match rd with Some _ => _ | None => _ end).
  assert (hung d w1) as H1 by (subst w1; destruct rd as [[]|]; by apply (hung_same d w)).
  destruct (_ws (self w1)); [|by apply hung_settle_start].
  destruct H1 as [Hd Hs]. split; [done|]. simpl.
  apply Forall_alter; [done|]. simpl. intros x _ _ Hx. discriminate.
Qed.

Lemma hung_start d o w : hung d w -> hung d (start o w).
Proof.
  intros [Hd Hs]. unfold start.
  set (w1 := set_starts _ _).
  assert (hung d w1) as H1.
  { split; [done|]. simpl. apply Forall_app. split; [done|].
    apply Forall_singleton. simpl. discriminate. }
  destruct (sessionStore (settings w1)); [by apply (hung_same d w1)|].
  by apply hung_start_after_load.
Qed.

Lemma hung_destroy d o w : hung d w -> hung d (destroy o w).
Proof.
  intros H. unfold destroy.
  set (w1 := match _heartbeat (self w) with Some _ => _ | None => _ end).
  assert (hung d w1) as [(ws0 & o0 & Hd) Hs]
    by (subst w1; destruct (_heartbeat (self w)); by apply (hung_same d w)).
  assert (d < length (destroys w1)) as Hlt by (eapply lookup_lt_Some; eauto).
  destruct (_ws (self w1)) as [ws|].
  - split.
    + exists ws0, o0. simpl.
      assert (forall w2 : World, destroys w2 = destroys w1 ->
        (destroys w2 ++ [{| destroy_phase := DestroyClosing ws; destroy_owner := o |}]) !! d
        = Some {| destroy_phase := DestroyClosing ws0; destroy_owner := o0 |}) as E.
      { intros w2 ->. by rewrite lookup_app_l. }
      apply E. unfold echo, emit_if. repeat case_match; done.
    + simpl. apply Forall_alter; [|by intros x _ Hx].
      assert (Forall (fun x => onclose x = OnCloseDestroy d -> closeFired x = true)
                (alter (set_onclose (OnCloseDestroy (length (destroys w1)))) ws (sockets w1))) as Hs1.
      { apply Forall_alter; [done|]. intros x _ _. simpl. intros [= E]. lia. }
      unfold echo, emit_if. repeat case_match; simpl; try done;
        (apply Forall_alter; [done | by intros x _ Hx]).
  - split; [|done]. exists ws0, o0. simpl. by rewrite lookup_app_l.
Qed.

Lemma hung_reconnect d clear w : hung d w -> hung d (reconnect clear w).
Proof.
  intros H. unfold reconnect. destruct (_reconnecting (self w)); [by apply (hung_same d w)|].
  set (w1 := set_reconnects _ _).
  assert (hung d (destroy (Some (length (reconnects w))) w1)) as H1
    by (apply hung_destroy; by apply (hung_same d w)).
  repeat case_match; try done.
  eapply hung_host; [apply reconnect_after_destroy_host | done].
Qed.

Lemma hung_or_throw_send d frame w : hung d w -> hung d (or_throw w (send frame w)).
Proof. intros H. unfold or_throw, send. destruct (_ws (self w)); [|done]. by apply (hung_same d w). Qed.

Lemma hung_on_invalid_session d data w : hung d w -> hung d (on_invalid_session data w).
Proof.
  intros H. unfold on_invalid_session, warn, echo.
  repeat case_match;
    repeat first [apply hung_reconnect | apply hung_or_throw_send | apply hung_emit_if]; done.
Qed.

Lemma hung_handleMessage d data thrown w : hung d w -> hung d (_handleMessage data thrown w).
Proof.
  intros H. destruct data as [text|payload]; [by apply (hung_same d w)|].
  unfold _handleMessage, on_op.
  assert (hung d (note_sequence (s payload) w)) as H1
    by (eapply hung_host; [apply note_sequence_host | done]).
  repeat case_match.
  - eapply hung_host; [apply on_hello_host | done].
  - apply hung_emit_if. by apply (hung_same d (note_sequence (s payload) w)).
  - apply hung_reconnect. by apply hung_emit_if.
  - by apply hung_on_invalid_session.
  - eapply hung_host; [apply on_dispatch_host | done].
  - done.
Qed.

Lemma hung_destroy_after_close d d' w :
  d' <> d -> hung d w -> hung d (destroy_after_close d' w).
Proof.
  intros Hne H. unfold destroy_after_close.
  destruct (destroys w !! d') as [call|]; [|done].
  destruct (destroy_phase call); [|done].
  assert (hung d (set_destroys (alter (set_destroy_phase (DestroyResolved true)) d')
                               (echo MSG_DESTROYED w))) as H1.
  { destruct H as [(wz & oz & Hd) Hs]. unfold echo. split.
    - exists wz, oz. simpl. by rewrite list_lookup_alter_ne, destroys_emit_if.
    - simpl. by rewrite sockets_emit_if. }
  destruct (destroy_owner call); [|done].
  eapply hung_host; [apply reconnect_after_destroy_host | done].
Qed.

Lemma hung_step d w e w' : step w e = Some w' -> hung d w -> hung d w'.
Proof.
  intros Hstep H.
  destruct e as [| |clear|ev h|time|s0 rd|s0 err|ws|ws msg|ws reason|ws data thrown|i|h];
    simpl in Hstep.
  - injection Hstep as <-. by apply hung_start.
  - injection Hstep as <-. by apply hung_destroy.
  - injection Hstep as <-. by apply hung_reconnect.
  - injection Hstep as <-. eapply hung_host; [apply listen_host | done].
  - destruct (now w <=? time)%Z; [|done]. injection Hstep as <-. by apply (hung_same d w).
  - destruct (start_phase <$> starts w !! s0) as [[]|]; try done.
    injection Hstep as <-. by apply hung_start_after_load.
  - destruct (start_phase <$> starts w !! s0) as [[]|]; try done.
    injection Hstep as <-. by apply hung_settle_start.
  - destruct (sockets w !! ws) as [x|] eqn:Hx; [|done].
    destruct (readyState x); try done. injection Hstep as <-.
    assert (hung d (set_sockets (alter (set_readyState OPEN) ws) w)) as H1.
    { destruct H as [Hd Hs]. split; [done|]. simpl. apply Forall_alter; [done | by intros y _ Hy]. }
    destruct (onopen x); [|done]. unfold on_open, echo.
    apply hung_settle_start, hung_emit_if. by eapply hung_same; [| |exact H1].
  - destruct (sockets w !! ws) as [x|] eqn:Hx; [|done].
    assert (hung d (set_sockets (alter (set_readyState CLOSED) ws) w)) as H1.
    { destruct H as [Hd Hs]. split; [done|]. simpl. apply Forall_alter; [done | by intros y _ Hy]. }
    destruct (readyState x); try done; injection Hstep as <-;
      (destruct (onerror x); [|done]); unfold on_error, fail;
      apply hung_settle_start; by eapply hung_same; [| |exact H1].
  - destruct (sockets w !! ws) as [x|] eqn:Hx; [|done].
    destruct (closeFired x) eqn:Hcf; [done|]. injection Hstep as <-.
    set (w1 := set_sockets _ w).
    assert (hung d w1) as H1.
    { destruct H as [Hd Hs]. split; [done|]. simpl. apply Forall_alter; [done | by intros y _ Hy]. }
    unfold on_close. destruct (onclose x) as [| |d'] eqn:Hoc; [done| |].
    + unfold warn. by apply hung_emit_if.
    + assert (d' <> d) as Hne.
      { intros ->. destruct H as [_ Hs]. rewrite Forall_forall in Hs.
        assert (closeFired x = true) by (apply Hs; [eapply list_elem_of_lookup_2; eauto | done]).
        congruence. }
      by apply hung_destroy_after_close.
  - destruct (sockets w !! ws) as [x|] eqn:Hx; [|done].
    destruct (readyState x); try done; injection Hstep as <-;
      (destruct (onmessage x); [by apply hung_handleMessage | done]).
  - destruct (timeouts w !! i) as [[r delay]|]; [|done]. injection Hstep as <-.
    unfold reconnect_timer. apply hung_start. by apply (hung_same d w).
  - destruct (intervals w !! h) as [[p []]|]; try done. injection Hstep as <-.
    eapply hung_host; [apply heartbeat_tick_host | done].
Qed.

Lemma hung_run d evs : forall w w', run w evs = Some w' -> hung d w -> hung d w'.
Proof.
  induction evs as [|e evs IH]; simpl; intros w w' H Hh.
  - by injection H as <-.
  - destruct (step w e) as [w1|] eqn:He; [|done]. eauto using hung_step.
Qed.

Lemma onclose_wf_mono w w' :
  sockets w' = sockets w -> length (destroys w) <= length (destroys w') ->
  onclose_wf w -> onclose_wf w'.
Proof.
  unfold onclose_wf. intros -> Hle H. eapply Forall_impl; [exact H|].
  intros x Hx d Hd. specialize (Hx d Hd). lia.
Qed.

Lemma onclose_wf_same w w' :
  sockets w' = sockets w -> destroys w' = destroys w -> onclose_wf w -> onclose_wf w'.
Proof. intros H1 H2. apply onclose_wf_mono; [done | by rewrite H2]. Qed.

Lemma onclose_wf_host w w' : same_host w w' -> onclose_wf w -> onclose_wf w'.
Proof. intros (_ & H1 & H2). by apply onclose_wf_same. Qed.

Lemma onclose_wf_emit_if c e w : onclose_wf w -> onclose_wf (emit_if c e w).
Proof. apply onclose_wf_same; by destruct c. Qed.

Lemma onclose_wf_settle_start s o w : onclose_wf w -> onclose_wf (settle_start s o w).
Proof. destruct (settle_start_host s o w). by apply onclose_wf_same. Qed.

Lemma onclose_wf_alter (f : WebSocket -> WebSocket) ws w :
  (forall x d, onclose (f x) = OnCloseDestroy d -> onclose x = OnCloseDestroy d) ->
  onclose_wf w -> onclose_wf (set_sockets (alter f ws) w).
Proof.
  intros Hf H. unfold onclose_wf. simpl. apply Forall_alter; [done|].
  intros x _ Hx d Hd. apply Hx. by apply Hf.
Qed.

Lemma onclose_wf_start_after_load s rd w : onclose_wf w -> onclose_wf (start_after_load s rd w).
Proof.
  intros H. unfold start_after_load.
  set (w1 := match rd with Some _ => _ | None => _ end).
  assert (onclose_wf w1) as H1 by (subst w1; destruct rd as [[]|]; by apply (onclose_wf_same w)).
  destruct (_ws (self w1)) as [ws|]; [|by apply onclose_wf_settle_start].
  eapply (onclose_wf_same (set_sockets _ w1)); [done|done|].
  apply onclose_wf_alter; [|done]. intros x d. simpl. discriminate.
Qed.

Lemma onclose_wf_start o w : onclose_wf w -> onclose_wf (start o w).
Proof.
  intros H. unfold start.
  set (w1 := set_starts _ _).
  assert (onclose_wf w1) as H1.
  { unfold onclose_wf. simpl. apply Forall_app. split; [done|].
    apply Forall_singleton. simpl. discriminate. }
  destruct (sessionStore (settings w1)); [by apply (onclose_wf_same w1)|].
  by apply onclose_wf_start_after_load.
Qed.

Lemma onclose_wf_destroy o w : onclose_wf w -> onclose_wf (destroy o w).
Proof.
  intros H. unfold destroy.
  set (w1 := match _heartbeat (self w) with Some _ => _ | None => _ end).
  assert (onclose_wf w1) as H1
    by (subst w1; destruct (_heartbeat (self w)); by apply (onclose_wf_same w)).
  destruct (_ws (self w1)) as [ws|].
  2:{ eapply onclose_wf_mono; [| |exact H1]; simpl; [done|]. rewrite length_app. lia. }
  unfold onclose_wf. simpl. apply Forall_alter; [|by intros x _ Hx].
  assert (Forall (fun x => forall d, onclose x = OnCloseDestroy d -> d < length (destroys w1 ++
            [{| destroy_phase := DestroyClosing ws; destroy_owner := o |}]))
            (alter (set_onclose (OnCloseDestroy (length (destroys w1)))) ws (sockets w1))) as Hf.
  { apply Forall_alter.
    - eapply Forall_impl; [exact H1|]. intros x Hx d Hd. rewrite length_app. specialize (Hx d Hd). lia.
    - intros x _ _ d. simpl. intros [= <-]. rewrite length_app. simpl. lia. }
  unfold echo, emit_if. repeat case_match; simpl; try done;
    (apply Forall_alter; [done | by intros x _ Hx]).
Qed.

Lemma onclose_wf_reconnect clear w : onclose_wf w -> onclose_wf (reconnect clear w).
Proof.
  intros H. unfold reconnect. destruct (_reconnecting (self w)); [by apply (onclose_wf_same w)|].
  set (w1 := set_reconnects _ _).
  assert (onclose_wf (destroy (Some (length (reconnects w))) w1)) as H1
    by (apply onclose_wf_destroy; by apply (onclose_wf_same w)).
  repeat case_match; try done.
  eapply onclose_wf_host; [apply reconnect_after_destroy_host | done].
Qed.

Lemma onclose_wf_or_throw_send frame w : onclose_wf w -> onclose_wf (or_throw w (send frame w)).
Proof.
  intros H. unfold or_throw, send. destruct (_ws (self w)); [|done]. by apply (onclose_wf_same w).
Qed.

Lemma onclose_wf_handleMessage data thrown w :
  onclose_wf w -> onclose_wf (_handleMessage data thrown w).
Proof.
  intros H. destruct data as [text|payload]; [by apply (onclose_wf_same w)|].
  unfold _handleMessage, on_op.
  assert (onclose_wf (note_sequence (s payload) w)) as H1
    by (eapply onclose_wf_host; [apply note_sequence_host | done]).
  repeat case_match.
  - eapply onclose_wf_host; [apply on_hello_host | done].
  - apply onclose_wf_emit_if. by apply (onclose_wf_same (note_sequence (s payload) w)).
  - apply onclose_wf_reconnect. by apply onclose_wf_emit_if.
  - unfold on_invalid_session, warn, echo.
    repeat case_match;
      repeat first [apply onclose_wf_reconnect | apply onclose_wf_or_throw_send
                   | apply onclose_wf_emit_if]; done.
  - eapply onclose_wf_host; [apply on_dispatch_host | done].
  - done.
Qed.

Lemma onclose_wf_destroy_after_close d w : onclose_wf w -> onclose_wf (destroy_after_close d w).
Proof.
  intros H. unfold destroy_after_close.
  destruct (destroys w !! d) as [call|]; [|done].
  destruct (destroy_phase call); [|done].
  assert (onclose_wf (set_destroys (alter (set_destroy_phase (DestroyResolved true)) d)
                                   (echo MSG_DESTROYED w))) as H1.
  { eapply onclose_wf_mono; [| |exact H]; simpl; unfold echo.
    - by rewrite sockets_emit_if.
    - by rewrite length_alter, destroys_emit_if. }
  destruct (destroy_owner call); [|done].
  eapply onclose_wf_host; [apply reconnect_after_destroy_host | done].
Qed.

Lemma onclose_wf_step w e w' : step w e = Some w' -> onclose_wf w -> onclose_wf w'.
Proof.
  intros Hstep H.
  destruct e as [| |clear|ev h|time|s0 rd|s0 err|ws|ws msg|ws reason|ws data thrown|i|h];
    simpl in Hstep.
  - injection Hstep as <-. by apply onclose_wf_start.
  - injection Hstep as <-. by apply onclose_wf_destroy.
  - injection Hstep as <-. by apply onclose_wf_reconnect.
  - injection Hstep as <-. eapply onclose_wf_host; [apply listen_host | done].
  - destruct (now w <=? time)%Z; [|done]. injection Hstep as <-. by apply (onclose_wf_same w).
  - destruct (start_phase <$> starts w !! s0) as [[]|]; try done.
    injection Hstep as <-. by apply onclose_wf_start_after_load.
  - destruct (start_phase <$> starts w !! s0) as [[]|]; try done.
    injection Hstep as <-. by apply onclose_wf_settle_start.
  - destruct (sockets w !! ws) as [x|] eqn:Hx; [|done].
    destruct (readyState x); try done. injection Hstep as <-.
    assert (onclose_wf (set_sockets (alter (set_readyState OPEN) ws) w)) as H1
      by (apply onclose_wf_alter; [by intros y d | done]).
    destruct (onopen x); [|done]. unfold on_open, echo.
    apply onclose_wf_settle_start, onclose_wf_emit_if. by eapply onclose_wf_same; [| |exact H1].
  - destruct (sockets w !! ws) as [x|] eqn:Hx; [|done].
    assert (onclose_wf (set_sockets (alter (set_readyState CLOSED) ws) w)) as H1
      by (apply onclose_wf_alter; [by intros y d | done]).
    destruct (readyState x); try done; injection Hstep as <-;
      (destruct (onerror x); [|done]); unfold on_error, fail;
      apply onclose_wf_settle_start; by eapply onclose_wf_same; [| |exact H1].
  - destruct (sockets w !! ws) as [x|] eqn:Hx; [|done].
    destruct (closeFired x) eqn:Hcf; [done|]. injection Hstep as <-.
    set (w1 := set_sockets _ w).
    assert (onclose_wf w1) as H1 by (apply onclose_wf_alter; [by intros y d | done]).
    unfold on_close. destruct (onclose x) as [| |d'] eqn:Hoc; [done| |].
    + unfold warn. by apply onclose_wf_emit_if.
    + by apply onclose_wf_destroy_after_close.
  - destruct (sockets w !! ws) as [x|] eqn:Hx; [|done].
    destruct (readyState x); try done; injection Hstep as <-;
      (destruct (onmessage x); [by apply onclose_wf_handleMessage | done]).
  - destruct (timeouts w !! i) as [[r delay]|]; [|done]. injection Hstep as <-.
    unfold reconnect_timer. apply onclose_wf_start. by apply (onclose_wf_same w).
  - destruct (intervals w !! h) as [[p []]|]; try done. injection Hstep as <-.
    eapply onclose_wf_host; [apply heartbeat_tick_host | done].
Qed.

Lemma reachable_onclose_wf cfg w : reachable cfg w -> onclose_wf w.
Proof.
  intros [evs H].
  assert (onclose_wf (init cfg)) as H0 by constructor.
  revert H. generalize (init cfg) H0. induction evs as [|e evs IH]; simpl; intros w0 Hw0 H.
  - by injection H as <-.
  - destruct (step w0 e) as [w1|] eqn:He; [|done]. eauto using onclose_wf_step.
Qed.

(** What [destroy] does to each socket. *)
Lemma destroy_onclose o w i x' :
  sockets (destroy o w) !! i = Some x' ->
  exists x, sockets w !! i = Some x /\ closeFired x' = closeFired x /\
    (_ws (self w) = Some i /\ onclose x' = OnCloseDestroy (length (destroys w)) \/
     _ws (self w) <> Some i /\ onclose x' = onclose x).
Proof.
  unfold destroy.
  set (w1 := match _heartbeat (self w) with Some _ => _ | None => _ end).
  assert (sockets w1 = sockets w /\ _ws (self w1) = _ws (self w) /\ destroys w1 = destroys w)
    as (Es & Ew & Ed) by (subst w1; by destruct (_heartbeat (self w))).
  rewrite Ew, <- Es, <- Ed. destruct (_ws (self w)) as [ws|].
  2:{ simpl. intros Hx. exists x'. split_and!; [done|done|]. by right. }
  simpl. rewrite list_lookup_alter.
  destruct (decide (ws = i)) as [->|Hne].
  - unfold echo, emit_if, ready. simpl. rewrite list_lookup_alter_eq.
    destruct (sockets w1 !! i) as [y|] eqn:E; simpl.
    + intros Hx. exists y. split; [done|].
      revert Hx. repeat case_match; simpl; rewrite ?list_lookup_alter_eq, ?E; simpl;
        intros [= <-]; simpl; (split; [done|]); by left.
    + repeat case_match; simpl; rewrite ?list_lookup_alter_eq, ?E; simpl; done.
  - intros Hx. exists x'. split; [|split; [done|right; split; [congruence|done]]].
    revert Hx. unfold echo, emit_if.
    repeat case_match; simpl; rewrite ?list_lookup_alter_ne by done; simpl;
      rewrite ?list_lookup_alter_ne by done; done.
Qed.

Lemma destroy_destroys o w ws :
  _ws (self w) = Some ws ->
  destroys (destroy o w) =
    destroys w ++ [{| destroy_phase := DestroyClosing ws; destroy_owner := o |}].
Proof.
  intros Hws. unfold destroy, echo, emit_if.
  destruct (_heartbeat (self w)); simpl; rewrite Hws; repeat case_match; done.
Qed.

(** C10, the failing input in general.  In any state the connection can
    reach in which the current socket has already dispatched its close
    event (the server closed it, or it failed), a [destroy()] call awaits a
    close event that never comes again: after any further events that call
    is still suspended, its promise neither resolved nor rejected. *)
Theorem destroy_hangs_on_closed_socket
    (cfg : SocketSettings) (w : World) (ws : nat) (x : WebSocket) (owner : option nat) :
  reachable cfg w ->
  _ws (self w) = Some ws -> sockets w !! ws = Some x -> closeFired x = true ->
  forall evs w2, run (destroy owner w) evs = Some w2 ->
    exists ws', destroy_phase <$> destroys w2 !! length (destroys w)
                = Some (DestroyClosing ws').
Proof.
  intros Hreach Hws Hx Hcf evs w2 Hrun.
  pose proof (reachable_onclose_wf cfg w Hreach) as Hwf.
  assert (hung (length (destroys w)) (destroy owner w)) as Hh.
  { split.
    - exists ws, owner. rewrite (destroy_destroys owner w ws Hws).
      by rewrite lookup_app_r, Nat.sub_diag.
    - apply Forall_lookup. intros i x' Hx' Hoc.
      destruct (destroy_onclose owner w i x' Hx') as (y & Hy & Hf & [[Hi _]|[Hne Ho]]).
      + rewrite Hws in Hi. injection Hi as <-. rewrite Hf. congruence.
      + unfold onclose_wf in Hwf. rewrite Forall_lookup in Hwf.
        specialize (Hwf i y Hy (length (destroys w))). rewrite <- Ho in Hwf.
        specialize (Hwf Hoc). lia. }
  destruct (hung_run _ evs _ _ Hrun Hh) as [(ws' & o & Hd) _].
  exists ws'. by rewrite Hd.
Qed.

(** C10, at a concrete run: the server closes the connection, the
    application calls [destroy()], waits, and calls it again. *)
Lemma destroy_hangs_on_closed_socket_witness :
  run (init quiet) closed_by_server = Some destroy_hangs /\
  exists w2,
    run destroy_hangs [Tick 60000; CallDestroy] = Some w2 /\
    exists ws, destroy_phase <$> destroys w2 !! 0 = Some (DestroyClosing ws).
Proof.
  split; [vm_compute; reflexivity|].
  eexists. split; [vm_compute; reflexivity|].
  refine (destroy_hangs_on_closed_socket quiet
    (default (init quiet) (run (init quiet) [CallStart; WsOpens 0; WsCloses 0 "going away"]))
    0 {| readyState := CLOSED; closeFired := true; onopen := Some 0; onerror := Some 0;
         onmessage := true; onclose := OnCloseStart |} None _ _ _ _
    [Tick 60000; CallDestroy] _ _).
  - exists [CallStart; WsOpens 0; WsCloses 0 "going away"]. vm_compute. reflexivity.
  - vm_compute. reflexivity.
  - vm_compute. reflexivity.
  - reflexivity.
  - vm_compute. reflexivity.
Defined.

Lemma orphaned_same s w w' :
  sockets w' = sockets w -> starts w' = starts w -> orphaned s w -> orphaned s w'.
Proof. unfold orphaned. by intros -> ->. Qed.

Lemma orphaned_host s w w' : same_host w w' -> orphaned s w -> orphaned s w'.
Proof. intros (H1 & H2 & _). by apply orphaned_same. Qed.

Lemma orphaned_emit_if s c e w : orphaned s w -> orphaned s (emit_if c e w).
Proof. apply orphaned_same; by destruct c. Qed.

Lemma orphaned_settle_start s s' o w :
  s' <> s -> orphaned s w -> orphaned s (settle_start s' o w).
Proof.
  intros Hne H. unfold settle_start.
  destruct (starts w !! s') as [call|]; [|done].
  assert (orphaned s (set_starts (alter (set_start_phase o) s') w)) as H1.
  { destruct H as [[ow Hs] Hf]. split; [|done]. exists ow. simpl. by rewrite list_lookup_alter_ne. }
  destruct (start_phase call); try done;
    (destruct (start_owner call); [|done]);
    (eapply orphaned_host; [apply reconnect_after_start_host | done]).
Qed.

Lemma orphaned_start_after_load s s' rd w :
  s' <> s -> orphaned s w -> orphaned s (start_after_load s' rd w).
Proof.
  intros Hne H. unfold start_after_load.
  set (w1 := match rd with Some _ => _ | None => _ end).
  assert (orphaned s w1) as H1 by (subst w1; destruct rd as [[]|]; by apply (orphaned_same s w)).
  destruct (_ws (self w1)); [|by apply orphaned_settle_start].
  destruct H1 as [[ow Hs] Hf]. split.
  - exists ow. simpl. by rewrite list_lookup_alter_ne.
  - simpl. apply Forall_alter; [done|]. intros x _ _. split; simpl; congruence.
Qed.

Lemma orphaned_start s o w : orphaned s w -> orphaned s (start o w).
Proof.
  intros [[ow Hs] Hf]. unfold start.
  assert (s < length (starts w)) as Hlt by (eapply lookup_lt_Some; eauto).
  set (w1 := set_starts _ _).
  assert (orphaned s w1) as H1.
  { split.
    - exists ow. simpl. by rewrite lookup_app_l.
    - simpl. apply Forall_app. split; [done|]. apply Forall_singleton. by split. }
  destruct (sessionStore (settings w1)); [by apply (orphaned_same s w1)|].
  apply orphaned_start_after_load; [lia | done].
Qed.

Lemma orphaned_destroy s o w : orphaned s w -> orphaned s (destroy o w).
Proof.
  intros H. unfold destroy.
  set (w1 := match _heartbeat (self w) with Some _ => _ | None => _ end).
  assert (orphaned s w1) as [[ow Hs] Hf]
    by (subst w1; destruct (_heartbeat (self w)); by apply (orphaned_same s w)).
  destruct (_ws (self w1)) as [ws|]; [|by split; [exists ow|]].
  split.
  - exists ow. simpl. unfold echo, emit_if. repeat case_match; done.
  - simpl. apply Forall_alter; [|by intros x _ _; split].
    assert (Forall (no_handler s) (alter (set_onclose (OnCloseDestroy (length (destroys w1))))
                                         ws (sockets w1))) as Hf1
      by (apply Forall_alter; [done | by intros x _ Hx]).
    unfold echo, emit_if. repeat case_match; simpl; try done;
      (apply Forall_alter; [done | by intros x _ Hx]).
Qed.

Lemma orphaned_reconnect s clear w : orphaned s w -> orphaned s (reconnect clear w).
Proof.
  intros H. unfold reconnect. destruct (_reconnecting (self w)); [by apply (orphaned_same s w)|].
  set (w1 := set_reconnects _ _).
  assert (orphaned s (destroy (Some (length (reconnects w))) w1)) as H1
    by (apply orphaned_destroy; by apply (orphaned_same s w)).
  repeat case_match; try done.
  eapply orphaned_host; [apply reconnect_after_destroy_host | done].
Qed.

Lemma orphaned_or_throw_send s frame w : orphaned s w -> orphaned s (or_throw w (send frame w)).
Proof.
  intros H. unfold or_throw, send. destruct (_ws (self w)); [|done]. by apply (orphaned_same s w).
Qed.

Lemma orphaned_on_invalid_session s data w : orphaned s w -> orphaned s (on_invalid_session data w).
Proof.
  intros H. unfold on_invalid_session, warn, echo.
  repeat case_match;
    repeat first [apply orphaned_reconnect | apply orphaned_or_throw_send | apply orphaned_emit_if];
    done.
Qed.

Lemma orphaned_handleMessage s data thrown w :
  orphaned s w -> orphaned s (_handleMessage data thrown w).
Proof.
  intros H. destruct data as [text|payload]; [by apply (orphaned_same s w)|].
  unfold _handleMessage, on_op.
  assert (orphaned s (note_sequence (Socket.s payload) w)) as H1
    by (eapply orphaned_host; [apply note_sequence_host | done]).
  repeat case_match.
  - eapply orphaned_host; [apply on_hello_host | done].
  - apply orphaned_emit_if. by apply (orphaned_same s (note_sequence (Socket.s payload) w)).
  - apply orphaned_reconnect. by apply orphaned_emit_if.
  - by apply orphaned_on_invalid_session.
  - eapply orphaned_host; [apply on_dispatch_host | done].
  - done.
Qed.

Lemma orphaned_destroy_after_close s d w : orphaned s w -> orphaned s (destroy_after_close d w).
Proof.
  intros H. unfold destroy_after_close.
  destruct (destroys w !! d) as [call|]; [|done].
  destruct (destroy_phase call); [|done].
  assert (orphaned s (set_destroys (alter (set_destroy_phase (DestroyResolved true)) d)
                                   (echo MSG_DESTROYED w))) as H1.
  { unfold echo. by apply (orphaned_same s (emit_if (debug (settings w)) (ELog Echo MSG_DESTROYED) w));
      [| |apply orphaned_emit_if]. }
  destruct (destroy_owner call); [|done].
  eapply orphaned_host; [apply reconnect_after_destroy_host | done].
Qed.

Lemma orphaned_not_loading s w :
  orphaned s w -> start_phase <$> starts w !! s <> Some StartLoading.
Proof. intros [[ow ->] _]. done. Qed.

Lemma orphaned_no_handler s w ws x :
  orphaned s w -> sockets w !! ws = Some x -> no_handler s x.
Proof.
  intros [_ Hf] Hx. rewrite Forall_forall in Hf. apply Hf. eapply list_elem_of_lookup_2; eauto.
Qed.

Lemma orphaned_step s w e w' : step w e = Some w' -> orphaned s w -> orphaned s w'.
Proof.
  intros Hstep H.
  destruct e as [| |clear|ev h|time|s0 rd|s0 err|ws|ws msg|ws reason|ws data thrown|i|h];
    simpl in Hstep.
  - injection Hstep as <-. by apply orphaned_start.
  - injection Hstep as <-. by apply orphaned_destroy.
  - injection Hstep as <-. by apply orphaned_reconnect.
  - injection Hstep as <-. eapply orphaned_host; [apply listen_host | done].
  - destruct (now w <=? time)%Z; [|done]. injection Hstep as <-. by apply (orphaned_same s w).
  - destruct (start_phase <$> starts w !! s0) as [[]|] eqn:E; try done.
    injection Hstep as <-. apply orphaned_start_after_load; [|done].
    intros ->. by apply (orphaned_not_loading s w).
  - destruct (start_phase <$> starts w !! s0) as [[]|] eqn:E; try done.
    injection Hstep as <-. apply orphaned_settle_start; [|done].
    intros ->. by apply (orphaned_not_loading s w).
  - destruct (sockets w !! ws) as [x|] eqn:Hx; [|done].
    destruct (readyState x); try done. injection Hstep as <-.
    assert (orphaned s (set_sockets (alter (set_readyState OPEN) ws) w)) as H1.
    { destruct H as [Hd Hs]. split; [done|]. simpl. apply Forall_alter; [done | by intros y _ Hy]. }
    destruct (onopen x) as [s'|] eqn:Ho; [|done]. unfold on_open, echo.
    apply orphaned_settle_start.
    + intros ->. by destruct (orphaned_no_handler s w ws x H Hx).
    + apply orphaned_emit_if. by eapply orphaned_same; [| |exact H1].
  - destruct (sockets w !! ws) as [x|] eqn:Hx; [|done].
    assert (orphaned s (set_sockets (alter (set_readyState CLOSED) ws) w)) as H1.
    { destruct H as [Hd Hs]. split; [done|]. simpl. apply Forall_alter; [done | by intros y _ Hy]. }
    assert (forall s', onerror x = Some s' -> orphaned s (on_error s' msg (set_sockets (alter (set_readyState CLOSED) ws) w))) as Herr.
    { intros s' Ho. unfold on_error, fail. apply orphaned_settle_start.
      - intros ->. by destruct (orphaned_no_handler s w ws x H Hx).
      - by eapply orphaned_same; [| |exact H1]. }
    destruct (readyState x); try done; injection Hstep as <-;
      (destruct (onerror x); [by apply Herr | done]).
  - destruct (sockets w !! ws) as [x|] eqn:Hx; [|done].
    destruct (closeFired x) eqn:Hcf; [done|]. injection Hstep as <-.
    set (w1 := set_sockets _ w).
    assert (orphaned s w1) as H1.
    { destruct H as [Hd Hs]. split; [done|]. simpl. apply Forall_alter; [done | by intros y _ Hy]. }
    unfold on_close. destruct (onclose x) as [| |d'] eqn:Hoc; [done| |].
    + unfold warn. by apply orphaned_emit_if.
    + by apply orphaned_destroy_after_close.
  - destruct (sockets w !! ws) as [x|] eqn:Hx; [|done].
    destruct (readyState x); try done; injection Hstep as <-;
      (destruct (onmessage x); [by apply orphaned_handleMessage | done]).
  - destruct (timeouts w !! i) as [[r delay]|]; [|done]. injection Hstep as <-.
    unfold reconnect_timer. apply orphaned_start. by apply (orphaned_same s w).
  - destruct (intervals w !! h) as [[p []]|]; try done. injection Hstep as <-.
    eapply orphaned_host; [apply heartbeat_tick_host | done].
Qed.

Lemma orphaned_run s evs : forall w w', run w evs = Some w' -> orphaned s w -> orphaned s w'.
Proof.
  induction evs as [|e evs IH]; simpl; intros w w' H Hh.
  - by injection H as <-.
  - destruct (step w e) as [w1|] eqn:He; [|done]. eauto using orphaned_step.
Qed.

Lemma settles_refl w : settles w w.
Proof. split; eauto. Qed.

Lemma settles_trans w1 w2 w3 : settles w1 w2 -> settles w2 w3 -> settles w1 w3.
Proof.
  intros [A1 B1] [A2 B2]. split.
  - intros i x' s Hx Hh. destruct (A2 i x' s Hx Hh) as (x2 & Hx2 & Hh2). eauto.
  - intros s c Hs Hp. destruct (B1 s c Hs Hp) as (c2 & Hs2 & Hp2). eauto.
Qed.

Lemma settles_same w w' : sockets w' = sockets w -> starts w' = starts w -> settles w w'.
Proof. intros E1 E2. unfold settles. rewrite E1, E2. split; eauto. Qed.

Lemma settles_host w w' : same_host w w' -> settles w w'.
Proof. intros (H1 & H2 & _). by apply settles_same. Qed.

Lemma settles_wf w w' : settles w w' -> handlers_wf w -> handlers_wf w'.
Proof.
  intros [A B] Hwf ws x' s Hx Hh.
  destruct (A ws x' s Hx Hh) as (x & Hx0 & Hh0).
  destruct (Hwf ws x s Hx0 Hh0) as [(c & Hc & Hp) Huniq]. split.
  - by apply (B s c).
  - intros ws' x'' Hx' Hh'. destruct (A ws' x'' s Hx' Hh') as (y & Hy & Hhy). eauto.
Qed.

(** Changing a socket without adding closures. *)
Lemma settles_alter (f : WebSocket -> WebSocket) ws w :
  (forall x s, has_handler s (f x) -> has_handler s x) ->
  settles w (set_sockets (alter f ws) w).
Proof.
  intros Hf. split; [|eauto]. intros i x' s. simpl. rewrite list_lookup_alter.
  case_decide as E; [|eauto]. subst i.
  destruct (sockets w !! ws) as [x|]; simpl; [|done]. intros [= <-] Hh. eauto.
Qed.

Lemma settles_settle_start s o w : o <> StartLoading -> settles w (settle_start s o w).
Proof.
  intros Ho. unfold settle_start.
  destruct (starts w !! s) as [call|] eqn:Hs; [|apply settles_refl].
  assert (settles w (set_starts (alter (set_start_phase o) s) w)) as H1.
  { split; [eauto|]. intros s' c Hs' Hp. simpl. rewrite list_lookup_alter.
    case_decide as E; [|eauto]. subst s'. rewrite Hs. simpl. eauto. }
  destruct (start_phase call); try apply settles_refl;
    (destruct (start_owner call); [|done]);
    (eapply settles_trans; [exact H1 | apply settles_host, reconnect_after_start_host]).
Qed.

Lemma settles_destroy o w : settles w (destroy o w).
Proof.
  unfold destroy.
  set (w1 := match _heartbeat (self w) with Some _ => _ | None => _ end).
  assert (settles w w1) as H1
    by (subst w1; destruct (_heartbeat (self w)); by apply settles_same).
  eapply settles_trans; [exact H1|].
  destruct (_ws (self w1)) as [ws|]; [|by apply settles_same].
  set (w2 := set_sockets (alter (set_onclose _) ws) w1).
  assert (settles w1 w2) as H2 by (apply settles_alter; by intros x s).
  set (w3 := match ready ws w2 with OPEN | CONNECTING => _ | _ => w2 end).
  assert (settles w2 w3) as H3.
  { subst w3. destruct (ready ws w2); try apply settles_refl;
      (eapply settles_trans; [|apply settles_alter; by intros x s]);
      unfold echo; apply settles_same; simpl; by rewrite ?sockets_emit_if, ?starts_emit_if. }
  eapply settles_trans; [exact H2|]. eapply settles_trans; [exact H3|].
  fold w2. fold w3.
  match goal with |- settles _ (set_destroys _ (set_self _ (set_sockets (alter ?f ?i) ?w0))) =>
    eapply settles_trans; [apply (settles_alter f i w0); by intros x s [|]|] end.
  by apply settles_same.
Qed.

Lemma settles_reconnect clear w : settles w (reconnect clear w).
Proof.
  unfold reconnect. destruct (_reconnecting (self w)); [by apply settles_same|].
  set (w1 := set_reconnects _ _).
  assert (settles w (destroy (Some (length (reconnects w))) w1)) as H1.
  { eapply settles_trans; [|apply settles_destroy]. by apply settles_same. }
  repeat case_match; try done.
  eapply settles_trans; [exact H1 | apply settles_host, reconnect_after_destroy_host].
Qed.

Lemma settles_emit_if c e w : settles w (emit_if c e w).
Proof. apply settles_same; by destruct c. Qed.

Lemma settles_or_throw_send frame w : settles w (or_throw w (send frame w)).
Proof.
  unfold or_throw, send. destruct (_ws (self w)); [by apply settles_same | apply settles_refl].
Qed.

Ltac settles_chain :=
  repeat first
    [ apply settles_refl
    | apply settles_emit_if
    | apply settles_or_throw_send
    | apply settles_reconnect
    | (eapply settles_trans; [|apply settles_reconnect])
    | (eapply settles_trans; [|apply settles_or_throw_send])
    | (eapply settles_trans; [|apply settles_emit_if]) ].

Lemma settles_on_invalid_session data w : settles w (on_invalid_session data w).
Proof. unfold on_invalid_session, warn, echo. repeat case_match; settles_chain. Qed.

Lemma settles_handleMessage data thrown w : settles w (_handleMessage data thrown w).
Proof.
  destruct data as [text|payload]; [by apply settles_same|].
  unfold _handleMessage, on_op.
  eapply settles_trans; [apply settles_host, note_sequence_host|].
  repeat case_match.
  - apply settles_host, on_hello_host.
  - unfold echo. eapply settles_trans; [|apply settles_emit_if]. by apply settles_same.
  - unfold echo. settles_chain.
  - apply settles_on_invalid_session.
  - apply settles_host, on_dispatch_host.
  - apply settles_refl.
Qed.

Lemma settles_destroy_after_close d w : settles w (destroy_after_close d w).
Proof.
  unfold destroy_after_close. repeat case_match; try apply settles_refl.
  - eapply settles_trans; [|apply settles_host, reconnect_after_destroy_host].
    unfold echo. apply settles_same; simpl; by rewrite ?sockets_emit_if, ?starts_emit_if.
  - unfold echo. apply settles_same; simpl; by rewrite ?sockets_emit_if, ?starts_emit_if.
Qed.

Lemma wf_start_after_load s rd w :
  start_phase <$> starts w !! s = Some StartLoading ->
  handlers_wf w -> handlers_wf (start_after_load s rd w).
Proof.
  intros Hload Hwf. unfold start_after_load.
  set (w1 := match rd with Some _ => _ | None => _ end).
  assert (sockets w1 = sockets w /\ starts w1 = starts w) as [Es Et]
    by (subst w1; by destruct rd as [[]|]).
  assert (handlers_wf w1) as Hwf1 by (eapply settles_wf; [by apply settles_same | done]).
  destruct (_ws (self w1)) as [ws|]; [|by eapply settles_wf; [by apply settles_settle_start|]].
  rewrite <- Et in Hload.
  assert (forall i x, sockets w1 !! i = Some x -> ~ has_handler s x) as Hnone.
  { intros i x Hx Hh. destruct (Hwf1 i x s Hx Hh) as [(c & Hc & Hp) _].
    rewrite Hc in Hload. simpl in Hload. congruence. }
  intros i x' s1. simpl. rewrite !list_lookup_alter.
  intros Hx Hh.
  assert (s1 = s /\ i = ws \/ s1 <> s /\ exists x, sockets w1 !! i = Some x /\ has_handler s1 x) as Hcase.
  { case_decide as E.
    - subst i. destruct (sockets w1 !! ws) as [x|]; simpl in Hx; [|done].
      injection Hx as <-. left. split; [|done]. destruct Hh as [Hh|Hh]; simpl in Hh; congruence.
    - right. split; [|eauto]. intros ->. by apply (Hnone i x'). }
  destruct Hcase as [[-> ->]|[Hne (x & Hx0 & Hh0)]].
  - split.
    + rewrite decide_True by done. destruct (starts w1 !! s) as [c|]; [|done]. simpl. eauto.
    + intros ws' x''. rewrite list_lookup_alter.
      destruct (decide (ws = ws')) as [E|E]; [by intros _ _|].
      intros Hx' Hh'. exfalso. by apply (Hnone ws' x'').
  - destruct (Hwf1 i x s1 Hx0 Hh0) as [(c & Hc & Hp) Huniq]. split.
    + rewrite decide_False by done. eauto.
    + intros ws' x''. rewrite list_lookup_alter.
      destruct (decide (ws = ws')) as [E|E].
      * subst ws'. destruct (sockets w1 !! ws) as [y|]; simpl; [|done].
        intros [= <-] [Hh'|Hh']; simpl in Hh'; congruence.
      * eauto.
Qed.

Lemma wf_start o w : handlers_wf w -> handlers_wf (start o w).
Proof.
  intros Hwf. unfold start.
  set (w1 := set_starts _ _).
  assert (handlers_wf w1) as Hwf1.
  { eapply settles_wf; [|exact Hwf]. split; simpl.
    - intros i x' s Hx Hh. apply lookup_app_Some in Hx as [Hx|[_ Hx]]; [eauto|].
      destruct (i - length (sockets w)) as [|n]; simpl in Hx; [|done].
      injection Hx as <-. by destruct Hh.
    - intros s c Hs Hp. exists c. split; [|done]. apply lookup_app_l_Some. done. }
  destruct (sessionStore (settings w1)); [by eapply settles_wf; [by apply settles_same|]|].
  apply wf_start_after_load; [|done]. subst w1. simpl.
  by rewrite lookup_app_r, Nat.sub_diag.
Qed.

Lemma wf_step w e w' : step w e = Some w' -> handlers_wf w -> handlers_wf w'.
Proof.
  intros Hstep H.
  destruct e as [| |clear|ev h|time|s0 rd|s0 err|ws|ws msg|ws reason|ws data thrown|i|h];
    simpl in Hstep.
  - injection Hstep as <-. by apply wf_start.
  - injection Hstep as <-. eapply settles_wf; [apply settles_destroy | done].
  - injection Hstep as <-. eapply settles_wf; [apply settles_reconnect | done].
  - injection Hstep as <-. eapply settles_wf; [apply settles_host, listen_host | done].
  - destruct (now w <=? time)%Z; [|done]. injection Hstep as <-.
    eapply settles_wf; [by apply settles_same | done].
  - destruct (start_phase <$> starts w !! s0) as [[]|] eqn:E; try done.
    injection Hstep as <-. by apply wf_start_after_load.
  - destruct (start_phase <$> starts w !! s0) as [[]|] eqn:E; try done.
    injection Hstep as <-. eapply settles_wf; [by apply settles_settle_start | done].
  - destruct (sockets w !! ws) as [x|] eqn:Hx; [|done].
    destruct (readyState x); try done. injection Hstep as <-.
    eapply settles_wf; [|exact H].
    eapply settles_trans; [apply (settles_alter (set_readyState OPEN) ws); by intros y s|].
    destruct (onopen x); [|apply settles_refl]. unfold on_open, echo.
    eapply settles_trans; [|by apply settles_settle_start].
    eapply settles_trans; [|apply settles_emit_if]. by apply settles_same.
  - destruct (sockets w !! ws) as [x|] eqn:Hx; [|done].
    assert (settles w (match onerror x with
                       | Some s => on_error s msg (set_sockets (alter (set_readyState CLOSED) ws) w)
                       | None => set_sockets (alter (set_readyState CLOSED) ws) w end)) as Hs.
    { eapply settles_trans; [apply (settles_alter (set_readyState CLOSED) ws); by intros y s|].
      destruct (onerror x); [|apply settles_refl]. unfold on_error, fail.
      eapply settles_trans; [|by apply settles_settle_start]. by apply settles_same. }
    destruct (readyState x); try done; injection Hstep as <-; by eapply settles_wf.
  - destruct (sockets w !! ws) as [x|] eqn:Hx; [|done].
    destruct (closeFired x) eqn:Hcf; [done|]. injection Hstep as <-.
    eapply settles_wf; [|exact H].
    match goal with |- settles _ (on_close _ _ (set_sockets (alter ?f ?i) ?w0)) =>
      eapply settles_trans; [apply (settles_alter f i w0); by intros y s|] end.
    unfold on_close. destruct (onclose x); [apply settles_refl| |].
    + unfold warn. apply settles_emit_if.
    + apply settles_destroy_after_close.
  - destruct (sockets w !! ws) as [x|] eqn:Hx; [|done].
    assert (settles w (if onmessage x then _handleMessage data thrown w else w)) as Hs
      by (destruct (onmessage x); [apply settles_handleMessage | apply settles_refl]).
    destruct (readyState x); try done; injection Hstep as <-; by eapply settles_wf.
  - destruct (timeouts w !! i) as [[r delay]|]; [|done]. injection Hstep as <-.
    unfold reconnect_timer. apply wf_start. eapply settles_wf; [by apply settles_same | done].
  - destruct (intervals w !! h) as [[p []]|]; try done. injection Hstep as <-.
    eapply settles_wf; [apply settles_host, heartbeat_tick_host | done].
Qed.

Lemma reachable_wf cfg w : reachable cfg w -> handlers_wf w.
Proof.
  intros [evs H].
  assert (handlers_wf (init cfg)) as H0 by (intros ws x s Hx; inversion Hx).
  revert H. generalize (init cfg) H0. induction evs as [|e evs IH]; simpl; intros w0 Hw0 H.
  - by injection H as <-.
  - destruct (step w0 e) as [w1|] eqn:He; [|done]. eauto using wf_step.
Qed.

(** ** destroy() while start() is pending *)
(** C7 as stated fails: [start()], then [destroy()], then the close event:
    [destroy()] has resolved to true and the [start()] promise is neither
    resolved nor rejected. *)
Lemma destroy_leaves_start_pending :
  let w := default (init quiet) (run (init quiet) [CallStart; CallDestroy; WsCloses 0 ""]) in
  destroys w = [{| destroy_phase := DestroyResolved true; destroy_owner := None |}] /\
  starts w = [{| start_phase := StartOpening; start_owner := None |}].
Proof. vm_compute. split; reflexivity. Qed.

Lemma destroy_self o w :
  _heartbeat (self (destroy o w)) = None /\ _ws (self (destroy o w)) = None /\
  starts (destroy o w) = starts w /\
  forall h, _heartbeat (self w) = Some h ->
    snd <$> intervals (destroy o w) !! h = (fun _ => false) <$> intervals w !! h.
Proof.
  unfold destroy, echo, emit_if.
  destruct (_heartbeat (self w)) as [h|] eqn:Hh; simpl; repeat case_match; simpl;
    split_and!; try done; intros h' [= <-];
    rewrite list_lookup_alter_eq; by destruct (intervals w !! h).
Qed.

Lemma destroy_sockets o w i x' :
  sockets (destroy o w) !! i = Some x' ->
  exists x, sockets w !! i = Some x /\
    (_ws (self w) = Some i /\ onopen x' = None /\ onerror x' = None \/
     _ws (self w) <> Some i /\ x' = x).
Proof.
  unfold destroy.
  set (w1 := match _heartbeat (self w) with Some _ => _ | None => _ end).
  assert (sockets w1 = sockets w /\ _ws (self w1) = _ws (self w)) as [Es Ew]
    by (subst w1; by destruct (_heartbeat (self w))).
  rewrite Ew, <- Es. destruct (_ws (self w)) as [ws|].
  2:{ simpl. intros Hx. exists x'. split; [done|]. by right. }
  simpl. rewrite list_lookup_alter.
  destruct (decide (ws = i)) as [->|Hne].
  - intros Hx.
    assert (exists y, sockets w1 !! i = Some y) as [y Hy].
    { destruct (sockets w1 !! i) as [y|] eqn:E; [eauto|]. exfalso.
      assert (forall w2 : World, sockets w2 !! i = None -> sockets w2 !! i = None) by done.
      revert Hx. unfold echo, emit_if.
      repeat case_match; simpl; rewrite ?list_lookup_alter_eq, ?E; simpl;
        rewrite ?list_lookup_alter_eq, ?E; simpl; done. }
    exists y. split; [done|]. left. split; [done|].
    destruct (sockets _ !! i); simpl in Hx; [|done]. injection Hx as <-. done.
  - intros Hx. exists x'. split; [|right; split; [congruence | done]].
    revert Hx. unfold echo, emit_if.
    repeat case_match; simpl; rewrite ?list_lookup_alter_ne by done; simpl;
      rewrite ?list_lookup_alter_ne by done; done.
Qed.

Lemma destroy_closes o w ws x :
  _ws (self w) = Some ws -> sockets w !! ws = Some x ->
  readyState x = OPEN \/ readyState x = CONNECTING ->
  EClose ws 1000 MSG_DESTROYED ∈ since w (destroy o w) /\ ready ws (destroy o w) = CLOSING.
Proof.
  intros Hws Hx Hrs. unfold destroy, since, ready.
  destruct (_heartbeat (self w)) as [h|]; simpl; rewrite Hws; simpl;
    unfold ready; simpl; rewrite list_lookup_alter_eq, Hx; simpl;
    destruct Hrs as [-> | ->]; simpl;
    unfold echo, emit_if; case_match; simpl;
    rewrite !list_lookup_alter_eq, Hx; simpl;
    rewrite <- ?app_assoc, drop_app_length; (split; [set_solver | done]).
Qed.

(** C7, amended.  When [destroy()] is called while the [start()] promise
    of the current socket is pending, it disarms the heartbeat timer,
    forgets the socket, closes it with code 1000 if it was open or
    connecting, and removes the closures that could settle that promise:
    after any further events the promise is still pending, it is never
    rejected. *)
Theorem destroy_abandons_pending_start
    (cfg : SocketSettings) (w : World) (ws s : nat) (x : WebSocket) (owner : option nat) :
  reachable cfg w ->
  _ws (self w) = Some ws -> sockets w !! ws = Some x -> onopen x = Some s ->
  start_phase <$> starts w !! s = Some StartOpening ->
  let w1 := destroy owner w in
  _heartbeat (self w1) = None /\
  (forall h, _heartbeat (self w) = Some h ->
     snd <$> intervals w1 !! h = (fun _ => false) <$> intervals w !! h) /\
  _ws (self w1) = None /\
  (readyState x = OPEN \/ readyState x = CONNECTING ->
     EClose ws 1000 MSG_DESTROYED ∈ since w w1 /\ ready ws w1 = CLOSING) /\
  forall evs w2, run w1 evs = Some w2 ->
    start_phase <$> starts w2 !! s = Some StartOpening.
Proof.
  intros Hreach Hws Hx Hopen Hphase w1.
  destruct (destroy_self owner w) as (H1 & H2 & H3 & H4). fold w1 in H1, H2, H3, H4.
  split_and!; try done.
  - intros Hrs. by apply (destroy_closes owner w ws x).
  - intros evs w2 Hrun.
    assert (orphaned s w1) as Ho.
    { split.
      - rewrite H3. destruct (starts w !! s) as [[p o]|]; simpl in Hphase; [|done].
        injection Hphase as ->. eauto.
      - apply Forall_lookup. intros i x' Hx'.
        destruct (destroy_sockets owner w i x' Hx') as (y & Hy & [(_ & Ho & He)|[Hne ->]]).
        + split; congruence.
        + destruct (reachable_wf cfg w Hreach ws x s Hx (or_introl Hopen)) as [_ Huniq].
          split; intros Hh.
          * apply Hne. rewrite Hws. f_equal. symmetry. apply (Huniq i y Hy). by left.
          * apply Hne. rewrite Hws. f_equal. symmetry. apply (Huniq i y Hy). by right. }
    destruct (orphaned_run s evs w1 w2 Hrun Ho) as [[o ->] _]. done.
Qed.

(** C7, amended, at a concrete input: [destroy()] right after
    [start()]. *)
Lemma destroy_abandons_pending_start_witness :
  exists w2,
    run (destroy None (default (init quiet) (run (init quiet) [CallStart])))
        [WsCloses 0 "bye"; Tick 5] = Some w2 /\
    start_phase <$> starts w2 !! 0 = Some StartOpening.
Proof.
  eexists. split; [vm_compute; reflexivity|].
  refine (proj2 (proj2 (proj2 (proj2 (destroy_abandons_pending_start quiet
    (default (init quiet) (run (init quiet) [CallStart])) 0 0
    {| readyState := CONNECTING; closeFired := false; onopen := Some 0;
       onerror := Some 0; onmessage := true; onclose := OnCloseStart |} None _ _ _ _ _))))
    [WsCloses 0 "bye"; Tick 5] _ _).
  - exists [CallStart]. reflexivity.
  - reflexivity.
  - reflexivity.
  - reflexivity.
  - reflexivity.
  - vm_compute. reflexivity.
Defined.


(** C9, amended, at a concrete input with [warns] set. *)
Lemma listen_replaces_handler_witness :
  let w := listen "MESSAGE_CREATE" 1 (init verbose) in
  let w' := listen "MESSAGE_CREATE" 2 w in
  events (self w') !! "MESSAGE_CREATE" = Some 2 /\
  since w w' = [ELog Warn (MSG_LISTENER_REPLACED "MESSAGE_CREATE")].
Proof.
  cbv zeta.
  destruct (listen_replaces_handler (listen "MESSAGE_CREATE" 1 (init verbose))
    "MESSAGE_CREATE" 1 2) as (H1 & H2 & _); [reflexivity | discriminate |].
  split; [exact H1 | exact H2].
Defined.

(** ** destroy() where it does complete *)
Lemma destroy_without_socket o w :
  _ws (self w) = None ->
  destroys (destroy o w) =
    destroys w ++ [{| destroy_phase := DestroyResolved true; destroy_owner := o |}].
Proof.
  intros Hws. unfold destroy. destruct (_heartbeat (self w)); simpl; by rewrite Hws.
Qed.

Lemma destroy_resolves_on_close w ws x d ws' o reason :
  sockets w !! ws = Some x -> closeFired x = false -> onclose x = OnCloseDestroy d ->
  destroys w !! d = Some {| destroy_phase := DestroyClosing ws'; destroy_owner := o |} ->
  exists w', step w (WsCloses ws reason) = Some w' /\
    destroy_phase <$> destroys w' !! d = Some (DestroyResolved true).
Proof.
  intros Hx Hcf Hoc Hd. eexists. simpl. rewrite Hx, Hcf, Hoc. split; [reflexivity|].
  unfold on_close, destroy_after_close. simpl. rewrite Hd. simpl.
  assert (destroy_phase <$> destroys (set_destroys
            (alter (set_destroy_phase (DestroyResolved true)) d)
            (echo MSG_DESTROYED (set_sockets (alter (fun x0 =>
               {| readyState := CLOSED; closeFired := true; onopen := onopen x0;
                  onerror := onerror x0; onmessage := onmessage x0;
                  onclose := onclose x0 |}) ws) w))) !! d = Some (DestroyResolved true)) as H.
  { simpl. unfold echo. rewrite list_lookup_alter_eq, destroys_emit_if. simpl. by rewrite Hd. }
  destruct o as [r|]; [|exact H].
  destruct (reconnect_after_destroy_host r (set_destroys
            (alter (set_destroy_phase (DestroyResolved true)) d)
            (echo MSG_DESTROYED (set_sockets (alter (fun x0 =>
               {| readyState := CLOSED; closeFired := true; onopen := onopen x0;
                  onerror := onerror x0; onmessage := onmessage x0;
                  onclose := onclose x0 |}) ws) w)))) as (_ & _ & ->).
  exact H.
Qed.

(** [ping] is never negative and is the difference when the ack followed
    the ping. *)
Lemma ping_nonneg o : (0 <= ping o)%Z.
Proof. unfold ping. destruct (_ >=? 0)%Z eqn:E; lia. Qed.

Lemma ping_delta o : (_lastPing o <= _lastACK o)%Z -> ping o = (_lastACK o - _lastPing o)%Z.
Proof. intros H. unfold ping. destruct (_ >=? 0)%Z eqn:E; lia. Qed.

(** ** The model on small runs *)

(** Hello arms the heartbeat interval and identifies, once. *)
Example hello_identifies :
  (fun w => (intervals w, trace w)) <$>
    run (init quiet) [CallStart; WsOpens 0; WsMessage 0 (Parsed hello_frame) None]
  = Some ([(41250%Z, true)], [ESend 0 (IdentifyFrame "Bot t" 513)]).
Proof. vm_compute. reflexivity. Qed.

(** A heartbeat carries the last sequence number. *)
Example heartbeat_carries_sequence :
  since session_world <$> run session_world [IntervalFires 0]
  = Some [ESend 0 (HeartbeatFrame (Some 41%Z)); ELog Echo MSG_PING_SENT].
Proof. vm_compute. reflexivity. Qed.

(** InvalidSession without a session: [reconnect(true)], which closes the
    socket and waits for its close event. *)
Example invalid_session_without_session :
  (fun w => (reconnects w, destroys w, trace w)) <$>
    run (init quiet) [CallStart; WsOpens 0; WsMessage 0 (Parsed hello_frame) None;
                      WsMessage 0 (Parsed (invalid_session_frame true)) None]
  = Some ([{| rc_clear := true; rc_phase := ReconnectDestroying |}],
          [{| destroy_phase := DestroyClosing 0; destroy_owner := Some 0 |}],
          [ESend 0 (IdentifyFrame "Bot t" 513); EClose 0 1000 MSG_DESTROYED]).
Proof. vm_compute. reflexivity. Qed.

(** A frame that does not parse is logged and dropped. *)
Example malformed_frame_is_dropped :
  since session_world <$> run session_world [WsMessage 0 (Malformed "{") None]
  = Some [ELog Fail (MSG_JSON_INVALID "{")].
Proof. vm_compute. reflexivity. Qed.

End SocketProofs.

Module DictionaryProofs.
Import Dictionary.

Section Proofs.
Context {Key : Type} `{EqDecision Key}.

Lemma Map_set_keys {Value} (k : Key) (v : Value) l :
  (Map_set k v l).*1 = l.*1 ++ (if decide (k ∈ l.*1) then [] else [k]).
Proof.
  induction l as [|[k' v'] l IH].
  - cbn [Map_set fmap list_fmap app]. destruct (decide (k ∈ [])); [set_solver | done].
  - cbn [Map_set]. destruct (decide (k' = k)) as [->|Hne].
    + rewrite !fmap_cons. cbn [fst]. destruct (decide (k ∈ k :: l.*1)); [|set_solver].
      by rewrite app_nil_r.
    + rewrite !fmap_cons, IH. cbn [fst]. rewrite <- app_comm_cons. f_equal. f_equal.
      destruct (decide (k ∈ l.*1)), (decide (k ∈ k' :: l.*1)); set_solver.
Qed.

Lemma Map_set_NoDup {Value} (k : Key) (v : Value) l :
  NoDup l.*1 -> NoDup (Map_set k v l).*1.
Proof.
  intros H. rewrite Map_set_keys. destruct (decide (k ∈ l.*1)).
  - by rewrite app_nil_r.
  - apply NoDup_app. split_and!; [done | set_solver | apply NoDup_singleton].
Qed.

Lemma Map_set_length {Value} (k : Key) (v : Value) l :
  length (Map_set k v l) = if decide (k ∈ l.*1) then length l else S (length l).
Proof.
  rewrite <- (length_fmap fst (Map_set k v l)), Map_set_keys, length_app, length_fmap.
  destruct (decide _); simpl; lia.
Qed.

Lemma Map_get_set {Value} (k k' : Key) (v : Value) l :
  Map_get k' (Map_set k v l) = if decide (k' = k) then Some v else Map_get k' l.
Proof.
  induction l as [|[k0 v0] l IH]; simpl.
  - destruct (decide (k = k')), (decide (k' = k)); congruence.
  - destruct (decide (k0 = k)) as [->|Hne]; simpl.
    + destruct (decide (k = k')), (decide (k' = k)); congruence.
    + rewrite IH. destruct (decide (k0 = k')), (decide (k' = k)); congruence.
Qed.

Lemma Map_get_None {Value} (k : Key) (l : list (Key * Value)) :
  Map_get k l = None <-> k ∉ l.*1.
Proof.
  induction l as [|[k0 v0] l IH]; simpl; [set_solver|].
  destruct (decide (k0 = k)) as [->|Hne]; [set_solver|].
  rewrite IH. set_solver.
Qed.

Lemma fold_Map_set_keys_NoDup {Value} (items acc : list (Key * Value)) :
  NoDup acc.*1 -> NoDup (fold_left (fun m kv => Map_set kv.1 kv.2 m) items acc).*1.
Proof.
  revert acc. induction items as [|[k v] items IH]; intros acc H; simpl; [done|].
  apply IH, Map_set_NoDup, H.
Qed.

Lemma fold_Map_set_length {Value} (items acc : list (Key * Value)) :
  length (fold_left (fun m kv => Map_set kv.1 kv.2 m) items acc) <= length acc + length items.
Proof.
  revert acc. induction items as [|[k v] items IH]; intros acc; simpl; [lia|].
  etrans; [apply IH|]. rewrite Map_set_length. destruct (decide _); lia.
Qed.

Lemma fold_Map_set_distinct {Value} (items acc : list (Key * Value)) :
  NoDup (acc ++ items).*1 ->
  fold_left (fun m kv => Map_set kv.1 kv.2 m) items acc = acc ++ items.
Proof.
  revert acc. induction items as [|[k v] items IH]; intros acc H; simpl.
  - by rewrite app_nil_r.
  - assert (Map_set k v acc = acc ++ [(k, v)]) as ->.
    { rewrite fmap_app in H. apply NoDup_app in H as (_ & Hd & _).
      assert (k ∉ acc.*1) as Hk by (intros Hin; apply (Hd k Hin); simpl; set_solver).
      clear -Hk. induction acc as [|[k0 v0] acc IH]; simpl; [done|].
      rewrite decide_False by set_solver. f_equal. apply IH. set_solver. }
    rewrite IH; rewrite <- app_assoc; done.
Qed.

Lemma Map_of_NoDup {Value} (items : list (Key * Value)) : NoDup (Map_of items).*1.
Proof. apply fold_Map_set_keys_NoDup. constructor. Qed.

Lemma Map_of_length {Value} (items : list (Key * Value)) : length (Map_of items) <= length items.
Proof. apply (fold_Map_set_length items []). Qed.

Lemma Map_of_distinct {Value} (items : list (Key * Value)) : NoDup items.*1 -> Map_of items = items.
Proof. intros H. apply (fold_Map_set_distinct items []), H. Qed.

End Proofs.

Lemma Math_round_int (n : Z) : Math_round (inject_Z n) = n.
Proof.
  unfold Math_round.
  assert (Qfloor (inject_Z n + (1 # 2)) <= n /\ n <= Qfloor (inject_Z n + (1 # 2)))%Z; [|lia].
  split.
  - apply Z.lt_succ_r. rewrite Zlt_Qlt.
    eapply Qle_lt_trans; [apply Qfloor_le|].
    unfold Z.succ. rewrite inject_Z_plus. change (inject_Z 1) with 1%Q.
    generalize (inject_Z n). intros q. lra.
  - rewrite <- (Qfloor_Z n) at 1. apply Qfloor_resp_le.
    generalize (inject_Z n). intros q. lra.
Qed.

Lemma Math_round_pos (q : Q) : (0 < q)%Q -> (0 <= Math_round q)%Z.
Proof.
  intros H. unfold Math_round. rewrite <- (Qfloor_Z 0). apply Qfloor_resp_le.
  change (inject_Z 0) with 0%Q. lra.
Qed.

Lemma Math_round_small (q : Q) : (0 < q)%Q -> (q < 1 # 2)%Q -> Math_round q = 0%Z.
Proof.
  intros H0 H1. pose proof (Math_round_pos q H0).
  assert (Math_round q < 1)%Z; [|lia].
  unfold Math_round. rewrite Zlt_Qlt. eapply Qle_lt_trans; [apply Qfloor_le|].
  change (inject_Z 1) with 1%Q. lra.
Qed.


Lemma Qltb_inject (n : Z) : Qltb 0 (inject_Z n) = (0 <? n)%Z.
Proof.
  destruct (0 <? n)%Z eqn:E.
  - apply Qltb_lt. change 0%Q with (inject_Z 0). rewrite <- Zlt_Qlt. lia.
  - apply Qltb_ge. change 0%Q with (inject_Z 0). rewrite <- Zle_Qle. lia.
Qed.

Lemma EFFECTIVE_LIMIT_again (l : Limit) : EFFECTIVE_LIMIT (Some (number_of l)) = again l.
Proof.
  destruct l as [n|]; [|done]. simpl. rewrite Qltb_inject, Math_round_int. done.
Qed.

Section Theorems.
Context {Key : Type} `{EqDecision Key}.

Lemma new_wf {Value} (iterable : option (list (Key * Value))) l n : wf (new iterable l n).
Proof.
  unfold wf, new, size. cbn [entries limit name]. split_and!.
  - apply Map_of_NoDup.
  - destruct (EFFECTIVE_LIMIT l) as [m|] eqn:E; [|done].
    assert (0 <= m)%Z as Hm.
    { destruct l as [[q| | |]|]; simpl in E; try discriminate.
      destruct (Qltb 0 q) eqn:Hq; [|discriminate]. injection E as <-.
      apply Math_round_pos, Qltb_lt, Hq. }
    destruct iterable as [items|].
    + pose proof (Map_of_length (take (Z.to_nat m) items)) as H1.
      rewrite length_take in H1. lia.
    + simpl. lia.
  - destruct n as [text|]; [|done]. destruct (String.eqb text "") eqn:E; [done|].
    by apply String.eqb_neq in E.
Qed.

Lemma set_wf {Value} (k : Key) (v : Value) d : wf d -> wf (set k v d).1.
Proof.
  intros Hwf. unfold set. destruct (full d) eqn:Hfull; [done|].
  destruct Hwf as (Hnd & Hsz & Hname). unfold full in Hfull.
  unfold wf, size in *. cbn [fst entries limit name]. split_and!.
  - by apply Map_set_NoDup.
  - destruct (Dictionary.limit d) as [m|]; [|done]. apply Z.leb_gt in Hfull.
    rewrite Map_set_length. destruct (decide _); lia.
  - done.
Qed.

(** The constructor on the entries of a dictionary it is handed, with that
    dictionary's limit and name: nothing is cut. *)
Lemma new_again {Value T} (d : Dictionary Key Value) (items : list (Key * T)) :
  wf d -> NoDup items.*1 -> length items <= size d ->
  new (Some items) (Some (number_of (limit d))) (Some (name d)) =
    {| entries := items; limit := again (limit d); name := name d |}.
Proof.
  intros (_ & Hsz & Hname) Hnd Hlen. unfold new. rewrite EFFECTIVE_LIMIT_again.
  assert ((if String.eqb (name d) "" then "unknown" else name d) = name d) as ->.
  { destruct (String.eqb (name d) "") eqn:E; [|done]. by apply String.eqb_eq in E. }
  f_equal. destruct (limit d) as [m|]; simpl.
  - destruct (0 <? m)%Z eqn:E.
    + rewrite take_ge by lia. by apply Map_of_distinct.
    + by apply Map_of_distinct.
  - by apply Map_of_distinct.
Qed.

Lemma again_wf {Value T} (d : Dictionary Key Value) (items : list (Key * T)) :
  wf d -> NoDup items.*1 -> length items <= size d ->
  wf {| entries := items; limit := again (limit d); name := name d |}.
Proof.
  intros (_ & Hsz & Hname) Hnd Hlen. unfold wf, size in *. cbn [entries limit name].
  split_and!; [done| |done].
  destruct (limit d) as [m|]; simpl; [|done]. destruct (0 <? m)%Z; [lia|done].
Qed.

Lemma filter_keys_NoDup {Value} (P : Key * Value -> bool) (l : list (Key * Value)) :
  NoDup l.*1 -> NoDup (List.filter P l).*1.
Proof.
  induction l as [|[k v] l IH]; simpl; [done|]. rewrite NoDup_cons. intros [Hk Hnd].
  destruct (P (k, v)); [|by apply IH]. simpl. apply NoDup_cons. split; [|by apply IH].
  intros Hin. apply Hk. apply list_elem_of_fmap in Hin as ([k' v'] & -> & Hin).
  apply list_elem_of_fmap. exists (k', v'). split; [done|].
  apply list_elem_of_In, filter_In in Hin as [Hin _]. by apply list_elem_of_In.
Qed.

Lemma filter_length_le {A} (P : A -> bool) (l : list A) : length (List.filter P l) <= length l.
Proof. induction l as [|x l IH]; simpl; [lia|]. destruct (P x); simpl; lia. Qed.

Lemma map_keys {Value T D} (g : Value -> Key -> D -> T) (d0 : D) (l : list (Key * Value)) :
  (List.map (fun kv => (kv.1, g kv.2 kv.1 d0)) l).*1 = l.*1.
Proof.
  induction l as [|[k v] l IH]; [done|]. cbn [List.map]. rewrite !fmap_cons. f_equal. apply IH.
Qed.

Lemma filter_entries {Value} f (d : Dictionary Key Value) :
  wf d ->
  filter f d = {| entries := List.filter (fun kv => f kv.2 kv.1 d) (entries d);
                  limit := again (limit d); name := name d |}.
Proof.
  intros Hwf. unfold filter. apply new_again; [done| |apply filter_length_le].
  apply filter_keys_NoDup, Hwf.
Qed.

Lemma map_entries {Value T} (g : Value -> Key -> Dictionary Key Value -> T) (d : Dictionary Key Value) :
  wf d ->
  map g d = {| entries := List.map (fun kv => (kv.1, g kv.2 kv.1 d)) (entries d);
               limit := again (limit d); name := name d |}.
Proof.
  intros Hwf. unfold map. apply new_again; [done| |by rewrite length_map].
  rewrite map_keys. apply Hwf.
Qed.

Lemma clone_entries {Value} (d : Dictionary Key Value) :
  wf d -> clone d = {| entries := entries d; limit := again (limit d); name := name d |}.
Proof. intros Hwf. unfold clone. apply new_again; [done|apply Hwf|done]. Qed.

Lemma built_wf {Value} (d : Dictionary Key Value) : built d -> wf d.
Proof.
  induction 1 as [V it l n|V k v d _ IH|V f d _ IH|V T g d _ IH|V d _ IH].
  - apply new_wf.
  - by apply set_wf.
  - rewrite filter_entries by done. apply again_wf; [done| |apply filter_length_le].
    apply filter_keys_NoDup, IH.
  - rewrite map_entries by done. apply again_wf; [done| |by rewrite length_map].
    rewrite map_keys. apply IH.
  - rewrite clone_entries by done. apply again_wf; [done|apply IH|done].
Qed.

(** X1.  A dictionary that was made by the constructor and then passed
    through [set], [filter], [map] and [clone] has pairwise distinct keys
    and never holds more entries than its limit, so that [remaining()] is
    never negative. *)
Theorem built_within_limit {Value} (d : Dictionary Key Value) :
  built d ->
  NoDup (entries d).*1 /\
  match limit d with Finite n => (Z.of_nat (size d) <= n)%Z | Infinity => True end /\
  match remaining d with Finite r => (0 <= r)%Z | Infinity => True end.
Proof.
  intros Hb. destruct (built_wf d Hb) as (Hnd & Hsz & _). split_and!; [done|done|].
  unfold remaining. destruct (limit d); [lia|done].
Qed.

(** X2.  [set] on a dictionary that has reached its limit stores nothing
    and logs one warning, also when the key is already present.  Otherwise
    it logs nothing; afterwards the key has the new value and every other
    key the value it had, a key that was present keeps its place and a new
    key goes last, and limit and name are unchanged. *)
Theorem set_stores_unless_full {Value} (key : Key) (value : Value) (d : Dictionary Key Value) :
  if full d then set key value d = (d, [ReachedLimit (name d) (limit d)])
  else
    let d' := (set key value d).1 in
    (set key value d).2 = [] /\
    get key d' = Some value /\
    (forall k, k <> key -> get k d' = get k d) /\
    (entries d').*1 = (entries d).*1 ++ (if has key d then [] else [key]) /\
    (has key d = false -> last d' = Some value) /\
    limit d' = limit d /\ name d' = name d.
Proof.
  unfold set. destruct (full d); [done|]. cbn zeta. cbn [fst snd].
  unfold get, has, last. cbn [entries limit name]. split_and!; try done.
  - rewrite Map_get_set. by rewrite decide_True.
  - intros k Hk. rewrite Map_get_set. by rewrite decide_False.
  - rewrite Map_set_keys. unfold bool_decide. by destruct (decide_rel _ _ _), (decide _).
  - intros Hno. apply bool_decide_eq_false in Hno.
    assert (Map_set key value (entries d) = entries d ++ [(key, value)]) as ->.
    { clear -Hno. induction (entries d) as [|[k0 v0] l IH]; simpl; [done|].
      rewrite decide_False by set_solver. f_equal. apply IH. set_solver. }
    rewrite fmap_app. simpl. apply last_snoc.
Qed.

(** X5.  [clone], [filter] and [map] of a dictionary that the methods
    built hand back the entries of the original in their order (all of
    them, those the callback accepts, each with its value mapped), under
    the same name and with the same limit, except that a limit of 0 comes
    back as no limit at all. *)
Theorem copies_keep_every_entry {Value T} (d : Dictionary Key Value)
    (f : Value -> Key -> Dictionary Key Value -> bool)
    (g : Value -> Key -> Dictionary Key Value -> T) :
  built d ->
  let handed_back := match limit d with
                     | Finite n => if (0 <? n)%Z then Finite n else Infinity
                     | Infinity => Infinity
                     end in
  clone d = {| entries := entries d; limit := handed_back; name := name d |} /\
  filter f d = {| entries := List.filter (fun kv => f kv.2 kv.1 d) (entries d);
                  limit := handed_back; name := name d |} /\
  map g d = {| entries := List.map (fun kv => (kv.1, g kv.2 kv.1 d)) (entries d);
               limit := handed_back; name := name d |}.
Proof.
  intros Hb. pose proof (built_wf d Hb) as Hwf. cbn zeta. split_and!.
  - by apply clone_entries.
  - by apply filter_entries.
  - by apply map_entries.
Qed.

Lemma find_app_or {A} (P : A -> bool) (l1 l2 : list A) :
  List.find P (l1 ++ l2) =
    match List.find P l1 with Some x => Some x | None => List.find P l2 end.
Proof. induction l1 as [|x l1 IH]; [done|]. simpl. by destruct (P x). Qed.

Lemma fold_Map_set_get {Value} (key : Key) (items acc : list (Key * Value)) :
  Map_get key (fold_left (fun m kv => Map_set kv.1 kv.2 m) items acc) =
    match List.find (fun kv => bool_decide (kv.1 = key)) (rev items) with
    | Some kv => Some kv.2
    | None => Map_get key acc
    end.
Proof.
  revert acc. induction items as [|[k v] items IH]; intros acc; [done|].
  cbn [fold_left rev]. rewrite IH, find_app_or. cbn [fst snd].
  destruct (List.find _ (rev items)); [done|]. cbn [List.find fst snd].
  rewrite Map_get_set. unfold bool_decide.
  destruct (decide_rel eq k key), (decide (key = k)); simpl; congruence.
Qed.


(** X3.  The limit of the constructor.  A limit that is left out, NaN,
    an infinity, zero or negative gives the dictionary built without a
    limit, which is unlimited.  A positive limit is rounded to the nearest
    integer, a positive integer is kept.  A positive limit below one half
    is rounded to 0: the dictionary is empty whatever the iterable holds
    and refuses every [set]. *)
Theorem limit_is_normalised {Value} (iterable : option (list (Key * Value))) (name : option string) :
  (forall l, l = None \/ l = Some NaN \/ l = Some PosInf \/ l = Some NegInf \/
             (exists q, l = Some (Fin q) /\ (q <= 0)%Q) ->
     new iterable l name = new iterable None name /\ limit (new iterable l name) = Infinity) /\
  (forall q, (0 < q)%Q ->
     exists n, limit (new iterable (Some (Fin q)) name) = Finite n /\
       (q - (1 # 2) < inject_Z n)%Q /\ (inject_Z n <= q + (1 # 2))%Q) /\
  (forall n, (0 < n)%Z -> limit (new iterable (Some (Fin (inject_Z n))) name) = Finite n) /\
  (forall q, (0 < q)%Q -> (q < 1 # 2)%Q ->
     let d := new iterable (Some (Fin q)) name in
     limit d = Finite 0 /\ entries d = [] /\
     forall key value, set key value d = (d, [ReachedLimit (Dictionary.name d) (Finite 0)])).
Proof.
  split_and!.
  - intros l [->|[->|[->|[->|(q & -> & Hq)]]]]; try done.
    unfold new. cbn [EFFECTIVE_LIMIT]. apply Qltb_ge in Hq. by rewrite Hq.
  - intros q Hq. exists (Math_round q). unfold new. cbn [limit EFFECTIVE_LIMIT].
    apply Qltb_lt in Hq. rewrite Hq. split; [done|]. unfold Math_round. split.
    + pose proof (Qlt_floor (q + (1 # 2))) as H. rewrite inject_Z_plus in H.
      change (inject_Z 1) with 1%Q in H. lra.
    + apply Qfloor_le.
  - intros n Hn. unfold new. cbn [limit EFFECTIVE_LIMIT]. rewrite Qltb_inject, Math_round_int.
    by apply Z.ltb_lt in Hn as ->.
  - intros q H0 H1. cbn zeta.
    assert (forall it : option (list (Key * Value)), new it (Some (Fin q)) name =
              {| entries := []; limit := Finite 0;
                 name := match name with
                         | Some text => if String.eqb text "" then "unknown" else text
                         | None => "unknown"
                         end |}) as Hnew.
    { intros it. unfold new. cbn [EFFECTIVE_LIMIT].
      rewrite (proj2 (Qltb_lt 0 q) H0), (Math_round_small q H0 H1). by destruct it. }
    rewrite Hnew. done.
Qed.

(** X4.  The constructor reads only the first [limit] items of the
    iterable (all of them when the limit is not finite).  The dictionary
    holds no more entries than the items read, exactly these items when
    their keys are distinct, and under each key the value of the last item
    read with that key. *)
Theorem new_keeps_first_items {Value} (items : list (Key * Value)) (l : option number)
    (name : option string) (key : Key) :
  let d := new (Some items) l name in
  let kept := match limit d with
              | Finite n => take (Z.to_nat n) items
              | Infinity => items
              end in
  size d <= length kept /\
  (NoDup kept.*1 -> entries d = kept) /\
  get key d = snd <$> List.find (fun kv => bool_decide (kv.1 = key)) (rev kept).
Proof.
  cbn zeta. unfold new, get, size. cbn [entries limit].
  destruct (EFFECTIVE_LIMIT l) as [n|]; (split_and!;
    [apply Map_of_length | apply Map_of_distinct |
     unfold Map_of; rewrite fold_Map_set_get; by destruct (List.find _ _)]).
Qed.



End Theorems.

Lemma built_two_entries : built two_entries.
Proof. apply built_set, built_new. Qed.

(** X1, at a concrete input: the dictionary [two_entries]. *)
Lemma built_within_limit_witness :
  built two_entries /\ NoDup (entries two_entries).*1.
Proof.
  split; [apply built_two_entries|].
  exact (proj1 (built_within_limit two_entries built_two_entries)).
Defined.

(** X5, at a concrete input: [two_entries], whose limit is 2, is its own clone. *)
Lemma copies_keep_every_entry_witness :
  built two_entries /\ clone two_entries = two_entries.
Proof.
  split; [apply built_two_entries|].
  exact (proj1 (copies_keep_every_entry two_entries (fun _ _ _ => true) (fun v _ _ => v)
                  built_two_entries)).
Defined.


End DictionaryProofs.

Module StylerProofs.
Import Styler.

Lemma indexOf_absent x l : x ∉ l -> indexOf x l = None.
Proof.
  induction l as [|y l IH]; [done|]. intros H. cbn [indexOf].
  apply not_elem_of_cons in H as [Hne Hl]. rewrite decide_False by done. by rewrite IH.
Qed.

Lemma indexOf_first x pre post : x ∉ pre -> indexOf x (pre ++ x :: post) = Some (length pre).
Proof.
  induction pre as [|y pre IH]; intros H; cbn [indexOf app length].
  - by rewrite decide_True.
  - apply not_elem_of_cons in H as [Hne Hl]. rewrite decide_False by done. by rewrite IH.
Qed.

(** X7.  [style] with styles that hold no [Reset] paints all of them
    before the text and [Reset] after it, and leaves the array alone.
    With a [Reset] among the styles only the styles from the first [Reset]
    on are painted, and the array of the caller is cut down to the styles
    before it. *)
Theorem style_starts_at_reset (text : string) (pre post : list Styles) :
  Reset ∉ pre ->
  style text pre = (paint pre +:+ text +:+ paint [Reset], pre) /\
  style text (pre ++ Reset :: post) =
    (paint (Reset :: post) +:+ text +:+ paint [Reset], pre).
Proof.
  intros H. unfold style. rewrite (indexOf_absent _ _ H), (indexOf_first _ _ post H).
  split; [done|]. by rewrite drop_app_length, take_app_length.
Qed.

(** X7, at a concrete input: [Bold], [Reset], [Red]. *)
Lemma style_starts_at_reset_witness :
  (Reset ∉ [Bold]) /\
  style "x" [Bold; Reset; Red] = (paint [Reset; Red] +:+ "x" +:+ paint [Reset], [Bold]).
Proof.
  assert (Reset ∉ [Bold]) as H.
  { apply not_elem_of_cons. split; [discriminate | apply not_elem_of_nil]. }
  split; [exact H|]. exact (proj2 (style_starts_at_reset "x" [Bold] [Red] H)).
Defined.

End StylerProofs.

Module SnowflakeProofs.
Import Snowflake.

(** X8.  The creation time of a snowflake whose upper bits are
    [timestamp] (the low 22 bits are anything) is [timestamp + EPOCH]; it
    grows with the id; for an id of 64 bits it lies between [EPOCH] and
    2^53, where [Number] is exact; and the index of the default avatar of
    an id that is not negative lies between 0 and 5. *)
Theorem created_reads_the_timestamp (timestamp low : Z) :
  (0 <= low < 2 ^ 22)%Z ->
  created (timestamp * 2 ^ 22 + low) = (timestamp + EPOCH)%Z /\
  (forall id1 id2, (id1 <= id2)%Z -> (created id1 <= created id2)%Z) /\
  (forall id, (0 <= id < 2 ^ 64)%Z -> (EPOCH <= created id < 2 ^ 53)%Z) /\
  (forall id, (0 <= id)%Z -> (0 <= default_avatar_index id < 6)%Z).
Proof.
  intros Hlow. unfold created, default_avatar_index. split_and!.
  - rewrite Z.shiftr_div_pow2 by lia. f_equal.
    rewrite Z.add_comm, Z.div_add by lia. rewrite Z.div_small by lia. lia.
  - intros id1 id2 H. rewrite !Z.shiftr_div_pow2 by lia.
    pose proof (Z.div_le_mono id1 id2 (2 ^ 22) ltac:(lia) H). lia.
  - intros id [H0 H1]. rewrite Z.shiftr_div_pow2 by lia. unfold EPOCH.
    assert (0 <= id / 2 ^ 22 < 2 ^ 42)%Z; [|lia]. split.
    + apply Z.div_pos; lia.
    + apply Z.div_lt_upper_bound; lia.
  - intros id H0. rewrite Z.shiftr_div_pow2 by lia.
    assert (0 <= id / 2 ^ 22)%Z by (apply Z.div_pos; lia).
    apply Z.rem_bound_pos; lia.
Qed.

(** X8, at a concrete input: the id with the upper bits 3 and the lower bits 5. *)
Lemma created_reads_the_timestamp_witness :
  (0 <= 5 < 2 ^ 22)%Z /\ created (3 * 2 ^ 22 + 5) = (3 + EPOCH)%Z.
Proof.
  assert (0 <= 5 < 2 ^ 22)%Z as H by lia.
  split; [exact H|]. exact (proj1 (created_reads_the_timestamp 3 5 H)).
Defined.

End SnowflakeProofs.

Module ClientProofs.
Import Client.

(** X9.  [uptime] is never negative and is the time since construction
    when the clock has not gone back.  After [destroy], which sets the
    start time to 0, it is the reading of the clock itself, not 0. *)
Theorem uptime_after_destroy (started nanoseconds : Z) :
  (0 <= uptime nanoseconds (new started))%Z /\
  ((started <= nanoseconds)%Z -> uptime nanoseconds (new started) = (nanoseconds - started)%Z) /\
  ((0 <= nanoseconds)%Z -> uptime nanoseconds (destroy (new started)) = nanoseconds).
Proof.
  unfold uptime, destroy, new. simpl. split_and!.
  - destruct (_ <? 0)%Z eqn:E; lia.
  - intros H. destruct (_ <? 0)%Z eqn:E; lia.
  - intros H. destruct (_ <? 0)%Z eqn:E; lia.
Qed.

End ClientProofs.

Module RestMore.
Import Rest2 RestProofs.

(** X11.  Two requests fall into the same bucket exactly when they have
    the same method and the same route. *)
Theorem getBucketKey_injective (m1 m2 : Method) (route1 route2 : string) :
  getBucketKey m1 route1 = getBucketKey m2 route2 <-> m1 = m2 /\ route1 = route2.
Proof.
  split; [|by intros [-> ->]].
  destruct m1, m2; intros H; cbv in H; try discriminate; by injection H as ->.
Qed.

Lemma reachable_step st e st' : reachable st -> step st e = Some st' -> reachable st'.
Proof.
  intros [evs Hevs] Hstep. exists (evs ++ [e]).
  revert Hevs. generalize init. induction evs as [|e0 evs IH]; intros s0; simpl.
  - intros [= ->]. by rewrite Hstep.
  - destruct (step s0 e0); [apply IH | done].
Qed.

Lemma reachable_run evs : forall st st', reachable st -> run st evs = Some st' -> reachable st'.
Proof.
  induction evs as [|e evs IH]; intros st st' Hr; simpl; [by intros [= <-]|].
  destruct (step st e) as [st1|] eqn:E; [|done]. apply IH. eapply reachable_step; eauto.
Qed.


Lemma view_parts k st st' :
  view k st' = view k st ->
  buckets st' !! k = buckets st !! k /\ jobs_of k st' = jobs_of k st /\
  timers_of k st' = timers_of k st /\ started_of k st' = started_of k st /\
  issued_of k st' = issued_of k st.
Proof. unfold view. intros H. injection H as -> -> -> -> -> _. done. Qed.

Lemma running_key st i r : inv st -> inflight st !! i = Some r -> closure_key (run_fn r) = run_key r.
Proof.
  intros Hinv Hi. destruct (Hinv (run_key r)) as (_ & [_ Hkj] & _).
  apply Hkj. by eapply job_in_jobs_of.
Qed.

(** X12.  An event that belongs to one bucket (a request, the fetch or
    the body of one of its jobs settling, its retry timer) or to none (the
    clock) leaves every other bucket as it was: its entry in the table,
    its jobs in flight, its timers, and what was started and issued for
    it. *)
Theorem other_buckets_untouched (st : State) (e : Event) (st' : State) (k : string) :
  reachable st -> step st e = Some st' -> event_key st e <> Some k ->
  buckets st' !! k = buckets st !! k /\ jobs_of k st' = jobs_of k st /\
  timers_of k st' = timers_of k st /\ started_of k st' = started_of k st /\
  issued_of k st' = issued_of k st.
Proof.
  intros Hreach Hstep Hkey. pose proof (reachable_inv st Hreach) as Hinv.
  destruct e as [method route|t|i res|i|i|i]; simpl in Hstep, Hkey.
  - injection Hstep as <-. apply view_parts, request_view_ne. congruence.
  - destruct (Qle_bool (now st) t); [|done]. by injection Hstep as <-.
  - destruct (inflight st !! i) as [r|] eqn:Hi; [|done]. simpl in Hkey.
    destruct (run_phase r); [|done]. injection Hstep as <-.
    apply view_parts, fetch_view_ne; [done|congruence|by eapply running_key].
  - destruct (inflight st !! i) as [r|] eqn:Hi; [|done]. simpl in Hkey.
    destruct (run_phase r); [|done]. injection Hstep as <-.
    destruct (job_done_pre st i r (fun ps => ps) Hinv Hi) as [Hv _].
    apply view_parts. unfold job_fetch_failed. rewrite runBucket_view_ne by congruence.
    apply Hv. congruence.
  - destruct (inflight st !! i) as [r|] eqn:Hi; [|done]. simpl in Hkey.
    destruct (run_phase r) as [|res]; [done|]. injection Hstep as <-.
    destruct (job_done_pre st i r
      (fun ps => <[c_id (run_fn r) := if negb (ok res) then Rejected (status res) (body_of res)
                                      else Resolved (body_of res)]> ps) Hinv Hi) as [Hv _].
    apply view_parts. unfold job_after_json. rewrite runBucket_view_ne by congruence.
    apply Hv. congruence.
  - destruct (timers st !! i) as [t|] eqn:Hi; [|done]. simpl in Hkey. injection Hstep as <-.
    destruct (timer_done_pre st i t Hinv Hi) as [Hv _].
    apply view_parts. rewrite runBucket_view_ne by congruence. apply Hv. congruence.
Qed.

(** X13.  While a job waits in the queue of a bucket, exactly one thing
    is there to wake the bucket: one job of it in flight or one retry
    timer, never both and never none. *)
Theorem queued_job_has_a_wakeup (st : State) (k : string) :
  reachable st -> queued_of k st <> [] ->
  length (jobs_of k st) + length (timers_of k st) = 1.
Proof.
  intros Hreach Hq. destruct (reachable_inv st Hreach k) as (Hb & _).
  unfold bucket_ok, queued_of in *. destruct (buckets st !! k) as [b|]; [|done].
  destruct (isRunning b); [done|]. destruct Hb as (_ & _ & Hqb & _). by rewrite Hqb in Hq.
Qed.

(** The state in which a wake-up enters [runBucket], and the bucket it
    finds there. *)
Lemma wakeup_pre st e st' k :
  inv st -> is_wakeup e = true -> step st e = Some st' -> event_key st e = Some k ->
  exists st1, st' = runBucket k st1 /\ run_pre k st1 /\
    buckets st1 = buckets st /\ now st1 = now st.
Proof.
  intros Hinv Hw Hstep Hkey. destruct e as [method route|t|i res|i|i|i]; try done;
    simpl in Hstep, Hkey.
  - destruct (inflight st !! i) as [r|] eqn:Hi; [|done]. injection Hkey as <-.
    destruct (run_phase r); [|done]. injection Hstep as <-.
    destruct (job_done_pre st i r (fun ps => ps) Hinv Hi) as [_ Hp].
    eexists. split; [reflexivity|]. split; [exact Hp|done].
  - destruct (inflight st !! i) as [r|] eqn:Hi; [|done]. injection Hkey as <-.
    destruct (run_phase r) as [|res]; [done|]. injection Hstep as <-.
    destruct (job_done_pre st i r
      (fun ps => <[c_id (run_fn r) := if negb (ok res) then Rejected (status res) (body_of res)
                                      else Resolved (body_of res)]> ps) Hinv Hi) as [_ Hp].
    eexists. split; [reflexivity|]. split; [exact Hp|done].
  - destruct (timers st !! i) as [t|] eqn:Hi; [|done]. injection Hkey as <-.
    injection Hstep as <-. destruct (timer_done_pre st i t Hinv Hi) as [_ Hp].
    eexists. split; [reflexivity|]. split; [exact Hp|done].
Qed.

(** X14.  When a job of a bucket has settled or its retry timer has
    fired, [runBucket] looks at the bucket as it was.  If the quota is
    used up and the reset time is ahead, nothing is in flight and exactly
    one timer is armed, for the time left until the reset.  Else, if the
    queue is empty, the bucket goes idle with nothing in flight and no
    timer.  Else the head of the queue is started alone, [remaining] goes
    down by one and the rest stays queued. *)
Theorem wakeup_makes_progress (st : State) (e : Event) (st' : State) (k : string) :
  reachable st -> is_wakeup e = true -> step st e = Some st' -> event_key st e = Some k ->
  exists b, buckets st !! k = Some b /\
    if limited b (now st) then
      jobs_of k st' = [] /\
      timers_of k st' = [{| t_key := k; t_delay := resetAt b - now st; t_set := now st |}] /\
      buckets st' !! k = Some b
    else
      match queue b with
      | [] =>
        jobs_of k st' = [] /\ timers_of k st' = [] /\
        buckets st' !! k = Some {| resetAt := resetAt b; remaining := remaining b;
                                   queue := []; isRunning := false |}
      | job :: rest =>
        jobs_of k st' = [{| run_key := k; run_fn := fn job; run_phase := AwaitFetch |}] /\
        timers_of k st' = [] /\
        buckets st' !! k = Some {| resetAt := resetAt b; remaining := remaining b - 1;
                                   queue := rest; isRunning := true |}
      end.
Proof.
  intros Hreach Hw Hstep Hkey. pose proof (reachable_inv st Hreach) as Hinv.
  destruct (wakeup_pre st e st' k Hinv Hw Hstep Hkey) as (st1 & -> & Hpre & Hbk & Hnow).
  destruct Hpre as (b & Hb & Hj & Ht & _). exists b. rewrite <- Hbk, <- Hnow. split; [done|].
  unfold runBucket. rewrite Hb. destruct (limited b (now st1)).
  - unfold jobs_of, timers_of in *. simpl. rewrite filter_app, Ht, filter_cons_True by done.
    done.
  - destruct (queue b) as [|job rest].
    + unfold jobs_of, timers_of in *. simpl. by rewrite lookup_insert_eq.
    + unfold jobs_of, timers_of in *. simpl.
      rewrite filter_app, Hj, filter_cons_True, lookup_insert_eq by done. done.
Qed.

Lemma NoDup_by_key {A B} (f : A -> B) (key : A -> string) (g : B -> string)
    (l : list A) :
  (forall x, x ∈ l -> key x = g (f x)) ->
  (forall k, NoDup (f <$> filter (fun x => key x = k) l)) ->
  NoDup (f <$> l).
Proof.
  induction l as [|x l IH]; intros Hkey Hnd; [constructor|].
  rewrite fmap_cons. apply NoDup_cons. split.
  - intros Hin. apply list_elem_of_fmap in Hin as (y & Hfy & Hy).
    specialize (Hnd (key x)). rewrite filter_cons_True, fmap_cons in Hnd by done.
    apply NoDup_cons in Hnd as [Hnot _]. apply Hnot.
    apply list_elem_of_fmap. exists y. split; [done|].
    apply list_elem_of_filter. split; [|done].
    rewrite (Hkey y), (Hkey x), Hfy; [done|by left|by right].
  - apply IH.
    + intros y Hy. apply Hkey. by right.
    + intros k. specialize (Hnd k). destruct (decide (key x = k)) as [Hk|Hk].
      * rewrite filter_cons_True, fmap_cons in Hnd by done. by apply NoDup_cons in Hnd as [_ ?].
      * by rewrite filter_cons_False in Hnd.
Qed.

Lemma started_issued st k : inv st -> ids_ok st ->
  started_fns k st ⊆ issued_of k st /\ NoDup (started_fns k st).
Proof.
  intros Hinv Hids. destruct (Hinv k) as (_ & _ & Hf & _). unfold fifo in Hf.
  assert (NoDup (issued_of k st)) as Hnd by (apply NoDup_filter, ids_NoDup, Hids).
  rewrite <- Hf in Hnd. apply NoDup_app in Hnd as (Hnd & _). split; [|done].
  rewrite <- Hf. intros c Hc. apply elem_of_app. by left.
Qed.

(** X15.  No request is started twice: the closures of the jobs started
    so far are pairwise distinct, each was issued by a call of [request],
    and each was started under the key of its own method and route. *)
Theorem each_request_starts_once (st : State) :
  reachable st ->
  NoDup (s_fn <$> started st) /\
  forall x, x ∈ started st ->
    issued st !! c_id (s_fn x) = Some (s_fn x) /\ s_key x = closure_key (s_fn x).
Proof.
  intros Hreach. pose proof (reachable_inv st Hreach) as Hinv.
  pose proof (reachable_ids st Hreach) as Hids.
  assert (forall x, x ∈ started st ->
            issued st !! c_id (s_fn x) = Some (s_fn x) /\ s_key x = closure_key (s_fn x)) as H.
  { intros x Hx. destruct (started_issued st (s_key x) Hinv Hids) as [Hsub _].
    assert (s_fn x ∈ issued_of (s_key x) st) as Hin.
    { apply Hsub. unfold started_fns, started_of. apply list_elem_of_fmap. exists x.
      split; [done|]. by apply list_elem_of_filter. }
    apply list_elem_of_filter in Hin as [Hk Hin]. split; [|done].
    apply list_elem_of_lookup in Hin as [n Hn]. destruct Hids as (_ & Hid & _).
    by rewrite (Hid n _ Hn). }
  split; [|exact H].
  apply (NoDup_by_key s_fn s_key closure_key).
  - intros x Hx. by apply H.
  - intros k. apply (started_issued st k Hinv Hids).
Qed.

(** X16.  When [fetch] resolves for a job in flight and the body is then
    read, the promise of the caller, which is pending until then (also
    after [fetch] has resolved), is resolved with the body when [res.ok]
    holds and rejected with the status and the body otherwise. *)
Theorem response_decides_outcome (st : State) (i : nat) (r : Running) (res : Response) :
  reachable st -> inflight st !! i = Some r -> run_phase r = AwaitFetch ->
  exists st1 st2,
    step st (FetchResolves i res) = Some st1 /\ step st1 (JsonSettles i) = Some st2 /\
    promises st1 = promises st /\
    promises st !! c_id (run_fn r) = Some Pending /\
    promises st2 = <[c_id (run_fn r) :=
                      if ok res then Resolved (body_of res)
                      else Rejected (status res) (body_of res)]> (promises st).
Proof.
  intros Hreach Hi Hph.
  set (r' := {| run_key := run_key r; run_fn := run_fn r; run_phase := AwaitJson res |}).
  set (st1 := job_after_fetch i r res st).
  assert (inflight st1 !! i = Some r') as Hi'.
  { unfold st1, job_after_fetch. simpl.
    destruct (buckets st !! _); simpl; apply list_lookup_insert_eq; eapply lookup_lt_Some; eauto. }
  assert (promises st1 = promises st) as Hp.
  { unfold st1, job_after_fetch. by destruct (buckets st !! _). }
  exists st1, (job_after_json i r' res st1). split_and!.
  - cbn [step]. by rewrite Hi, Hph.
  - cbn [step]. by rewrite Hi'.
  - done.
  - destruct (reachable_ids st Hreach) as (_ & _ & Hfl & _). rewrite Forall_forall in Hfl.
    apply Hfl. eapply list_elem_of_lookup_2; eauto.
  - unfold job_after_json. rewrite runBucket_promises.
    cbn [promises set_inflight set_promises r' run_fn]. rewrite Hp. by destruct (ok res).
Qed.

Lemma reachable_quota_before : reachable quota_before.
Proof. exists [Tick 1000; Request GET "user"; Request GET "user"]. vm_compute. reflexivity. Qed.

Lemma reachable_quota_answered : reachable quota_answered.
Proof.
  exists [Tick 1000; Request GET "user"; Request GET "user"; FetchResolves 0 quota_response].
  vm_compute. reflexivity.
Qed.

(** X12, at a concrete input: a POST while two GET requests are under way. *)
Lemma other_buckets_untouched_witness :
  reachable quota_before /\
  buckets (default init (step quota_before (Request POST "channelMessages"))) !! "GET user" =
    buckets quota_before !! "GET user".
Proof.
  split; [apply reachable_quota_before|].
  refine (proj1 (other_buckets_untouched quota_before (Request POST "channelMessages")
    (default init (step quota_before (Request POST "channelMessages"))) "GET user"
    reachable_quota_before _ _)).
  - vm_compute. reflexivity.
  - vm_compute. discriminate.
Defined.

(** X13, at a concrete input: two requests on one route, the second one queued. *)
Lemma queued_job_has_a_wakeup_witness :
  reachable quota_before /\
  length (jobs_of "GET user" quota_before) + length (timers_of "GET user" quota_before) = 1.
Proof.
  split; [apply reachable_quota_before|].
  apply (queued_job_has_a_wakeup quota_before "GET user" reachable_quota_before).
  vm_compute. discriminate.
Defined.

(** X14, at a concrete input: the body of the first response is read. *)
Lemma wakeup_makes_progress_witness :
  reachable quota_answered /\
  exists b, buckets quota_answered !! "GET user" = Some b.
Proof.
  split; [apply reachable_quota_answered|].
  destruct (wakeup_makes_progress quota_answered (JsonSettles 0)
    (default init (step quota_answered (JsonSettles 0))) "GET user"
    reachable_quota_answered) as (b & Hb & _).
  - reflexivity.
  - vm_compute. reflexivity.
  - vm_compute. reflexivity.
  - exists b. exact Hb.
Defined.

(** X15, at a concrete input: the run [demo_events]. *)
Lemma each_request_starts_once_witness :
  reachable demo_state /\ NoDup (s_fn <$> started demo_state).
Proof.
  assert (reachable demo_state) as H by (exists demo_events; vm_compute; reflexivity).
  split; [exact H|]. exact (proj1 (each_request_starts_once demo_state H)).
Defined.

(** X16, at a concrete input: a 200 response to the first of two requests. *)
Lemma response_decides_outcome_witness :
  reachable quota_before /\
  exists st1 st2,
    step quota_before (FetchResolves 0 quota_response) = Some st1 /\
    step st1 (JsonSettles 0) = Some st2 /\
    promises st2 = <[0 := Resolved (body_of quota_response)]> (promises quota_before).
Proof.
  split; [apply reachable_quota_before|].
  destruct (response_decides_outcome quota_before 0
    {| run_key := "GET user";
       run_fn := {| c_id := 0; c_method := GET; c_route := "user" |};
       run_phase := AwaitFetch |} quota_response reachable_quota_before)
    as (st1 & st2 & H1 & H2 & _ & _ & H3).
  - vm_compute. reflexivity.
  - reflexivity.
  - exists st1, st2. split; [exact H1|]. split; [exact H2|exact H3].
Defined.

End RestMore.

Module SocketCalm.
Import Socket2 SocketProofs.

Lemma calm_refl w : calm w w.
Proof.
  unfold calm. split_and!; try done; [|by left]. exists []. by rewrite app_nil_r.
Qed.

Lemma calm_trans w1 w2 w3 : calm w1 w2 -> calm w2 w3 -> calm w1 w3.
Proof.
  intros (S1 & N1 & P1 & A1 & (l1 & T1 & L1) & I1 & C1 & H1)
         (S2 & N2 & P2 & A2 & (l2 & T2 & L2) & I2 & C2 & H2).
  unfold calm. split_and!; try congruence.
  - exists (l1 ++ l2). rewrite T2, T1, <- app_assoc. split; [done|].
    rewrite forallb_app, L1. rewrite S1 in L2. by rewrite L2.
  - eauto.
  - destruct H2 as [[H2 J2]|H2]; [|by right]. rewrite H2, J2. exact H1.
Qed.

(** a change that touches none of the fields [calm] reads *)
Lemma calm_same w w' :
  settings w' = settings w -> now w' = now w -> self w' = self w ->
  trace w' = trace w -> intervals w' = intervals w -> calm w w'.
Proof.
  intros E1 E2 E3 E4 E5. unfold calm. rewrite E1, E2, E3, E4, E5.
  split_and!; try done; [|by left]. exists []. by rewrite app_nil_r.
Qed.

Lemma calm_emit e w : allowed (settings w) e = true -> calm w (emit e w).
Proof.
  intros H. unfold calm. simpl. split_and!; try done; [|by left].
  exists [e]. simpl. by rewrite H.
Qed.

Lemma calm_emit_if (c : bool) e w :
  (c = true -> allowed (settings w) e = true) -> calm w (emit_if c e w).
Proof. destruct c; intros H; [apply calm_emit; auto | apply calm_refl]. Qed.

Lemma calm_echo m w : calm w (echo m w).
Proof. apply calm_emit_if. done. Qed.

Lemma calm_warn m w : calm w (warn m w).
Proof. apply calm_emit_if. done. Qed.

Lemma calm_fail m w : calm w (fail m w).
Proof. by apply calm_emit. Qed.

Lemma calm_store_clear w : calm w (store_clear w).
Proof. apply calm_emit_if. done. Qed.

Lemma calm_store_save id n w : calm w (store_save id n w).
Proof. apply calm_emit_if. done. Qed.

(** a change of fields of the instance that [calm] does not read *)
Lemma calm_set_self (f : Socket -> Socket) w :
  _lastPing (f (self w)) = _lastPing (self w) -> _lastACK (f (self w)) = _lastACK (self w) ->
  _heartbeat (f (self w)) = _heartbeat (self w) ->
  calm w (set_self f w).
Proof.
  intros H1 H2 H3. unfold calm. simpl. split_and!; try done; [|by left].
  exists []. by rewrite app_nil_r.
Qed.

Lemma calm_set_sockets f w : calm w (set_sockets f w).
Proof. by apply calm_same. Qed.

Lemma calm_set_timeouts f w : calm w (set_timeouts f w).
Proof. by apply calm_same. Qed.

Lemma calm_set_starts f w : calm w (set_starts f w).
Proof. by apply calm_same. Qed.

Lemma calm_set_destroys f w : calm w (set_destroys f w).
Proof. by apply calm_same. Qed.

Lemma calm_set_reconnects f w : calm w (set_reconnects f w).
Proof. by apply calm_same. Qed.

Ltac calm_step :=
  first
    [ apply calm_refl
    | (eapply calm_trans; [|apply calm_echo])
    | (eapply calm_trans; [|apply calm_warn])
    | (eapply calm_trans; [|apply calm_fail])
    | (eapply calm_trans; [|apply calm_store_clear])
    | (eapply calm_trans; [|apply calm_store_save])
    | (eapply calm_trans; [|apply calm_emit; reflexivity])
    | (eapply calm_trans; [|apply calm_set_self; reflexivity])
    | (eapply calm_trans; [|apply calm_set_sockets])
    | (eapply calm_trans; [|apply calm_set_timeouts])
    | (eapply calm_trans; [|apply calm_set_starts])
    | (eapply calm_trans; [|apply calm_set_destroys])
    | (eapply calm_trans; [|apply calm_set_reconnects]) ].

Ltac calm_chain := cbv zeta; repeat case_match; repeat calm_step.

Lemma calm_listen ev h w : calm w (listen ev h w).
Proof. unfold listen. calm_chain. Qed.

Lemma calm_reconnect_after_destroy r w : calm w (reconnect_after_destroy r w).
Proof. unfold reconnect_after_destroy. calm_chain. Qed.

Lemma calm_reconnect_after_start r o w : calm w (reconnect_after_start r o w).
Proof. unfold reconnect_after_start. calm_chain. Qed.

Lemma calm_settle_start s o w : calm w (settle_start s o w).
Proof.
  unfold settle_start. calm_chain;
    (eapply calm_trans; [|apply calm_reconnect_after_start]); calm_chain.
Qed.

Lemma calm_start_after_load s rd w : calm w (start_after_load s rd w).
Proof.
  unfold start_after_load. calm_chain;
    try (eapply calm_trans; [|apply calm_settle_start]); calm_chain.
Qed.

Lemma calm_start o w : calm w (start o w).
Proof.
  unfold start. cbv zeta. case_match.
  - eapply calm_trans; [|apply calm_emit; simpl; done]. calm_chain.
  - eapply calm_trans; [|apply calm_start_after_load]. calm_chain.
Qed.

Lemma calm_destroy o w : calm w (destroy o w).
Proof.
  unfold destroy. cbv zeta.
  set (w1 := match _heartbeat (self w) with Some _ => _ | None => _ end).
  assert (calm w w1) as H1.
  { subst w1. destruct (_heartbeat (self w)) as [h|]; [|apply calm_refl].
    unfold calm. simpl. split_and!; try done.
    - exists []. by rewrite app_nil_r.
    - apply length_alter.
    - intros h'. rewrite list_lookup_alter. case_decide; [|done].
      subst. destruct (intervals w !! h'); simpl; done.
    - by right. }
  eapply calm_trans; [exact H1|]. clearbody w1. calm_chain.
Qed.

Lemma calm_destroy_after_close d w : calm w (destroy_after_close d w).
Proof.
  unfold destroy_after_close. calm_chain;
    try (eapply calm_trans; [|apply calm_reconnect_after_destroy]); calm_chain.
Qed.

Lemma calm_reconnect c w : calm w (reconnect c w).
Proof.
  unfold reconnect. cbv zeta. case_match; [calm_chain|].
  repeat case_match;
    try (eapply calm_trans; [|apply calm_reconnect_after_destroy]);
    (eapply calm_trans; [|apply calm_destroy]); calm_chain.
Qed.

Lemma calm_reconnect_timer r w : calm w (reconnect_timer r w).
Proof. unfold reconnect_timer. eapply calm_trans; [|apply calm_start]. calm_chain. Qed.

Lemma calm_note_sequence seq w : calm w (note_sequence seq w).
Proof. unfold note_sequence. calm_chain. Qed.

Lemma calm_send_resume id seq w :
  calm w (or_throw w (send (ResumeFrame (token (settings w)) id seq) w)).
Proof.
  unfold or_throw, send. case_match; [|apply calm_refl]. simpl.
  apply calm_emit. simpl. apply String.eqb_refl.
Qed.

Lemma calm_on_invalid_session data w : calm w (on_invalid_session data w).
Proof.
  unfold on_invalid_session. cbv zeta. repeat case_match;
    try (eapply calm_trans; [|apply calm_reconnect]; calm_chain).
  eapply calm_trans; [|apply calm_send_resume]. calm_chain.
Qed.

Lemma calm_on_dispatch t data thrown w : calm w (on_dispatch t data thrown w).
Proof. unfold on_dispatch. calm_chain. Qed.

Lemma calm_on_error s message w : calm w (on_error s message w).
Proof. unfold on_error. eapply calm_trans; [|apply calm_settle_start]. calm_chain. Qed.

Lemma calm_on_close h reason w : calm w (on_close h reason w).
Proof. unfold on_close. case_match; [apply calm_refl|apply calm_warn|apply calm_destroy_after_close]. Qed.


Lemma calm_good cfg w w' : calm w w' -> good cfg w -> good cfg w'.
Proof.
  intros (S & N & P & A & (l & T & L) & I & C & H) ([Hs Ht] & (Hp & Ha & Hn) & Hh).
  unfold good, within, stamps_ok, heartbeat_wf. split_and!.
  - congruence.
  - rewrite T, forallb_app, Ht. rewrite Hs in L. by rewrite L.
  - rewrite P, N. done.
  - rewrite A, N. done.
  - by rewrite N.
  - intros h Hb. destruct H as [[H J]|H]; [|congruence]. rewrite J. apply Hh. congruence.
Qed.

Lemma good_set_sockets cfg f w : good cfg w -> good cfg (set_sockets f w).
Proof. apply calm_good, calm_set_sockets. Qed.

Lemma good_on_hello cfg data w : good cfg w -> good cfg (on_hello data w).
Proof.
  intros ([Hs Ht] & (Hp & Ha & Hn) & Hh). unfold on_hello, or_throw, send, good, within, stamps_ok, heartbeat_wf.
  cbv zeta. destruct data; simpl; try (split_and!; try done; lia);
    destruct (_ws (self w)); simpl; split_and!; try done; try lia;
    try (intros h [= <-]; by rewrite lookup_app_r, Nat.sub_diag);
    rewrite forallb_app, Ht; simpl; subst cfg; by rewrite String.eqb_refl, Z.eqb_refl.
Qed.

Lemma good_heartbeat_tick cfg w : good cfg w -> good cfg (heartbeat_tick w).
Proof.
  intros ([Hs Ht] & (Hp & Ha & Hn) & Hh).
  unfold heartbeat_tick, connecting, ready, or_throw, send, echo, emit_if, good, within,
    stamps_ok, heartbeat_wf.
  simpl. destruct (_ws (self w)) as [x|]; simpl;
    [destruct (from_option readyState CLOSED (sockets w !! x)); simpl;
     destruct (debug (settings w)) eqn:Hd|]; simpl;
    split_and!; try done; try lia;
    rewrite ?forallb_app, ?Ht; simpl; subst cfg; by rewrite ?Hd.
Qed.

Lemma good_ack cfg w : good cfg w -> good cfg (echo MSG_ACK (set_self (set_lastACK (now w)) w)).
Proof.
  intros ([Hs Ht] & (Hp & Ha & Hn) & Hh).
  unfold echo, emit_if, good, within, stamps_ok, heartbeat_wf.
  simpl. destruct (debug (settings w)) eqn:Hd; simpl; split_and!; try done; try lia;
    rewrite ?forallb_app, ?Ht; simpl; subst cfg; by rewrite ?Hd.
Qed.

Lemma good_on_open cfg s w : good cfg w -> good cfg (on_open s w).
Proof.
  intros Hg. unfold on_open. cbv zeta. eapply calm_good; [apply calm_settle_start|].
  destruct Hg as ([Hs Ht] & (Hp & Ha & Hn) & Hh).
  unfold echo, emit_if, good, within, stamps_ok, heartbeat_wf.
  simpl. destruct (debug (settings w)) eqn:Hd; simpl; split_and!; try done; try lia;
    rewrite ?forallb_app, ?Ht; simpl; subst cfg; by rewrite ?Hd.
Qed.

Lemma good_handleMessage cfg data thrown w : good cfg w -> good cfg (_handleMessage data thrown w).
Proof.
  intros Hg. destruct data as [text|payload]; [eapply calm_good; [apply calm_fail|done]|].
  unfold _handleMessage, on_op.
  assert (good cfg (note_sequence (s payload) w)) as Hg1
    by (eapply calm_good; [apply calm_note_sequence|done]).
  repeat case_match.
  - by apply good_on_hello.
  - by apply good_ack.
  - eapply calm_good; [|exact Hg1]. eapply calm_trans; [apply calm_echo|apply calm_reconnect].
  - eapply calm_good; [apply calm_on_invalid_session|done].
  - eapply calm_good; [apply calm_on_dispatch|done].
  - done.
Qed.

Lemma step_good cfg w e w' : step w e = Some w' -> good cfg w -> good cfg w'.
Proof.
  intros Hstep Hg.
  destruct e as [| |clear|ev h|time|s0 rd|s0 err|ws|ws msg|ws reason|ws data thrown|i|h];
    simpl in Hstep.
  - injection Hstep as <-. eapply calm_good; [apply calm_start|done].
  - injection Hstep as <-. eapply calm_good; [apply calm_destroy|done].
  - injection Hstep as <-. eapply calm_good; [apply calm_reconnect|done].
  - injection Hstep as <-. eapply calm_good; [apply calm_listen|done].
  - destruct (now w <=? time)%Z eqn:E; [|done]. injection Hstep as <-.
    apply Z.leb_le in E. destruct Hg as ([Hs Ht] & (Hp & Ha & Hn) & Hh).
    unfold good, within, stamps_ok, heartbeat_wf. simpl. split_and!; try done; lia.
  - destruct (start_phase <$> starts w !! s0) as [[]|]; try done. injection Hstep as <-.
    eapply calm_good; [apply calm_start_after_load|done].
  - destruct (start_phase <$> starts w !! s0) as [[]|]; try done. injection Hstep as <-.
    eapply calm_good; [apply calm_settle_start|done].
  - destruct (sockets w !! ws) as [x|]; [|done]. destruct (readyState x); try done.
    injection Hstep as <-. destruct (onopen x).
    + by apply good_on_open, good_set_sockets.
    + by apply good_set_sockets.
  - destruct (sockets w !! ws) as [x|]; [|done].
    destruct (readyState x); try done; injection Hstep as <-; destruct (onerror x);
      try (by apply good_set_sockets);
      (eapply calm_good; [apply calm_on_error|by apply good_set_sockets]).
  - destruct (sockets w !! ws) as [x|]; [|done]. destruct (closeFired x); [done|].
    injection Hstep as <-. eapply calm_good; [apply calm_on_close|by apply good_set_sockets].
  - destruct (sockets w !! ws) as [x|]; [|done].
    destruct (readyState x); try done; injection Hstep as <-; destruct (onmessage x);
      try done; by apply good_handleMessage.
  - destruct (timeouts w !! i) as [[r dl]|]; [|done]. injection Hstep as <-.
    eapply calm_good; [apply calm_reconnect_timer|].
    eapply calm_good; [apply calm_set_timeouts|done].
  - destruct (intervals w !! h) as [[p []]|]; try done. injection Hstep as <-.
    by apply good_heartbeat_tick.
Qed.

Lemma init_good cfg : good cfg (init cfg).
Proof. unfold good, within, stamps_ok, heartbeat_wf. simpl. split_and!; done. Qed.

Lemma run_good cfg evs : forall w w', run w evs = Some w' -> good cfg w -> good cfg w'.
Proof.
  induction evs as [|e evs IH]; intros w w'; simpl; [by intros [= <-]|].
  destruct (step w e) as [w1|] eqn:E; [|done]. eauto using step_good.
Qed.

Lemma reachable_good cfg w : reachable cfg w -> good cfg w.
Proof. intros [evs H]. eapply run_good; [exact H|apply init_good]. Qed.

End SocketCalm.

Module SocketMore.
Import Socket2 SocketProofs SocketCalm.


Lemma note_sequence_frame_fields seq w :
  settings (note_sequence seq w) = settings w /\ now (note_sequence seq w) = now w /\
  intervals (note_sequence seq w) = intervals w /\
  _lastPing (self (note_sequence seq w)) = _lastPing (self w) /\
  _lastACK (self (note_sequence seq w)) = _lastACK (self w) /\
  events (self (note_sequence seq w)) = events (self w).
Proof. unfold note_sequence, store_save, emit_if. repeat case_match; done. Qed.



(** X18.  An exception thrown by an event handler is caught: the socket
    is left exactly as without the exception, but for one failure line
    that names the event and the exception (and no line when no handler
    ran).  Whenever a Dispatch frame
    names an event with a registered handler (for READY, with data that is
    not null), the handler is called with the data of the frame, last of
    all, and an exception it throws is logged in this way. *)
Theorem handler_exception_is_contained (w : World) (payload : Payload) (err : string) :
  let quietly := _handleMessage (Parsed payload) None w in
  let thrown := _handleMessage (Parsed payload) (Some err) w in
  (thrown = quietly \/
   exists name, t payload = Some name /\
     thrown = fail (TEXT ("Error in event handler " +:+ name +:+ ": " +:+ err)) quietly) /\
  (forall name handler,
     op payload = Dispatch -> t payload = Some name -> name <> "" ->
     events (self w) !! name = Some handler ->
     (name = "READY" -> d payload <> JNull) ->
     last (trace quietly) = Some (ECall handler name (d payload)) /\
     thrown = fail (TEXT ("Error in event handler " +:+ name +:+ ": " +:+ err)) quietly).
Proof.
  cbn zeta. unfold _handleMessage, on_op.
  destruct (note_sequence_frame_fields (s payload) w) as (_ & _ & _ & _ & _ & Hev).
  set (w1 := note_sequence (s payload) w) in *. clearbody w1. split.
  - repeat case_match; try (by left). unfold on_dispatch.
    repeat case_match; try (by left); right; eexists; (split; [reflexivity|]); done.
  - intros name handler Hop Ht Hne Hh Hready. rewrite Hop. cbn [Z.eqb Hello HeartbeatAck Reconnect InvalidSession Dispatch].
    unfold on_dispatch. rewrite Ht. apply String.eqb_neq in Hne. rewrite Hne.
    destruct (String.eqb name "READY") eqn:Er.
    + apply String.eqb_eq in Er. specialize (Hready Er).
      destruct (d payload) eqn:Ed; try done;
        repeat case_match; simpl in *; unfold store_save, emit_if in *;
        repeat case_match; simpl in *; simplify_eq;
        rewrite ?last_snoc; try done;
        match goal with H : events (self w1) !! _ = _ |- _ => rewrite Hev, Hh in H end;
        by simplify_eq.
    + destruct (d payload) eqn:Ed; simpl; rewrite Hev, Hh; simpl; by rewrite last_snoc.
Qed.


(** X19.  When the socket of a [start()] that [reconnect()] awaits
    reports an error before it opens, the error is logged, [start()]
    rejects and [reconnect()] rejects with it: [_reconnecting] is cleared,
    the retry counter is kept, no timer is armed and no further [start()]
    is made, so the failed attempt is not repeated by the socket itself. *)
Theorem failed_attempt_is_not_retried (w : World) (ws s r : nat) (x : WebSocket)
    (call : ReconnectCall) (message : string) :
  sockets w !! ws = Some x -> readyState x <> CLOSED -> onerror x = Some s ->
  starts w !! s = Some {| start_phase := StartOpening; start_owner := Some r |} ->
  reconnects w !! r = Some call ->
  exists w', step w (WsErrors ws message) = Some w' /\
    since w w' = [ELog Fail (TEXT message); ELog Fail (TEXT "[object Object]")] /\
    start_phase <$> starts w' !! s = Some (StartRejected FailObject) /\
    rc_phase <$> reconnects w' !! r = Some ReconnectRejected /\
    _reconnecting (self w') = false /\
    _retries (self w') = _retries (self w) /\
    timeouts w' = timeouts w /\
    length (starts w') = length (starts w).
Proof.
  intros Hx Hrs Herr Hs Hr.
  assert (step w (WsErrors ws message) =
            Some (on_error s message (set_sockets (alter (set_readyState CLOSED) ws) w))) as ->.
  { simpl. rewrite Hx, Herr. by destruct (readyState x). }
  eexists. split; [reflexivity|].
  unfold on_error, settle_start, reconnect_after_start, fail, since. simpl. rewrite Hs. simpl.
  rewrite !list_lookup_alter_eq, Hs, Hr, length_alter. simpl.
  rewrite <- app_assoc, drop_app_length. done.
Qed.

Lemma start_ws o w : _ws (self (start o w)) = Some (length (sockets w)) /\ trace (start o w) = trace w ++ (if sessionStore (settings w) then [ELoad] else []).
Proof.
  unfold start, start_after_load, settle_start. simpl.
  destruct (sessionStore (settings w)); simpl; [done|]. by rewrite app_nil_r.
Qed.

Lemma start_ready o w : ready (length (sockets w)) (start o w) = CONNECTING.
Proof.
  unfold ready, start, start_after_load, settle_start. simpl.
  destruct (sessionStore (settings w)); simpl.
  - by rewrite lookup_app_r, Nat.sub_diag.
  - by rewrite list_lookup_alter_eq, lookup_app_r, Nat.sub_diag.
Qed.

(** X20.  [presence] on a socket that was never started, or that was
    destroyed, logs the failure NO_SOCKET and throws it.  Right after
    [start()], while the new socket is still connecting, [ws.send] throws
    an InvalidStateError: nothing is logged and no frame is written.  Once
    the socket in [_ws] is open, [presence] writes one PresenceUpdate frame
    with the data to it. *)
Theorem presence_needs_socket (data : Json) :
  (forall cfg, presence data (init cfg) =
     (fail MSG_NO_SOCKET (init cfg), PresenceThrows (NoSocketError MSG_NO_SOCKET))) /\
  (forall w owner, presence data (destroy owner w) =
     (fail MSG_NO_SOCKET (destroy owner w), PresenceThrows (NoSocketError MSG_NO_SOCKET))) /\
  (forall w owner, presence data (start owner w) =
     (start owner w, PresenceThrows (InvalidStateError (length (sockets w))))) /\
  (forall w x, _ws (self w) = Some x -> ready x w = OPEN ->
     presence data w = (w, PresenceSent x PresenceUpdate data)).
Proof.
  unfold presence, ws. split_and!.
  - done.
  - intros w owner. destruct (destroy_self owner w) as (_ & -> & _). done.
  - intros w owner. destruct (start_ws owner w) as [-> _]. by rewrite start_ready.
  - intros w x -> ->. done.
Qed.






(** X22.  [destroy()] without a socket resolves with true at once and has
    no effect.  With a socket whose close event has not fired yet it
    waits, and it resolves with true when that close event arrives. *)
Theorem destroy_resolves_true (w : World) (owner : option nat) :
  let d := length (destroys w) in
  let w1 := destroy owner w in
  (_ws (self w) = None ->
     destroy_phase <$> destroys w1 !! d = Some (DestroyResolved true) /\ trace w1 = trace w) /\
  (forall ws x reason,
     _ws (self w) = Some ws -> sockets w !! ws = Some x -> closeFired x = false ->
     destroy_phase <$> destroys w1 !! d = Some (DestroyClosing ws) /\
     exists w2, step w1 (WsCloses ws reason) = Some w2 /\
       destroy_phase <$> destroys w2 !! d = Some (DestroyResolved true)).
Proof.
  cbn zeta. split.
  - intros Hws. rewrite (destroy_without_socket owner w Hws).
    rewrite lookup_app_r, Nat.sub_diag by done. split; [done|].
    unfold destroy. destruct (_heartbeat (self w)); simpl; by rewrite Hws.
  - intros ws x reason Hws Hx Hcf.
    assert (destroys (destroy owner w) !! length (destroys w) =
              Some {| destroy_phase := DestroyClosing ws; destroy_owner := owner |}) as Hd.
    { rewrite (destroy_destroys owner w ws Hws). by rewrite lookup_app_r, Nat.sub_diag. }
    split; [by rewrite Hd|].
    assert (exists x', sockets (destroy owner w) !! ws = Some x') as [x' Hx'].
    { apply lookup_lt_is_Some.
      assert (length (sockets (destroy owner w)) = length (sockets w)) as ->.
      { unfold destroy, echo, emit_if, ready. repeat case_match; simpl; by rewrite ?length_alter. }
      eapply lookup_lt_Some; eauto. }
    destruct (destroy_onclose owner w ws x' Hx') as (y & Hy & Hf & [[_ Hoc]|[Hne _]]);
      [|congruence].
    rewrite Hx in Hy. injection Hy as <-.
    eapply destroy_resolves_on_close; eauto.
Qed.

Lemma heartbeat_tick_stamps w :
  _lastPing (self (heartbeat_tick w)) = now w /\
  _lastACK (self (heartbeat_tick w)) = _lastACK (self w).
Proof. unfold heartbeat_tick, or_throw, send, echo, emit_if. repeat (simpl; case_match); done. Qed.

(** X23.  [ping()] is never negative on a socket that can be reached;
    it is 0 right after a heartbeat was sent; and after a HeartbeatAck was
    handled it is the time from the last heartbeat sent to the
    acknowledgement. *)
Theorem ping_measures_the_last_round_trip (cfg : SocketSettings) (w : World) :
  reachable cfg w ->
  (0 <= ping (self w))%Z /\
  (forall w1 h, step w (IntervalFires h) = Some w1 -> ping (self w1) = 0%Z) /\
  (forall w1 ws x payload thrown,
     op payload = HeartbeatAck ->
     sockets w !! ws = Some x -> onmessage x = true ->
     step w (WsMessage ws (Parsed payload) thrown) = Some w1 ->
     ping (self w1) = (now w - _lastPing (self w))%Z).
Proof.
  intros Hreach. destruct (reachable_good cfg w Hreach) as (_ & (Hp & Ha & Hn) & _).
  split_and!.
  - apply ping_nonneg.
  - intros w1 h. simpl. destruct (intervals w !! h) as [[p []]|]; try done. intros [= <-].
    destruct (heartbeat_tick_stamps w) as [E1 E2]. unfold ping. rewrite E1, E2.
    destruct (_ >=? 0)%Z eqn:E; lia.
  - intros w1 ws x payload thrown Hop Hx Hon. simpl. rewrite Hx, Hon.
    assert (ping (self (_handleMessage (Parsed payload) thrown w)) = (now w - _lastPing (self w))%Z) as E.
    { unfold _handleMessage, on_op. rewrite Hop. cbn [Z.eqb Hello HeartbeatAck Pos.eqb].
      destruct (note_sequence_frame_fields (s payload) w) as (_ & En & _ & Ep & _).
      unfold echo, ping. rewrite self_emit_if. simpl. rewrite En, Ep.
      destruct (_ >=? 0)%Z eqn:E; lia. }
    destruct (readyState x); try done; by intros [= <-].
Qed.

(** X24.  A socket keeps to its settings, which never change: debug
    lines are logged only with [debug], warnings only with [warns], the
    session store is loaded, saved and cleared only when one was given,
    Identify carries the token and the intents of the settings, Resume
    their token, and a socket is only ever closed with code 1000. *)
Theorem effects_follow_settings (cfg : SocketSettings) (w : World) :
  reachable cfg w ->
  settings w = cfg /\
  (forall m, ELog Echo m ∈ trace w -> debug cfg = true) /\
  (forall m, ELog Warn m ∈ trace w -> warns cfg = true) /\
  (forall e, e ∈ trace w -> e = ELoad \/ e = EClear \/ (exists id n, e = ESave id n) ->
     sessionStore cfg = true) /\
  (forall ws tok i, ESend ws (IdentifyFrame tok i) ∈ trace w -> tok = token cfg /\ i = intents cfg) /\
  (forall ws tok id n, ESend ws (ResumeFrame tok id n) ∈ trace w -> tok = token cfg) /\
  (forall ws code reason, EClose ws code reason ∈ trace w -> code = 1000%Z).
Proof.
  intros Hreach. destruct (reachable_good cfg w Hreach) as ([Hs Ht] & _).
  rewrite forallb_forall in Ht.
  assert (forall e, e ∈ trace w -> allowed cfg e = true) as H.
  { intros e He. apply Ht. by apply list_elem_of_In. }
  split_and!; try done.
  - intros m Hm. apply (H _ Hm).
  - intros m Hm. apply (H _ Hm).
  - intros e He [->|[->|(id & n & ->)]]; apply (H _ He).
  - intros ws tok i He. specialize (H _ He). simpl in H.
    apply andb_true_iff in H as [H1 H2]. split; [by apply String.eqb_eq|by apply Z.eqb_eq].
  - intros ws tok id n He. specialize (H _ He). by apply String.eqb_eq.
  - intros ws code reason He. specialize (H _ He). by apply Z.eqb_eq.
Qed.

(** X10.  The socket a [Client] builds gets the token prefixed with
    Bot and neither [debug] nor [warns]: whatever happens, it logs nothing
    but failures and identifies with the prefixed token and the intents of
    the client. *)
Theorem client_socket_is_quiet (settings : SocketSettings) (w : World) :
  reachable (Client.socket_settings settings) w ->
  (forall level m, ELog level m ∈ trace w -> level = Fail) /\
  (forall ws tok i, ESend ws (IdentifyFrame tok i) ∈ trace w ->
     tok = "Bot " +:+ token settings /\ i = intents settings).
Proof.
  intros Hreach.
  destruct (reachable_good _ w Hreach) as ([Hs Ht] & _).
  rewrite forallb_forall in Ht.
  assert (forall e, e ∈ trace w -> allowed (Client.socket_settings settings) e = true) as H.
  { intros e He. apply Ht. by apply list_elem_of_In. }
  split.
  - intros level m He. specialize (H _ He). by destruct level.
  - intros ws tok i He. specialize (H _ He). simpl in H.
    apply andb_true_iff in H as [H1 H2]. split; [by apply String.eqb_eq|by apply Z.eqb_eq].
Qed.

Lemma step_cleared h w e w' : step w e = Some w' -> cleared h w -> cleared h w'.
Proof.
  unfold cleared. intros Hstep Hc.
  assert (forall w0 w1, calm w0 w1 -> snd <$> intervals w0 !! h = Some false ->
            snd <$> intervals w1 !! h = Some false) as Hcalm.
  { intros w0 w1 (_ & _ & _ & _ & _ & _ & C & _). apply C. }
  assert (forall data thrown w0, snd <$> intervals w0 !! h = Some false ->
            snd <$> intervals (_handleMessage data thrown w0) !! h = Some false) as Hmsg.
  { intros data thrown w0 H0. destruct data as [text|payload]; [done|].
    unfold _handleMessage, on_op.
    assert (snd <$> intervals (note_sequence (s payload) w0) !! h = Some false) as H1
      by (eapply Hcalm; [apply calm_note_sequence|done]).
    repeat case_match.
    - unfold on_hello, or_throw, send. cbv zeta. repeat case_match; simpl; try done;
        rewrite lookup_app_l; try done;
        destruct (intervals (note_sequence (s payload) w0) !! h) eqn:E; try done;
        eapply lookup_lt_Some; eauto.
    - unfold echo. by destruct (debug _).
    - eapply Hcalm; [|exact H1]. eapply calm_trans; [apply calm_echo|apply calm_reconnect].
    - eapply Hcalm; [apply calm_on_invalid_session|done].
    - eapply Hcalm; [apply calm_on_dispatch|done].
    - done. }
  destruct e as [| |clear|ev h0|time|s0 rd|s0 err|ws|ws msg|ws reason|ws data thrown|i|h0];
    simpl in Hstep.
  - injection Hstep as <-. eapply Hcalm; [apply calm_start|done].
  - injection Hstep as <-. eapply Hcalm; [apply calm_destroy|done].
  - injection Hstep as <-. eapply Hcalm; [apply calm_reconnect|done].
  - injection Hstep as <-. eapply Hcalm; [apply calm_listen|done].
  - destruct (now w <=? time)%Z; [|done]. by injection Hstep as <-.
  - destruct (start_phase <$> starts w !! s0) as [[]|]; try done. injection Hstep as <-.
    eapply Hcalm; [apply calm_start_after_load|done].
  - destruct (start_phase <$> starts w !! s0) as [[]|]; try done. injection Hstep as <-.
    eapply Hcalm; [apply calm_settle_start|done].
  - destruct (sockets w !! ws) as [x|]; [|done]. destruct (readyState x); try done.
    injection Hstep as <-. destruct (onopen x); [|done].
    unfold on_open. cbv zeta. eapply Hcalm; [apply calm_settle_start|].
    unfold echo. by destruct (debug _).
  - destruct (sockets w !! ws) as [x|]; [|done].
    destruct (readyState x); try done; injection Hstep as <-; destruct (onerror x);
      try done; (eapply Hcalm; [apply calm_on_error|done]).
  - destruct (sockets w !! ws) as [x|]; [|done]. destruct (closeFired x); [done|].
    injection Hstep as <-. eapply Hcalm; [apply calm_on_close|done].
  - destruct (sockets w !! ws) as [x|]; [|done].
    destruct (readyState x); try done; injection Hstep as <-; destruct (onmessage x);
      try done; by apply Hmsg.
  - destruct (timeouts w !! i) as [[r dl]|]; [|done]. injection Hstep as <-.
    eapply Hcalm; [apply calm_reconnect_timer|done].
  - destruct (intervals w !! h0) as [[p []]|]; try done. injection Hstep as <-.
    unfold heartbeat_tick, or_throw, send, echo, emit_if. repeat (simpl; case_match); done.
Qed.

Lemma run_cleared h evs : forall w w', run w evs = Some w' -> cleared h w -> cleared h w'.
Proof.
  induction evs as [|e evs IH]; intros w w'; simpl; [by intros [= <-]|].
  destruct (step w e) as [w1|] eqn:E; [|done]. eauto using step_cleared.
Qed.

(** X25.  While [_heartbeat] holds a handle, its interval is armed: when
    it fires, [_lastPing] is set to the present time; if the socket in
    [_ws] is open, a Heartbeat frame with the last sequence number is
    written to it, and PING_SENT is logged with [debug], and nothing else
    happens; if that socket is still connecting, [send] throws and nothing
    is written or logged.  After [destroy()] that interval never fires
    again, whatever follows. *)
Theorem heartbeat_beats_until_destroy (cfg : SocketSettings) (w : World) (h : nat) :
  reachable cfg w -> _heartbeat (self w) = Some h ->
  (exists w1, step w (IntervalFires h) = Some w1 /\
     _lastPing (self w1) = now w /\
     (forall ws, _ws (self w) = Some ws -> ready ws w = OPEN ->
        since w w1 =
          ESend ws (HeartbeatFrame (_lastSequence (self w))) ::
          (if debug (settings w) then [ELog Echo MSG_PING_SENT] else [])) /\
     (connecting w = true -> trace w1 = trace w)) /\
  (forall owner evs w2, run (destroy owner w) evs = Some w2 -> step w2 (IntervalFires h) = None).
Proof.
  intros Hreach Hh. destruct (reachable_good cfg w Hreach) as (_ & _ & Hwf).
  specialize (Hwf h Hh). split.
  - exists (heartbeat_tick w). split_and!.
    + simpl. destruct (intervals w !! h) as [[p []]|]; simpl in Hwf; by simplify_eq.
    + apply heartbeat_tick_stamps.
    + intros ws Hws Hopen.
      unfold heartbeat_tick, connecting, or_throw, send, echo, emit_if, since, ready in *.
      simpl. rewrite Hws, Hopen. simpl. destruct (debug (settings w)); simpl;
        by rewrite <- ?app_assoc, drop_app_length.
    + intros Hc. unfold heartbeat_tick. cbv zeta.
      assert (connecting (set_self (set_lastPing (now w)) w) = true) as -> by exact Hc.
      done.
  - intros owner evs w2 Hrun.
    assert (cleared h (destroy owner w)) as Hc.
    { unfold cleared. destruct (destroy_self owner w) as (_ & _ & _ & Hi).
      rewrite (Hi h Hh). destruct (intervals w !! h); simpl in *; by simplify_eq. }
    pose proof (run_cleared h evs _ _ Hrun Hc) as Hc2. unfold cleared in Hc2.
    simpl. destruct (intervals w2 !! h) as [[p []]|]; simpl in Hc2; by simplify_eq.
Qed.

(** X20, at a concrete input: the connection has opened. *)
Lemma presence_needs_socket_witness :
  presence JNull opened_world = (opened_world, PresenceSent 0 PresenceUpdate JNull).
Proof.
  exact (proj2 (proj2 (proj2 (presence_needs_socket JNull))) opened_world 0 eq_refl eq_refl).
Defined.

Lemma reachable_session_world : reachable verbose session_world.
Proof. exists session_events. vm_compute. reflexivity. Qed.


(** X19, at a concrete input: the socket of the first attempt is refused. *)
Lemma failed_attempt_is_not_retried_witness :
  exists w', step retrying_world (WsErrors 0 "connect ECONNREFUSED") = Some w' /\
    rc_phase <$> reconnects w' !! 0 = Some ReconnectRejected /\
    timeouts w' = timeouts retrying_world.
Proof.
  destruct (failed_attempt_is_not_retried retrying_world 0 0 0
    {| readyState := CONNECTING; closeFired := false; onopen := Some 0; onerror := Some 0;
       onmessage := true; onclose := OnCloseStart |}
    {| rc_clear := false; rc_phase := ReconnectStarting |} "connect ECONNREFUSED")
    as (w' & H1 & _ & _ & H2 & _ & _ & H3 & _).
  - reflexivity.
  - discriminate.
  - reflexivity.
  - reflexivity.
  - reflexivity.
  - exists w'. split; [exact H1|]. split; [exact H2|exact H3].
Defined.


(** X23, at a concrete input: [session_world]. *)
Lemma ping_measures_the_last_round_trip_witness :
  reachable verbose session_world /\ (0 <= ping (self session_world))%Z.
Proof.
  split; [apply reachable_session_world|].
  exact (proj1 (ping_measures_the_last_round_trip verbose session_world
                  reachable_session_world)).
Defined.

(** X24, at a concrete input: [session_world]. *)
Lemma effects_follow_settings_witness :
  reachable verbose session_world /\
  forall ws code reason, EClose ws code reason ∈ trace session_world -> code = 1000%Z.
Proof.
  split; [apply reachable_session_world|].
  destruct (effects_follow_settings verbose session_world reachable_session_world)
    as (_ & _ & _ & _ & _ & _ & H).
  exact H.
Defined.

(** X10, at a concrete input: the socket of a client after [session_events]. *)
Lemma client_socket_is_quiet_witness :
  reachable (Client.socket_settings Client.client_settings) Client.client_world /\
  forall level m, ELog level m ∈ trace Client.client_world -> level = Fail.
Proof.
  assert (reachable (Client.socket_settings Client.client_settings) Client.client_world) as H
    by (exists session_events; vm_compute; reflexivity).
  split; [exact H|].
  exact (proj1 (client_socket_is_quiet Client.client_settings Client.client_world H)).
Defined.

(** X25, at a concrete input: [session_world], whose socket is open and
    whose interval has the handle 0. *)
Lemma heartbeat_beats_until_destroy_witness :
  reachable verbose session_world /\
  exists w1, step session_world (IntervalFires 0) = Some w1 /\
    _lastPing (self w1) = now session_world /\
    since session_world w1 = [ESend 0 (HeartbeatFrame (Some 41%Z)); ELog Echo MSG_PING_SENT].
Proof.
  split; [apply reachable_session_world|].
  destruct (heartbeat_beats_until_destroy verbose session_world 0 reachable_session_world)
    as [(w1 & H1 & H2 & H3 & _) _].
  - reflexivity.
  - exists w1. split; [exact H1|]. split; [exact H2|].
    exact (H3 0 eq_refl eq_refl).
Defined.

End SocketMore.

Lemma count_app {A} (P : A -> bool) l l' : count P (l ++ l') = count P l + count P l'.
Proof. induction l as [|x l IH]; simpl; [done|]. rewrite IH. lia. Qed.

Lemma count_alter {A} (P : A -> bool) (f : A -> A) i l x :
  l !! i = Some x ->
  count P (alter f i l) + (if P x then 1 else 0) = count P l + (if P (f x) then 1 else 0).
Proof.
  revert i. induction l as [|y l IH]; intros [|i]; simpl; try done.
  - intros [= ->]. lia.
  - intros H. specialize (IH i H). unfold alter in IH. lia.
Qed.

Lemma count_alter_same {A} (P : A -> bool) (f : A -> A) i l :
  (forall x, l !! i = Some x -> P (f x) = P x) -> count P (alter f i l) = count P l.
Proof.
  revert i. induction l as [|y l IH]; intros [|i] H; simpl; try done.
  - by rewrite (H y).
  - f_equal. apply IH. intros x Hx. by apply H.
Qed.

Lemma count_lookup {A} (P : A -> bool) l i x : l !! i = Some x -> P x = true -> 1 <= count P l.
Proof.
  revert i. induction l as [|y l IH]; intros [|i]; simpl; try done.
  - intros [= ->] HP. rewrite HP. lia.
  - intros H HP. specialize (IH i H HP). lia.
Qed.

Lemma count_zero {A} (P : A -> bool) l i x : count P l = 0 -> l !! i = Some x -> P x = false.
Proof.
  intros H0 Hi. destruct (P x) eqn:E; [|done].
  pose proof (count_lookup P l i x Hi E). lia.
Qed.

Lemma count_unique {A} (P : A -> bool) l i j x y :
  count P l <= 1 -> l !! i = Some x -> l !! j = Some y -> P x = true -> P y = true -> i = j.
Proof.
  revert i j. induction l as [|z l IH]; intros [|i] [|j]; simpl; try done.
  - intros H [= ->] Hj Hx Hy. rewrite Hx in H. pose proof (count_lookup P l j y Hj Hy). lia.
  - intros H Hi [= ->] Hx Hy. rewrite Hy in H. pose proof (count_lookup P l i x Hi Hx). lia.
  - intros H Hi Hj Hx Hy. f_equal. eapply IH; eauto. lia.
Qed.

Module ReconnectProofs.
Import Socket3 SocketProofs.

Lemma phase_alter_ne (p : ReconnectPhase) (r r' : nat) (rcs : list ReconnectCall) :
  r' <> r -> rc_phase <$> alter (set_rc_phase p) r rcs !! r' = rc_phase <$> rcs !! r'.
Proof. intros H. by rewrite list_lookup_alter_ne. Qed.

Lemma phase_alter_eq (p : ReconnectPhase) (r : nat) (rcs : list ReconnectCall) c :
  rcs !! r = Some c -> rc_phase <$> alter (set_rc_phase p) r rcs !! r = Some p.
Proof. intros H. by rewrite list_lookup_alter_eq, H. Qed.

Lemma start_awaited_true c r :
  start_pending c = true -> start_owner c = Some r -> start_awaited c = true.
Proof. unfold start_awaited. intros -> ->. done. Qed.

Lemma destroy_awaited_true c r :
  destroy_pending c = true -> destroy_owner c = Some r -> destroy_awaited c = true.
Proof. unfold destroy_awaited. intros -> ->. done. Qed.

Section Shape.
Context (rcs : list ReconnectCall) (tos : list (nat * Z))
        (sts : list StartCall) (des : list DestroyCall).

(** another [reconnect()] while one is in progress, or one that found
    nothing to do *)
Lemma one_append_settled flag c :
  rc_pending c = false -> one_at_a_time flag rcs tos sts des ->
  one_at_a_time flag (rcs ++ [c]) tos sts des.
Proof.
  intros Hc (H1 & H2 & H3 & H4 & H5). unfold one_at_a_time.
  rewrite count_app. simpl. rewrite Hc, !Nat.add_0_r.
  assert (forall r p, rc_phase <$> rcs !! r = Some p -> rc_phase <$> (rcs ++ [c]) !! r = Some p) as Hl.
  { intros r p Hr. rewrite lookup_app_l; [done|].
    destruct (rcs !! r) eqn:E; [|done]. eapply lookup_lt_Some; eauto. }
  split_and!; eauto.
Qed.

Lemma one_append_destroy flag c :
  destroy_awaited c = false -> one_at_a_time flag rcs tos sts des ->
  one_at_a_time flag rcs tos sts (des ++ [c]).
Proof.
  intros Hc (H1 & H2 & H3 & H4 & H5). unfold one_at_a_time.
  rewrite count_app. simpl. rewrite Hc, !Nat.add_0_r. split_and!; eauto.
  intros d c' r Hd Hp Ho. apply lookup_app_Some in Hd as [Hd|[_ Hd]]; [eauto|].
  apply list_lookup_singleton_Some in Hd as [_ <-].
  rewrite (destroy_awaited_true c r Hp Ho) in Hc. done.
Qed.

Lemma one_append_start flag c :
  start_awaited c = false -> one_at_a_time flag rcs tos sts des ->
  one_at_a_time flag rcs tos (sts ++ [c]) des.
Proof.
  intros Hc (H1 & H2 & H3 & H4 & H5). unfold one_at_a_time.
  rewrite count_app. simpl. rewrite Hc, !Nat.add_0_r. split_and!; eauto.
  intros s c' r Hs Hp Ho. apply lookup_app_Some in Hs as [Hs|[_ Hs]]; [eauto|].
  apply list_lookup_singleton_Some in Hs as [_ <-].
  rewrite (start_awaited_true c r Hp Ho) in Hc. done.
Qed.

(** a change of a [start()] call that keeps it pending, or that settles
    one nobody awaits *)
Lemma one_alter_start flag (f : StartCall -> StartCall) s :
  (forall c, sts !! s = Some c ->
     start_owner (f c) = start_owner c /\
     (start_pending (f c) = start_pending c \/
      start_owner c = None /\ start_pending (f c) = false)) ->
  one_at_a_time flag rcs tos sts des ->
  one_at_a_time flag rcs tos (alter f s sts) des.
Proof.
  intros Hf (H1 & H2 & H3 & H4 & H5). unfold one_at_a_time.
  rewrite (count_alter_same start_awaited f s sts).
  2:{ intros c Hc. destruct (Hf c Hc) as [Ho [Hp|[Hn Hp]]]; unfold start_awaited.
      - by rewrite Ho, Hp.
      - rewrite Ho, Hn, Hp. simpl. rewrite andb_false_r. done. }
  split_and!; eauto.
  intros s' c' r. rewrite list_lookup_alter. case_decide as E; [|eauto]. subst s'.
  destruct (sts !! s) as [c|] eqn:Hc; [|done]. simpl. intros [= <-] Hp Ho.
  destruct (Hf c eq_refl) as [Ho' [Hp'|[Hn Hp']]]; [|congruence].
  eapply H4; eauto; congruence.
Qed.

Lemma one_alter_destroy flag (f : DestroyCall -> DestroyCall) d :
  (forall c, des !! d = Some c ->
     destroy_owner (f c) = destroy_owner c /\
     (destroy_pending (f c) = destroy_pending c \/
      destroy_owner c = None /\ destroy_pending (f c) = false)) ->
  one_at_a_time flag rcs tos sts des ->
  one_at_a_time flag rcs tos sts (alter f d des).
Proof.
  intros Hf (H1 & H2 & H3 & H4 & H5). unfold one_at_a_time.
  rewrite (count_alter_same destroy_awaited f d des).
  2:{ intros c Hc. destruct (Hf c Hc) as [Ho [Hp|[Hn Hp]]]; unfold destroy_awaited.
      - by rewrite Ho, Hp.
      - rewrite Ho, Hn, Hp. simpl. rewrite andb_false_r. done. }
  split_and!; eauto.
  intros d' c' r. rewrite list_lookup_alter. case_decide as E; [|eauto]. subst d'.
  destruct (des !! d) as [c|] eqn:Hc; [|done]. simpl. intros [= <-] Hp Ho.
  destruct (Hf c eq_refl) as [Ho' [Hp'|[Hn Hp']]]; [|congruence].
  eapply H5; eauto; congruence.
Qed.

(** nothing awaited means nothing owned is pending *)
Lemma between_nothing r :
  between r rcs tos sts des ->
  (forall s c r', sts !! s = Some c -> start_pending c = true -> start_owner c = Some r' -> False) /\
  (forall d c r', des !! d = Some c -> destroy_pending c = true -> destroy_owner c = Some r' -> False).
Proof.
  intros (_ & _ & _ & Hs & Hd). split.
  - intros s c r' Hc Hp Ho. pose proof (count_zero _ _ _ _ Hs Hc) as H.
    rewrite (start_awaited_true c r' Hp Ho) in H. done.
  - intros d c r' Hc Hp Ho. pose proof (count_zero _ _ _ _ Hd Hc) as H.
    rewrite (destroy_awaited_true c r' Hp Ho) in H. done.
Qed.

(** the call in progress returns *)
Lemma between_returns r p :
  rc_pending {| rc_clear := false; rc_phase := p |} = false ->
  between r rcs tos sts des ->
  one_at_a_time false (alter (set_rc_phase p) r rcs) tos sts des.
Proof.
  intros Hp Hb. destruct (between_nothing r Hb) as [Ns Nd].
  destruct Hb as ((c & Hc & Hpc) & Hn & -> & Hs & Hd). unfold one_at_a_time.
  pose proof (count_alter rc_pending (set_rc_phase p) r rcs c Hc) as Hca.
  assert (rc_pending (set_rc_phase p c) = false) as Hp' by (destruct p; done).
  rewrite Hpc, Hp' in Hca. simpl in Hca. rewrite Hs, Hd. simpl.
  split_and!; try lia; try done.
  - intros s c' r' H1 H2 H3. exfalso. eauto.
  - intros d c' r' H1 H2 H3. exfalso. eauto.
Qed.

(** the call in progress arms its backoff timer *)
Lemma between_backoff r delay :
  between r rcs tos sts des ->
  one_at_a_time true (alter (set_rc_phase ReconnectBackoff) r rcs) (tos ++ [(r, delay)]) sts des.
Proof.
  intros Hb. destruct (between_nothing r Hb) as [Ns Nd].
  destruct Hb as ((c & Hc & Hpc) & Hn & -> & Hs & Hd). unfold one_at_a_time.
  pose proof (count_alter rc_pending (set_rc_phase ReconnectBackoff) r rcs c Hc) as Hca.
  rewrite Hpc in Hca. change (rc_pending (set_rc_phase ReconnectBackoff c)) with true in Hca.
  simpl in Hca.
  rewrite Hs, Hd. simpl. split_and!; try lia.
  - intros [|i] r' delay'; simpl; [|done]. intros [= <- <-]. by eapply phase_alter_eq.
  - intros s c' r' H1 H2 H3. exfalso. eauto.
  - intros d c' r' H1 H2 H3. exfalso. eauto.
Qed.

(** the call in progress calls [start()] *)
Lemma between_starts r c' :
  start_pending c' = true -> start_owner c' = Some r ->
  between r rcs tos sts des ->
  one_at_a_time true (alter (set_rc_phase ReconnectStarting) r rcs) tos (sts ++ [c']) des.
Proof.
  intros Hp' Ho' Hb. destruct (between_nothing r Hb) as [Ns Nd].
  destruct Hb as ((c & Hc & Hpc) & Hn & -> & Hs & Hd). unfold one_at_a_time.
  pose proof (count_alter rc_pending (set_rc_phase ReconnectStarting) r rcs c Hc) as Hca.
  rewrite Hpc in Hca. change (rc_pending (set_rc_phase ReconnectStarting c)) with true in Hca.
  simpl in Hca.
  rewrite count_app, Hs, Hd. simpl. rewrite (start_awaited_true c' r Hp' Ho').
  split_and!; try lia; try done.
  - intros s c0 r'. rewrite lookup_app_Some. intros [H1|[_ H1]] H2 H3; [exfalso; eauto|].
    apply list_lookup_singleton_Some in H1 as [_ <-].
    assert (r' = r) as -> by congruence. by eapply phase_alter_eq.
  - intros d c0 r' H1 H2 H3. exfalso. eauto.
Qed.

(** what is awaited arrives: the call in progress is between two waits *)
Lemma one_timer_fires flag i r delay :
  tos !! i = Some (r, delay) -> one_at_a_time flag rcs tos sts des ->
  flag = true /\ between r rcs (delete i tos) sts des.
Proof.
  intros Hi (H1 & H2 & H3 & H4 & H5).
  pose proof (H3 i r delay Hi) as Hr.
  assert (1 <= length tos) as Hl by (apply lookup_lt_Some in Hi; lia).
  destruct (rcs !! r) as [c|] eqn:Hc; [|done]. simpl in Hr. injection Hr as Hr.
  assert (rc_pending c = true) as Hpc by (unfold rc_pending; by rewrite Hr).
  destruct flag; [|lia]. split; [done|]. unfold between. split_and!; eauto; try lia.
  apply length_zero_iff_nil. rewrite length_delete by eauto. lia.
Qed.

Lemma one_start_settles flag s c r (f : StartCall -> StartCall) :
  sts !! s = Some c -> start_pending c = true -> start_owner c = Some r ->
  start_pending (f c) = false ->
  one_at_a_time flag rcs tos sts des ->
  flag = true /\ between r rcs tos (alter f s sts) des.
Proof.
  intros Hs Hp Ho Hf (H1 & H2 & H3 & H4 & H5).
  pose proof (H4 s c r Hs Hp Ho) as Hr.
  destruct (rcs !! r) as [c0|] eqn:Hc; [|done]. simpl in Hr. injection Hr as Hr.
  assert (rc_pending c0 = true) as Hpc by (unfold rc_pending; by rewrite Hr).
  pose proof (count_alter start_awaited f s sts c Hs) as Hca.
  pose proof (start_awaited_true c r Hp Ho) as Ha.
  assert (start_awaited (f c) = false) as Ha' by (unfold start_awaited; by rewrite Hf).
  rewrite Ha, Ha' in Hca. simpl in Hca.
  destruct flag; [|lia]. split; [done|]. unfold between. split_and!; eauto; try lia.
  apply length_zero_iff_nil. lia.
Qed.

Lemma one_destroy_settles flag d c r (f : DestroyCall -> DestroyCall) :
  des !! d = Some c -> destroy_pending c = true -> destroy_owner c = Some r ->
  destroy_pending (f c) = false ->
  one_at_a_time flag rcs tos sts des ->
  flag = true /\ between r rcs tos sts (alter f d des).
Proof.
  intros Hd Hp Ho Hf (H1 & H2 & H3 & H4 & H5).
  pose proof (H5 d c r Hd Hp Ho) as Hr.
  destruct (rcs !! r) as [c0|] eqn:Hc; [|done]. simpl in Hr. injection Hr as Hr.
  assert (rc_pending c0 = true) as Hpc by (unfold rc_pending; by rewrite Hr).
  pose proof (count_alter destroy_awaited f d des c Hd) as Hca.
  pose proof (destroy_awaited_true c r Hp Ho) as Ha.
  assert (destroy_awaited (f c) = false) as Ha' by (unfold destroy_awaited; by rewrite Hf).
  rewrite Ha, Ha' in Hca. simpl in Hca.
  destruct flag; [|lia]. split; [done|]. unfold between. split_and!; eauto; try lia.
  apply length_zero_iff_nil. lia.
Qed.

(** a new call, when none is in progress *)
Lemma one_idle :
  one_at_a_time false rcs tos sts des ->
  tos = [] /\ count start_awaited sts = 0 /\ count destroy_awaited des = 0 /\
  count rc_pending rcs = 0.
Proof.
  intros (H1 & H2 & _). split_and!; try lia. apply length_zero_iff_nil. lia.
Qed.

Lemma idle_between clear c :
  destroy_awaited c = false ->
  one_at_a_time false rcs tos sts des ->
  between (length rcs) (rcs ++ [{| rc_clear := clear; rc_phase := ReconnectDestroying |}])
          tos sts (des ++ [c]).
Proof.
  intros Hc H. destruct (one_idle H) as (-> & Hs & Hd & Hn). unfold between.
  rewrite !count_app, Hn, Hd. simpl. rewrite Hc. split_and!; try done.
  eexists. rewrite lookup_app_r, Nat.sub_diag by done. done.
Qed.

Lemma idle_destroying clear c :
  destroy_pending c = true -> destroy_owner c = Some (length rcs) ->
  one_at_a_time false rcs tos sts des ->
  one_at_a_time true (rcs ++ [{| rc_clear := clear; rc_phase := ReconnectDestroying |}])
                tos sts (des ++ [c]).
Proof.
  intros Hp Ho H. destruct (one_idle H) as (-> & Hs & Hd & Hn).
  destruct H as (H1 & H2 & H3 & H4 & H5). unfold one_at_a_time.
  rewrite !count_app, Hn, Hd, Hs. simpl. rewrite (destroy_awaited_true c _ Hp Ho).
  split_and!; try done.
  - intros s c0 r Hc Hp0 Ho0. exfalso.
    pose proof (count_zero _ _ _ _ Hs Hc) as Hz.
    rewrite (start_awaited_true c0 r Hp0 Ho0) in Hz. done.
  - intros d c0 r. rewrite lookup_app_Some. intros [Hc|[_ Hc]] Hp0 Ho0.
    + exfalso. pose proof (count_zero _ _ _ _ Hd Hc) as Hz.
      rewrite (destroy_awaited_true c0 r Hp0 Ho0) in Hz. done.
    + apply list_lookup_singleton_Some in Hc as [_ <-].
      assert (r = length rcs) as -> by congruence.
      by rewrite lookup_app_r, Nat.sub_diag.
Qed.

End Shape.


Lemma rcwf_shape w flag rcs tos sts des :
  shape w = (flag, rcs, tos, sts, des) -> one_at_a_time flag rcs tos sts des -> reconnect_wf w.
Proof. unfold shape, reconnect_wf. by intros [= -> -> -> -> ->]. Qed.

Lemma rcwf_same w w' : shape w' = shape w -> reconnect_wf w -> reconnect_wf w'.
Proof. unfold shape, reconnect_wf. by intros [= -> -> -> -> ->]. Qed.

Ltac shape_same :=
  unfold shape, store_clear, store_save, echo, warn, fail, emit_if; cbv zeta;
  repeat (simpl; case_match); simpl; try done.

Lemma shape_emit_if c e w : shape (emit_if c e w) = shape w.
Proof. by destruct c. Qed.

Lemma shape_emit e w : shape (emit e w) = shape w.
Proof. done. Qed.

Lemma shape_listen ev h w : shape (listen ev h w) = shape w.
Proof. unfold listen. shape_same. Qed.

Lemma shape_note_sequence seq w : shape (note_sequence seq w) = shape w.
Proof. unfold note_sequence. shape_same. Qed.

Lemma shape_heartbeat_tick w : shape (heartbeat_tick w) = shape w.
Proof. unfold heartbeat_tick, or_throw, send. shape_same. Qed.

Lemma shape_on_hello data w : shape (on_hello data w) = shape w.
Proof. unfold on_hello, or_throw, send. shape_same. Qed.

Lemma shape_on_dispatch t data thrown w : shape (on_dispatch t data thrown w) = shape w.
Proof. unfold on_dispatch. shape_same. Qed.

Lemma shape_destroy o w :
  exists p, shape (destroy o w) =
    (_reconnecting (self w), reconnects w, timeouts w, starts w,
     destroys w ++ [{| destroy_phase := p; destroy_owner := o |}]).
Proof.
  unfold destroy, ready, shape, echo, emit_if. destruct (_ws (self w)) as [ws|] eqn:E.
  - exists (DestroyClosing ws).
    destruct (_heartbeat (self w)); simpl; rewrite E; repeat case_match; done.
  - exists (DestroyResolved true).
    destruct (_heartbeat (self w)); simpl; rewrite E; repeat case_match; done.
Qed.

Lemma shape_reconnect_after_destroy r w call :
  reconnects w !! r = Some call ->
  shape (reconnect_after_destroy r w) =
    (false, alter (set_rc_phase (ReconnectResolved false)) r (reconnects w),
     timeouts w, starts w, destroys w) \/
  exists delay, shape (reconnect_after_destroy r w) =
    (_reconnecting (self w), alter (set_rc_phase ReconnectBackoff) r (reconnects w),
     timeouts w ++ [(r, delay)], starts w, destroys w).
Proof.
  intros Hr. unfold reconnect_after_destroy. rewrite Hr.
  unfold shape, store_clear, echo, fail, emit_if. cbv zeta.
  repeat (simpl; case_match); simpl; eauto.
Qed.

Lemma shape_reconnect_after_start r o w :
  start_pending {| start_phase := o; start_owner := None |} = false ->
  exists p, rc_pending {| rc_clear := false; rc_phase := p |} = false /\
    shape (reconnect_after_start r o w) =
      (false, alter (set_rc_phase p) r (reconnects w), timeouts w, starts w, destroys w).
Proof.
  intros Ho. unfold reconnect_after_start. destruct o; try done.
  - by exists (ReconnectResolved true).
  - by exists ReconnectRejected.
Qed.

Lemma rcwf_reconnect_after_destroy r w :
  _reconnecting (self w) = true ->
  between r (reconnects w) (timeouts w) (starts w) (destroys w) ->
  reconnect_wf (reconnect_after_destroy r w).
Proof.
  intros Hflag Hb. pose proof Hb as ((c & Hc & _) & _).
  destruct (shape_reconnect_after_destroy r w c Hc) as [E|[delay E]];
    (eapply rcwf_shape; [exact E|]).
  - by apply between_returns.
  - rewrite Hflag. by apply between_backoff.
Qed.

Lemma rcwf_reconnect_after_start r o w :
  start_pending {| start_phase := o; start_owner := None |} = false ->
  between r (reconnects w) (timeouts w) (starts w) (destroys w) ->
  reconnect_wf (reconnect_after_start r o w).
Proof.
  intros Ho Hb. destruct (shape_reconnect_after_start r o w Ho) as (p & Hp & E).
  eapply rcwf_shape; [exact E|]. by apply between_returns.
Qed.

Lemma rcwf_settle_start s o w :
  start_pending {| start_phase := o; start_owner := None |} = false ->
  reconnect_wf w -> reconnect_wf (settle_start s o w).
Proof.
  intros Ho Hwf. unfold settle_start.
  destruct (starts w !! s) as [call|] eqn:Hs; [|done].
  assert (start_pending call = true ->
    reconnect_wf (let w0 := set_starts (alter (set_start_phase o) s) w in
                  match start_owner call with
                  | Some r => reconnect_after_start r o w0
                  | None => w0
                  end)) as H.
  { intros Hp. cbv zeta. destruct (start_owner call) as [r|] eqn:Hown.
    - apply rcwf_reconnect_after_start; [done|]. simpl.
      eapply (one_start_settles _ _ _ _ _ s call r); eauto.
    - unfold reconnect_wf. simpl. apply one_alter_start; [|done].
      intros c Hc. rewrite Hs in Hc. injection Hc as <-. split; [done|]. right.
      split; [done|]. by destruct o. }
  destruct (start_phase call) eqn:Hph; try done; apply H; unfold start_pending; by rewrite Hph.
Qed.

Lemma rcwf_start_after_load s rd w :
  start_phase <$> starts w !! s = Some StartLoading ->
  reconnect_wf w -> reconnect_wf (start_after_load s rd w).
Proof.
  intros Hs Hwf. unfold start_after_load. cbv zeta.
  set (w0 := match rd with Some _ => _ | None => w end).
  assert (shape w0 = shape w /\ starts w0 = starts w) as [E Est]
    by (subst w0; destruct rd as [[]|]; done).
  assert (reconnect_wf w0) as Hwf0 by by eapply rcwf_same.
  clearbody w0. destruct (_ws (self w0)).
  - unfold reconnect_wf. simpl. apply one_alter_start; [|done].
    intros c Hc. rewrite Est in Hc. rewrite Hc in Hs. simpl in Hs. injection Hs as Hs.
    split; [done|]. left. unfold start_pending. simpl. by rewrite Hs.
  - by apply rcwf_settle_start.
Qed.

Lemma alter_snoc {A} (f : A -> A) (l : list A) x : alter f (length l) (l ++ [x]) = l ++ [f x].
Proof. rewrite <- (Nat.add_0_r (length l)). by rewrite alter_app_r. Qed.

Lemma shape_start o w :
  exists c, start_pending c = true /\ start_owner c = o /\
    shape (start o w) =
      (_reconnecting (self w), reconnects w, timeouts w, starts w ++ [c], destroys w).
Proof.
  unfold start, start_after_load. cbv zeta. destruct (sessionStore _).
  - eexists. split_and!; [| |reflexivity]; done.
  - simpl. exists {| start_phase := StartOpening; start_owner := o |}.
    split_and!; try done. unfold shape. simpl. by rewrite alter_snoc.
Qed.

Lemma rcwf_start w : reconnect_wf w -> reconnect_wf (start None w).
Proof.
  intros Hwf. destruct (shape_start None w) as (c & Hp & Ho & E).
  eapply rcwf_shape; [exact E|]. apply one_append_start; [|done].
  unfold start_awaited. rewrite Ho. simpl. by rewrite andb_false_r.
Qed.

Lemma rcwf_destroy w : reconnect_wf w -> reconnect_wf (destroy None w).
Proof.
  intros Hwf. destruct (shape_destroy None w) as (p & E).
  eapply rcwf_shape; [exact E|]. apply one_append_destroy; [|done].
  unfold destroy_awaited. simpl. by rewrite andb_false_r.
Qed.

Lemma rcwf_destroy_after_close d w : reconnect_wf w -> reconnect_wf (destroy_after_close d w).
Proof.
  intros Hwf. unfold destroy_after_close.
  destruct (destroys w !! d) as [call|] eqn:Hd; [|done].
  destruct (destroy_phase call) as [ws|] eqn:Hph; [|done]. cbv zeta.
  set (w1 := set_destroys _ (echo MSG_DESTROYED w)).
  assert (shape w1 = (_reconnecting (self w), reconnects w, timeouts w, starts w,
                      alter (set_destroy_phase (DestroyResolved true)) d (destroys w))) as E.
  { subst w1. unfold echo, shape. simpl. by destruct (debug _). }
  clearbody w1. unfold shape in E. injection E as E1 E2 E3 E4 E5.
  destruct (destroy_owner call) as [r|] eqn:Hown.
  - assert (destroy_pending call = true) as Hp by (unfold destroy_pending; by rewrite Hph).
    destruct (one_destroy_settles _ _ _ _ _ d call r
                (set_destroy_phase (DestroyResolved true)) Hd Hp Hown eq_refl Hwf) as [Hflag Hb].
    apply rcwf_reconnect_after_destroy; [by rewrite E1|]. by rewrite E2, E3, E4, E5.
  - unfold reconnect_wf. rewrite E1, E2, E3, E4, E5. apply one_alter_destroy; [|done].
    intros c Hc. rewrite Hd in Hc. injection Hc as <-. split; [done|]. by right.
Qed.

Lemma rcwf_reconnect clear w : reconnect_wf w -> reconnect_wf (reconnect clear w).
Proof.
  intros Hwf. unfold reconnect. destruct (_reconnecting (self w)) eqn:Hflag.
  - unfold reconnect_wf. simpl. rewrite Hflag. apply one_append_settled; [done|].
    unfold reconnect_wf in Hwf. by rewrite Hflag in Hwf.
  - cbv zeta. set (r := length (reconnects w)).
    set (w1 := set_reconnects _ (set_self (set_reconnecting true) w)).
    unfold reconnect_wf in Hwf. rewrite Hflag in Hwf.
    destruct (shape_destroy (Some r) w1) as (p & E).
    pose proof E as E'. unfold shape in E'. injection E' as E1 E2 E3 E4 E5.
    assert (destroys w1 = destroys w) as Ed by done.
    rewrite E5, Ed, lookup_app_r, Nat.sub_diag by done. simpl.
    destruct p as [ws|b].
    + eapply rcwf_shape; [exact E|]. subst w1. simpl. by apply idle_destroying.
    + apply rcwf_reconnect_after_destroy; [by rewrite E1|].
      rewrite E2, E3, E4, E5. subst w1. simpl. by apply idle_between.
Qed.

Lemma rcwf_reconnect_timer i r delay w :
  timeouts w !! i = Some (r, delay) ->
  reconnect_wf w -> reconnect_wf (reconnect_timer r (set_timeouts (delete i) w)).
Proof.
  intros Hi Hwf. unfold reconnect_timer. cbv zeta.
  set (w1 := set_reconnects _ _).
  destruct (shape_start (Some r) w1) as (c & Hp & Ho & E).
  eapply rcwf_shape; [exact E|]. subst w1. simpl.
  destruct (one_timer_fires _ _ _ _ _ i r delay Hi Hwf) as [-> Hb].
  by apply between_starts.
Qed.

Lemma rcwf_handleMessage data thrown w : reconnect_wf w -> reconnect_wf (_handleMessage data thrown w).
Proof.
  intros Hwf. destruct data as [text|payload]; [done|].
  unfold _handleMessage, on_op.
  assert (reconnect_wf (note_sequence (s payload) w)) as H1
    by (eapply rcwf_same; [apply shape_note_sequence|done]).
  repeat case_match.
  - eapply rcwf_same; [apply shape_on_hello|done].
  - eapply rcwf_same; [|exact H1]. unfold echo. by rewrite shape_emit_if.
  - apply rcwf_reconnect. eapply rcwf_same; [|exact H1]. unfold echo. by rewrite shape_emit_if.
  - unfold on_invalid_session, warn, echo, or_throw, send. cbv zeta.
    repeat case_match; try (apply rcwf_reconnect);
      (eapply rcwf_same; [|exact H1]); simplify_eq; simpl;
      rewrite ?shape_emit, ?shape_emit_if; try done.
  - eapply rcwf_same; [apply shape_on_dispatch|done].
  - done.
Qed.

Lemma step_reconnect_wf w e w' : step w e = Some w' -> reconnect_wf w -> reconnect_wf w'.
Proof.
  intros Hstep Hwf.
  destruct e as [| |clear|ev h|time|s0 rd|s0 err|ws|ws msg|ws reason|ws data thrown|i|h];
    simpl in Hstep.
  - injection Hstep as <-. by apply rcwf_start.
  - injection Hstep as <-. by apply rcwf_destroy.
  - injection Hstep as <-. by apply rcwf_reconnect.
  - injection Hstep as <-. eapply rcwf_same; [apply shape_listen|done].
  - destruct (now w <=? time)%Z; [|done]. by injection Hstep as <-.
  - destruct (start_phase <$> starts w !! s0) as [[]|] eqn:E; try done. injection Hstep as <-.
    by apply rcwf_start_after_load.
  - destruct (start_phase <$> starts w !! s0) as [[]|]; try done. injection Hstep as <-.
    by apply rcwf_settle_start.
  - destruct (sockets w !! ws) as [x|]; [|done]. destruct (readyState x); try done.
    injection Hstep as <-. destruct (onopen x); [|done].
    unfold on_open. cbv zeta. apply rcwf_settle_start; [done|].
    eapply rcwf_same; [|exact Hwf]. unfold echo. by rewrite shape_emit_if.
  - destruct (sockets w !! ws) as [x|]; [|done].
    destruct (readyState x); try done; injection Hstep as <-; destruct (onerror x);
      try done; unfold on_error; cbv zeta; by apply rcwf_settle_start.
  - destruct (sockets w !! ws) as [x|]; [|done]. destruct (closeFired x); [done|].
    injection Hstep as <-. unfold on_close. destruct (onclose x); try done.
    + eapply rcwf_same; [|exact Hwf]. unfold warn. by rewrite shape_emit_if.
    + by apply rcwf_destroy_after_close.
  - destruct (sockets w !! ws) as [x|]; [|done].
    destruct (readyState x); try done; injection Hstep as <-; destruct (onmessage x);
      try done; by apply rcwf_handleMessage.
  - destruct (timeouts w !! i) as [[r dl]|] eqn:E; [|done]. injection Hstep as <-.
    by eapply rcwf_reconnect_timer.
  - destruct (intervals w !! h) as [[p []]|]; try done. injection Hstep as <-.
    eapply rcwf_same; [apply shape_heartbeat_tick|done].
Qed.

Lemma reachable_reconnect_wf cfg w : reachable cfg w -> reconnect_wf w.
Proof.
  intros [evs H]. revert H.
  assert (reconnect_wf (init cfg)) as H0.
  { unfold reconnect_wf, one_at_a_time. simpl. split_and!; try done; lia. }
  revert H0. generalize (init cfg). induction evs as [|e evs IH]; intros w0 H0; simpl.
  - by intros [= <-].
  - destruct (step w0 e) as [w1|] eqn:He; [|done]. eauto using step_reconnect_wf.
Qed.

(** X26.  At most one [reconnect()] call is in progress at any time, and
    [_reconnecting] is set exactly while there is one; at most one backoff
    timer is armed; and a [reconnect()] called while one is in progress
    resolves with false at once and does nothing else. *)
Theorem one_reconnect_at_a_time (cfg : SocketSettings) (w : World) :
  reachable cfg w ->
  (forall r r' c c', reconnects w !! r = Some c -> reconnects w !! r' = Some c' ->
     rc_pending c = true -> rc_pending c' = true -> r = r') /\
  (_reconnecting (self w) = true <->
     exists r c, reconnects w !! r = Some c /\ rc_pending c = true) /\
  length (timeouts w) <= 1 /\
  (_reconnecting (self w) = true -> forall clear,
     reconnect clear w =
       set_reconnects (fun l => l ++ [{| rc_clear := clear; rc_phase := ReconnectResolved false |}]) w).
Proof.
  intros Hreach. destruct (reachable_reconnect_wf cfg w Hreach) as (H1 & H2 & _).
  assert (count rc_pending (reconnects w) <= 1) as Hle by (destruct (_reconnecting _); lia).
  split_and!.
  - intros r r' c c' Hr Hr' Hp Hp'. eapply count_unique; eauto.
  - split.
    + intros Hflag. rewrite Hflag in H1.
      assert (forall l, 1 <= count rc_pending l -> exists r c, l !! r = Some c /\ rc_pending c = true)
        as Hex.
      { induction l as [|c l IH]; simpl; [lia|]. destruct (rc_pending c) eqn:E.
        - intros _. by exists 0, c.
        - intros Hl. destruct (IH Hl) as (r & c' & Hr & Hc). by exists (S r), c'. }
      apply Hex. lia.
    + intros (r & c & Hr & Hp). pose proof (count_lookup _ _ _ _ Hr Hp).
      destruct (_reconnecting _); [done|lia].
  - lia.
  - intros Hflag clear. unfold reconnect. by rewrite Hflag.
Qed.

(** X26, at a concrete input: a [reconnect()] whose [start()] is pending. *)
Lemma one_reconnect_at_a_time_witness :
  reachable quiet Socket2.retrying_world /\ length (timeouts Socket2.retrying_world) <= 1.
Proof.
  assert (reachable quiet Socket2.retrying_world) as H
    by (exists [CallReconnect false; TimeoutFires 0]; vm_compute; reflexivity).
  split; [exact H|].
  destruct (one_reconnect_at_a_time quiet Socket2.retrying_world H) as (_ & _ & H3 & _).
  exact H3.
Defined.

End ReconnectProofs.

Module GiveUpProofs.
Import Socket3 SocketProofs ReconnectProofs.

Lemma idle_refl w : idle w w.
Proof.
  unfold idle. split_and!; try done; try (exists []; by rewrite app_nil_r).
Qed.

Lemma idle_trans w1 w2 w3 : idle w1 w2 -> idle w2 w3 -> idle w1 w3.
Proof.
  intros (F1 & N1 & (l1 & R1) & (k1 & D1) & G1) (F2 & N2 & (l2 & R2) & (k2 & D2) & G2).
  unfold idle. split_and!; try congruence.
  - exists (l1 ++ l2). by rewrite R2, R1, app_assoc.
  - exists (k1 ++ k2). by rewrite D2, D1, app_assoc.
  - by eapply grows_trans.
Qed.

Lemma idle_same w w' :
  self w' = self w -> reconnects w' = reconnects w -> destroys w' = destroys w ->
  trace w' = trace w -> idle w w'.
Proof.
  intros E1 E2 E3 E4. unfold idle. rewrite E1, E2, E3.
  split_and!; try done; try (exists []; by rewrite app_nil_r).
Qed.

Lemma idle_emit e w : no_give_up e = true -> idle w (emit e w).
Proof.
  intros H. unfold idle. simpl.
  split_and!; try done; try (exists []; by rewrite app_nil_r). by apply grows_emit.
Qed.

Lemma idle_emit_if c e w : no_give_up e = true -> idle w (emit_if c e w).
Proof. intros H. destruct c; [by apply idle_emit | apply idle_refl]. Qed.

Lemma idle_echo m w : idle w (echo m w).
Proof. by apply idle_emit_if. Qed.

Lemma idle_warn m w : idle w (warn m w).
Proof. by apply idle_emit_if. Qed.

Lemma idle_store_save id n w : idle w (store_save id n w).
Proof. by apply idle_emit_if. Qed.

Lemma idle_set_self (f : Socket -> Socket) w :
  _reconnecting (f (self w)) = _reconnecting (self w) ->
  _retries (f (self w)) = _retries (self w) ->
  idle w (set_self f w).
Proof.
  intros H1 H2. unfold idle. simpl.
  split_and!; try done; try (exists []; by rewrite app_nil_r).
Qed.

Lemma idle_set_sockets f w : idle w (set_sockets f w).
Proof. by apply idle_same. Qed.

Lemma idle_set_timeouts f w : idle w (set_timeouts f w).
Proof. by apply idle_same. Qed.

Lemma idle_set_starts f w : idle w (set_starts f w).
Proof. by apply idle_same. Qed.

Lemma idle_set_intervals f w : idle w (set_intervals f w).
Proof. by apply idle_same. Qed.

Lemma idle_append_reconnect c w : idle w (set_reconnects (fun l => l ++ [c]) w).
Proof.
  unfold idle. simpl. split_and!; [done | done | by exists [c] | | by apply grows_eq].
  exists []. by rewrite app_nil_r.
Qed.

Lemma idle_append_destroy c w : idle w (set_destroys (fun l => l ++ [c]) w).
Proof.
  unfold idle. simpl. split_and!; [done | done | | | by apply grows_eq].
  - exists []. by rewrite app_nil_r.
  - exists [destroy_owner c]. by rewrite fmap_app.
Qed.

Lemma owner_alter p d (l : list DestroyCall) :
  destroy_owner <$> alter (set_destroy_phase p) d l = destroy_owner <$> l.
Proof.
  apply list_eq. intros i. rewrite !list_lookup_fmap.
  destruct (decide (d = i)) as [->|Hne].
  - rewrite list_lookup_alter_eq. by destruct (l !! i).
  - by rewrite list_lookup_alter_ne.
Qed.

Lemma idle_settle_destroy p d w : idle w (set_destroys (alter (set_destroy_phase p) d) w).
Proof.
  unfold idle. simpl. split_and!; [done | done | | | by apply grows_eq].
  - exists []. by rewrite app_nil_r.
  - exists []. by rewrite owner_alter, app_nil_r.
Qed.

Ltac idle_step :=
  first
    [ apply idle_refl
    | (eapply idle_trans; [|apply idle_echo])
    | (eapply idle_trans; [|apply idle_warn])
    | (eapply idle_trans; [|apply idle_store_save])
    | (eapply idle_trans; [|apply idle_emit; reflexivity])
    | (eapply idle_trans; [|apply idle_set_self; reflexivity])
    | (eapply idle_trans; [|apply idle_set_sockets])
    | (eapply idle_trans; [|apply idle_set_timeouts])
    | (eapply idle_trans; [|apply idle_set_starts])
    | (eapply idle_trans; [|apply idle_set_intervals])
    | (eapply idle_trans; [|apply idle_append_reconnect])
    | (eapply idle_trans; [|apply idle_append_destroy])
    | (eapply idle_trans; [|apply idle_settle_destroy]) ].

Ltac idle_chain := cbv zeta; repeat case_match; repeat idle_step.

Lemma idle_listen ev h w : idle w (listen ev h w).
Proof. unfold listen. idle_chain. Qed.

Lemma idle_note_sequence seq w : idle w (note_sequence seq w).
Proof. unfold note_sequence. idle_chain. Qed.

Lemma idle_or_throw_send frame w : idle w (or_throw w (send frame w)).
Proof. unfold or_throw, send. case_match; [|apply idle_refl]. by apply idle_emit. Qed.

Lemma idle_on_hello data w : idle w (on_hello data w).
Proof.
  unfold on_hello. cbv zeta. repeat case_match;
    try (eapply idle_trans; [|apply idle_or_throw_send]); idle_chain.
Qed.

Lemma idle_on_dispatch t data thrown w : idle w (on_dispatch t data thrown w).
Proof. unfold on_dispatch, fail. idle_chain. Qed.

Lemma idle_heartbeat_tick w : idle w (heartbeat_tick w).
Proof.
  unfold heartbeat_tick, or_throw, send. cbv zeta. repeat case_match; simplify_eq; simpl;
    idle_chain.
Qed.

Lemma idle_destroy o w : idle w (destroy o w).
Proof. unfold destroy. idle_chain. Qed.

(** [reconnect()] while another call is in progress *)
Lemma idle_reconnect clear w : _reconnecting (self w) = true -> idle w (reconnect clear w).
Proof. intros H. unfold reconnect. rewrite H. idle_chain. Qed.

(** a [start()] that settles and that no [reconnect()] awaits *)
Lemma idle_settle_start s o w :
  count start_awaited (starts w) = 0 -> idle w (settle_start s o w).
Proof.
  intros H0. unfold settle_start.
  destruct (starts w !! s) as [call|] eqn:Hs; [|apply idle_refl].
  pose proof (count_zero _ _ _ _ H0 Hs) as Hna.
  unfold start_awaited, start_pending in Hna.
  destruct (start_phase call), (start_owner call); simpl in Hna; try done; idle_chain.
Qed.

Lemma idle_start_after_load s rd w :
  count start_awaited (starts w) = 0 -> idle w (start_after_load s rd w).
Proof.
  intros H0. unfold start_after_load. cbv zeta.
  set (w1 := match rd with Some _ => _ | None => _ end).
  assert (idle w w1 /\ starts w1 = starts w) as [H1 E1].
  { subst w1. destruct rd as [[id seq]|]; (split; [|done]); idle_chain. }
  eapply idle_trans; [exact H1|]. clearbody w1.
  destruct (_ws (self w1)); [idle_chain|].
  apply idle_settle_start. by rewrite E1.
Qed.

(** [start()] called by the application *)
Lemma idle_start w : count start_awaited (starts w) = 0 -> idle w (start None w).
Proof.
  intros H0. unfold start. cbv zeta. case_match.
  - eapply idle_trans; [|apply idle_emit; reflexivity]. idle_chain.
  - eapply idle_trans; [|apply idle_start_after_load].
    + idle_chain.
    + simpl. rewrite count_app. simpl. lia.
Qed.

(** the close event a [destroy()] waits for that no [reconnect()] awaits *)
Lemma idle_destroy_after_close d w :
  (forall call, destroys w !! d = Some call -> destroy_awaited call = false) ->
  idle w (destroy_after_close d w).
Proof.
  intros Hd. unfold destroy_after_close.
  destruct (destroys w !! d) as [call|] eqn:E; [|apply idle_refl].
  specialize (Hd call eq_refl). unfold destroy_awaited, destroy_pending in Hd.
  destruct (destroy_phase call), (destroy_owner call); simpl in Hd; try done; idle_chain.
Qed.

Lemma idle_on_invalid_session data w :
  _reconnecting (self w) = true -> idle w (on_invalid_session data w).
Proof.
  intros H. unfold on_invalid_session. cbv zeta.
  assert (forall w1, idle w w1 -> idle w (reconnect true w1)) as Hr.
  { intros w1 H1. eapply idle_trans; [exact H1|]. apply idle_reconnect.
    destruct H1 as (-> & _). exact H. }
  repeat case_match; try (apply Hr; idle_chain).
  eapply idle_trans; [|apply idle_or_throw_send]. idle_chain.
Qed.

Lemma idle_handleMessage data thrown w :
  _reconnecting (self w) = true -> idle w (_handleMessage data thrown w).
Proof.
  intros H. destruct data as [text|payload]; [unfold _handleMessage, fail; idle_chain|].
  unfold _handleMessage, on_op.
  pose proof (idle_note_sequence (s payload) w) as H1.
  assert (_reconnecting (self (note_sequence (s payload) w)) = true) as H2
    by (destruct H1 as (-> & _); exact H).
  eapply idle_trans; [exact H1|]. set (w1 := note_sequence _ _) in *. clearbody w1.
  repeat case_match.
  - apply idle_on_hello.
  - idle_chain.
  - eapply idle_trans; [apply idle_echo|]. apply idle_reconnect.
    unfold echo. by rewrite self_emit_if.
  - by apply idle_on_invalid_session.
  - apply idle_on_dispatch.
  - apply idle_refl.
Qed.

(** ** What a stuck call excludes *)

Lemma stuck_facts r d n w :
  stuck r d n w ->
  timeouts w = [] /\ count start_awaited (starts w) = 0 /\
  (forall d' call, d' <> d -> destroys w !! d' = Some call -> destroy_awaited call = false).
Proof.
  intros (Hh & Ho & Hp & Hf & Hn & H1 & H2 & _).
  rewrite Hf in H1.
  destruct (destroys w !! d) as [c|] eqn:Hd; [|done]. simpl in Ho. injection Ho as Ho.
  destruct Hh as [(ws0 & o0 & Hd0) _]. rewrite Hd in Hd0. injection Hd0 as ->.
  assert (destroy_awaited {| destroy_phase := DestroyClosing ws0; destroy_owner := o0 |} = true)
    as Ha by (simpl in Ho; subst o0; done).
  pose proof (count_lookup destroy_awaited (destroys w) d _ Hd Ha) as Hc.
  split_and!.
  - destruct (timeouts w); [done|]. simpl in H2. lia.
  - lia.
  - intros d' call Hne Hd'. destruct (destroy_awaited call) eqn:E; [|done].
    exfalso. apply Hne.
    eapply (count_unique destroy_awaited (destroys w)); eauto. lia.
Qed.

Lemma step_idle r d n w e w' : stuck r d n w -> step w e = Some w' -> idle w w'.
Proof.
  intros Hst Hstep. destruct (stuck_facts r d n w Hst) as (Hto & Hsa & Hda).
  destruct Hst as (Hh & Ho & Hp & Hf & Hn & Hwf).
  destruct e as [| |clear|ev h|time|s0 rd|s0 err|ws|ws msg|ws reason|ws data thrown|i|h];
    simpl in Hstep.
  - injection Hstep as <-. by apply idle_start.
  - injection Hstep as <-. apply idle_destroy.
  - injection Hstep as <-. by apply idle_reconnect.
  - injection Hstep as <-. apply idle_listen.
  - destruct (now w <=? time)%Z; [|done]. injection Hstep as <-. by apply idle_same.
  - destruct (start_phase <$> starts w !! s0) as [[]|]; try done. injection Hstep as <-.
    by apply idle_start_after_load.
  - destruct (start_phase <$> starts w !! s0) as [[]|]; try done. injection Hstep as <-.
    by apply idle_settle_start.
  - destruct (sockets w !! ws) as [x|]; [|done]. destruct (readyState x); try done.
    injection Hstep as <-. destruct (onopen x); [|apply idle_set_sockets].
    unfold on_open. cbv zeta. eapply idle_trans; [|apply idle_settle_start].
    + idle_chain.
    + unfold echo. by rewrite starts_emit_if.
  - destruct (sockets w !! ws) as [x|]; [|done].
    destruct (readyState x); try done; injection Hstep as <-;
      (destruct (onerror x); [|apply idle_set_sockets]);
      unfold on_error, fail; cbv zeta;
      (eapply idle_trans; [|apply idle_settle_start]; [idle_chain | done]).
  - destruct (sockets w !! ws) as [x|] eqn:Hx; [|done].
    destruct (closeFired x) eqn:Hcf; [done|]. injection Hstep as <-.
    unfold on_close. destruct (onclose x) as [| |d'] eqn:Hoc.
    + apply idle_set_sockets.
    + eapply idle_trans; [apply idle_set_sockets | apply idle_warn].
    + eapply idle_trans; [apply idle_set_sockets|].
      apply idle_destroy_after_close. simpl. intros call Hc.
      apply (Hda d'); [|done]. intros ->.
      destruct Hh as [_ Hs]. rewrite Forall_forall in Hs.
      assert (closeFired x = true)
        by (apply Hs; [eapply list_elem_of_lookup_2; eauto | done]).
      congruence.
  - destruct (sockets w !! ws) as [x|]; [|done].
    destruct (readyState x); try done; injection Hstep as <-;
      (destruct (onmessage x); [by apply idle_handleMessage | apply idle_refl]).
  - rewrite Hto in Hstep. by rewrite lookup_nil in Hstep.
  - destruct (intervals w !! h) as [[p []]|]; try done. injection Hstep as <-.
    apply idle_heartbeat_tick.
Qed.

Lemma stuck_step r d n w e w' : stuck r d n w -> step w e = Some w' -> stuck r d n w'.
Proof.
  intros Hst Hstep. pose proof (step_idle r d n w e w' Hst Hstep) as Hi.
  destruct Hst as (Hh & Ho & Hp & Hf & Hn & Hwf).
  destruct Hi as (F & N & (l & R) & (k & D) & _).
  unfold stuck. split_and!.
  - by eapply hung_step.
  - rewrite <- list_lookup_fmap, D. rewrite <- list_lookup_fmap in Ho.
    by rewrite lookup_app_l by (eapply lookup_lt_Some; eauto).
  - rewrite R. destruct (reconnects w !! r) as [c|] eqn:E; [|done].
    by rewrite lookup_app_l, E by (eapply lookup_lt_Some; eauto).
  - congruence.
  - congruence.
  - by eapply step_reconnect_wf.
Qed.

Lemma stuck_run r d n evs : forall w w',
  stuck r d n w -> run w evs = Some w' -> stuck r d n w' /\ idle w w'.
Proof.
  induction evs as [|e evs IH]; intros w w' Hst; simpl.
  - intros [= <-]. split; [done|apply idle_refl].
  - destruct (step w e) as [w1|] eqn:He; [|done]. intros Hrun.
    destruct (IH w1 w' (stuck_step _ _ _ _ _ _ Hst He) Hrun) as [H1 H2].
    split; [done|]. eapply idle_trans; [|exact H2]. by eapply step_idle.
Qed.

(** The call that finds a socket whose close event has fired. *)
Lemma reconnect_stuck cfg w ws x clear :
  reachable cfg w -> _reconnecting (self w) = false ->
  _ws (self w) = Some ws -> sockets w !! ws = Some x -> closeFired x = true ->
  stuck (length (reconnects w)) (length (destroys w)) (_retries (self w)) (reconnect clear w) /\
  grows no_give_up w (reconnect clear w).
Proof.
  intros Hreach Hf Hws Hx Hcf.
  pose proof (reachable_onclose_wf cfg w Hreach) as Hoc.
  pose proof (reachable_reconnect_wf cfg w Hreach) as Hwf.
  assert (step w (CallReconnect clear) = Some (reconnect clear w)) as Hstep by done.
  pose proof (step_reconnect_wf _ _ _ Hstep Hwf) as Hwf'.
  set (w0 := set_reconnects (fun l => l ++
        [{| rc_clear := clear; rc_phase := ReconnectDestroying |}])
        (set_self (set_reconnecting true) w)).
  set (w1 := destroy (Some (length (reconnects w))) w0).
  assert (destroys w1 = destroys w ++
            [{| destroy_phase := DestroyClosing ws;
                destroy_owner := Some (length (reconnects w)) |}]) as Hd
    by (apply (destroy_destroys _ w0 ws); exact Hws).
  assert (reconnect clear w = w1) as E.
  { unfold reconnect. rewrite Hf. cbv zeta. fold w0. fold w1.
    change (destroys w0) with (destroys w).
    by rewrite Hd, lookup_app_r, Nat.sub_diag. }
  rewrite E in *.
  assert (idle w0 w1) as (F & N & (l & R) & _ & G) by apply idle_destroy.
  split.
  - unfold stuck. split_and!.
    + split.
      * exists ws, (Some (length (reconnects w))). by rewrite Hd, lookup_app_r, Nat.sub_diag.
      * apply Forall_lookup. intros i x' Hx' Hc.
        destruct (destroy_onclose _ w0 i x' Hx') as (y & Hy & Hcf' & [[Hi _]|[Hne Ho]]).
        -- simpl in Hi. rewrite Hws in Hi. injection Hi as <-.
           simpl in Hy. rewrite Hx in Hy. injection Hy as <-. congruence.
        -- unfold onclose_wf in Hoc. rewrite Forall_lookup in Hoc.
           specialize (Hoc i y Hy (length (destroys w))). rewrite <- Ho in Hoc.
           specialize (Hoc Hc). lia.
    + by rewrite Hd, lookup_app_r, Nat.sub_diag.
    + rewrite R. simpl. rewrite lookup_app_l by (rewrite length_app; simpl; lia).
      by rewrite lookup_app_r, Nat.sub_diag.
    + by rewrite F.
    + by rewrite N.
    + exact Hwf'.
  - destruct G as (t & Ht & Pt). exists t. split; [|done]. by rewrite Ht.
Qed.

(** C3, the failing input in general.  In any state the connection can
    reach in which the current socket has already dispatched its close
    event (the server closed it, or an attempt failed), a [reconnect()]
    call never gets to its retry check, whatever the attempt counter, at
    or above [maxRetries] as well: after any further events the call is
    still awaiting [destroy()], so it has not returned false;
    [_reconnecting] is still set and the counter unchanged; no timer is
    armed; MAX_RETRIES_EXCEEDED was never logged and [sessionStore.clear()]
    never called; and every later [reconnect()] returns false at once and
    does nothing else. *)
Theorem reconnect_never_gives_up_on_closed_socket
    (cfg : SocketSettings) (w : World) (ws : nat) (x : WebSocket) (clear : bool) :
  reachable cfg w -> _reconnecting (self w) = false ->
  _ws (self w) = Some ws -> sockets w !! ws = Some x -> closeFired x = true ->
  forall evs w2, run (reconnect clear w) evs = Some w2 ->
    rc_phase <$> reconnects w2 !! length (reconnects w) = Some ReconnectDestroying /\
    _reconnecting (self w2) = true /\
    _retries (self w2) = _retries (self w) /\
    timeouts w2 = [] /\
    (forall e, e ∈ since w w2 -> e <> ELog Fail MSG_MAX_RETRIES_EXCEEDED /\ e <> EClear) /\
    (forall clear', reconnect clear' w2 =
       set_reconnects (fun l => l ++
         [{| rc_clear := clear'; rc_phase := ReconnectResolved false |}]) w2).
Proof.
  intros Hreach Hf Hws Hx Hcf evs w2 Hrun.
  destruct (reconnect_stuck cfg w ws x clear Hreach Hf Hws Hx Hcf) as [Hst G1].
  destruct (stuck_run _ _ _ evs _ _ Hst Hrun) as [Hst2 Hi].
  destruct (stuck_facts _ _ _ _ Hst2) as (Hto & _ & _).
  destruct Hst2 as (_ & _ & Hp & Hf2 & Hn & _).
  destruct Hi as (_ & _ & _ & _ & G2).
  pose proof (grows_since _ _ _ (grows_trans _ _ _ _ G1 G2)) as Hall.
  rewrite forallb_forall in Hall.
  split_and!; try done.
  - intros e He. specialize (Hall e (proj1 (list_elem_of_In _ _) He)).
    split; intros ->; done.
  - intros clear'. unfold reconnect. by rewrite Hf2.
Qed.

(** C3, at a concrete run: five failed attempts, the close event of the
    last socket, then [reconnect()] with the counter at 5 of 5; a minute
    later the application calls [reconnect()] once more. *)
Lemma reconnect_never_gives_up_on_closed_socket_witness :
  (max_retries exhausted_closed <= Z.of_nat (_retries (self exhausted_closed)))%Z /\
  exists w2,
    run (reconnect false exhausted_closed) [Tick 60000; CallReconnect false] = Some w2 /\
    rc_phase <$> reconnects w2 !! 5 = Some ReconnectDestroying /\
    rc_phase <$> reconnects w2 !! 6 = Some (ReconnectResolved false) /\
    since exhausted_closed w2 = [].
Proof.
  split; [vm_compute; discriminate|].
  eexists. split; [vm_compute; reflexivity|].
  split; [|split; [reflexivity | reflexivity]].
  refine (proj1 (reconnect_never_gives_up_on_closed_socket verbose exhausted_closed 4
    {| readyState := CLOSED; closeFired := true; onopen := Some 4; onerror := Some 4;
       onmessage := true; onclose := OnCloseStart |} false _ _ _ _ _
    [Tick 60000; CallReconnect false] _ _)).
  - exists (failed_attempt 0 ++ failed_attempt 1 ++ failed_attempt 2 ++ failed_attempt 3 ++
            failed_attempt 4 ++ [WsCloses 4 "connection failed"]).
    vm_compute. reflexivity.
  - reflexivity.
  - reflexivity.
  - reflexivity.
  - reflexivity.
  - vm_compute. reflexivity.
Defined.

End GiveUpProofs.

Module InteractionProofs.
Import Interaction.

Lemma lookup_snoc_waiting (l : list Call) (c : Call) i a :
  (l ++ [c]) !! i = Some (Waiting a) -> l !! i = Some (Waiting a) \/ c = Waiting a.
Proof.
  intros H. apply lookup_app_Some in H as [H|[_ H]]; [by left|].
  apply list_lookup_singleton_Some in H as [_ ->]. by right.
Qed.

Lemma lookup_settle_waiting (l : list Call) r i j a :
  alter (fun _ => Settled r) i l !! j = Some (Waiting a) -> l !! j = Some (Waiting a).
Proof.
  destruct (decide (i = j)) as [->|Hne].
  - rewrite list_lookup_alter_eq. destruct (l !! j); simpl; congruence.
  - by rewrite list_lookup_alter_ne.
Qed.

Lemma staged_init : staged init.
Proof. split; [done|]. intros i. simpl. by rewrite lookup_nil. Qed.

Lemma staged_logs l w : staged w -> staged (logs l w).
Proof. intros [Hc He]. by split. Qed.

Lemma staged_returns r w : staged w -> staged (returns r w).
Proof.
  intros [Hc He]. split; [done|]. simpl. intros j Hj.
  apply lookup_snoc_waiting in Hj as [Hj|Hj]; [eauto | done].
Qed.

Lemma staged_awaits a request w :
  (a = EditReply -> _deferred (self w) = true) -> staged w -> staged (awaits a request w).
Proof.
  intros Ha [Hc He]. split; [done|]. simpl. intros j Hj.
  apply lookup_snoc_waiting in Hj as [Hj|Hj]; [eauto|]. apply Ha. congruence.
Qed.

Lemma staged_settle i r w : staged w -> staged (settle i r w).
Proof.
  intros [Hc He]. split; [done|]. simpl. intros j Hj.
  apply lookup_settle_waiting in Hj. eauto.
Qed.

Lemma staged_set_self f w :
  (_completed (f (self w)) = true -> _deferred (f (self w)) = true) ->
  (_deferred (self w) = true -> _deferred (f (self w)) = true) ->
  staged w -> staged (set_self f w).
Proof. intros H1 H2 [Hc He]. split; [done|]. simpl. eauto. Qed.

Lemma staged_reply w : staged w -> staged (reply w).
Proof.
  intros Hs. unfold reply. destruct (_remaining_followup (self w) <=? 0)%Z.
  { by apply staged_returns, staged_logs. }
  destruct (_deferred (self w)) eqn:Hd; simpl; [|by apply staged_awaits].
  destruct (_completed (self w)) eqn:Hcd; simpl; [|by apply staged_awaits].
  apply staged_awaits; [done|]. apply staged_logs, staged_set_self; simpl; eauto.
Qed.

Lemma staged_step e w : staged w -> staged (step e w).
Proof.
  intros Hs. destruct e; simpl.
  - unfold original. case_match; [by apply staged_returns | by apply staged_awaits].
  - unfold defer. case_match; [by apply staged_returns, staged_logs | by apply staged_awaits].
  - by apply staged_reply.
  - unfold edit. case_match; [by apply staged_reply | by apply staged_awaits].
  - by apply staged_awaits.
  - destruct (calls w !! i) as [[a|r]|] eqn:Hi; [|done..].
    destruct Hs as [Hc He].
    destruct a; try destruct api; simpl; unfold warn, fail; repeat case_match;
      repeat first [ apply staged_settle | apply staged_logs ];
      try (apply staged_set_self; simpl; eauto); by split.
  - destruct (calls w !! i) as [[a|r]|] eqn:Hi; [|done..].
    destruct a; simpl; unfold warn, fail;
      repeat first [ apply staged_settle | apply staged_logs ]; done.
Qed.

Lemma run_snoc es e w : run (es ++ [e]) w = step e (run es w).
Proof. unfold run. by rewrite fold_left_app. Qed.

Lemma reachable_ind' (P : World -> Prop) :
  P init -> (forall e w, P w -> P (step e w)) -> forall w, reachable w -> P w.
Proof.
  intros H0 Hs w [es ->]. induction es as [|e es IH] using rev_ind; [done|].
  rewrite run_snoc. by apply Hs.
Qed.

(** ** The follow-up budget *)

Lemma budget_init : budget init.
Proof. unfold budget. simpl. split_and!; try done; try lia. Qed.

Lemma budget_logs l w :
  count is_dictionary_line l = 0 -> budget w -> budget (logs l w).
Proof.
  intros Hl (H1 & H2 & H3 & H4 & H5). unfold budget. simpl.
  rewrite count_app, Hl, H5. split_and!; try done; lia.
Qed.

Lemma budget_returns r w : budget w -> budget (returns r w).
Proof.
  intros (H1 & H2 & H3 & H4 & H5). unfold budget. simpl.
  rewrite count_app. simpl. split_and!; try done; lia.
Qed.

Lemma budget_awaits a request w :
  is_followup request = false -> awaits_followup (Waiting a) = false ->
  budget w -> budget (awaits a request w).
Proof.
  intros Hr Ha (H1 & H2 & H3 & H4 & H5). unfold budget. simpl.
  rewrite !count_app. cbn [count]. rewrite Hr, Ha. split_and!; try done; lia.
Qed.

Lemma budget_settle i r w : budget w -> budget (settle i r w).
Proof.
  intros (H1 & H2 & H3 & H4 & H5). unfold budget. simpl. split_and!; try done; try lia.
  destruct (calls w !! i) as [c|] eqn:Hi.
  - pose proof (count_alter awaits_followup (fun _ => Settled r) i (calls w) c Hi) as Hc.
    simpl in Hc. lia.
  - rewrite count_alter_same; [done|]. intros x Hx. congruence.
Qed.

Lemma budget_set_flags f w :
  (forall s, _remaining_followup (f s) = _remaining_followup s) ->
  (forall s, _followup_messages (f s) = _followup_messages s) ->
  budget w -> budget (set_self f w).
Proof.
  intros Hr Hm (H1 & H2 & H3 & H4 & H5). unfold budget. simpl.
  rewrite Hr, Hm. split_and!; try done; lia.
Qed.

Lemma budget_reply w : budget w -> budget (reply w).
Proof.
  intros Hb. unfold reply. destruct (_remaining_followup (self w) <=? 0)%Z eqn:Hz.
  { by apply budget_returns, budget_logs. }
  apply Z.leb_gt in Hz.
  destruct (negb (_deferred (self w))); [by apply budget_awaits|].
  destruct (negb (_completed (self w))); [by apply budget_awaits|].
  cbv zeta. destruct Hb as (H1 & H2 & H3 & H4 & H5). unfold budget. simpl.
  rewrite !count_app. cbn [count]. simpl. rewrite H5. split_and!; try done; lia.
Qed.

Lemma budget_resolved_followup i m w :
  calls w !! i = Some (Waiting FollowUp) -> budget w ->
  budget (resolved i FollowUp (Constructs m) w).
Proof.
  intros Hi (H1 & H2 & H3 & H4 & H5).
  pose proof (count_lookup awaits_followup (calls w) i _ Hi eq_refl) as Hone.
  unfold resolved, Dictionary.set, Dictionary.full. rewrite H3.
  destruct (5 <=? Z.of_nat (Dictionary.size (_followup_messages (self w))))%Z eqn:Hfull.
  { apply Z.leb_le in Hfull. lia. }
  unfold budget. simpl. rewrite app_nil_r. split_and!; try done; try lia.
  pose proof (count_alter awaits_followup (fun _ => Settled (ReturnsMessage m)) i
                (calls w) _ Hi) as Hc. simpl in Hc.
  unfold Dictionary.size in *. simpl.
  rewrite DictionaryProofs.Map_set_length. destruct (decide _); lia.
Qed.

Lemma budget_step e w : budget w -> budget (step e w).
Proof.
  intros Hb. destruct e; simpl.
  - unfold original. case_match; [by apply budget_returns | by apply budget_awaits].
  - unfold defer. case_match; [by apply budget_returns, budget_logs | by apply budget_awaits].
  - by apply budget_reply.
  - unfold edit. case_match; [by apply budget_reply | by apply budget_awaits].
  - by apply budget_awaits.
  - destruct (calls w !! i) as [[a|r]|] eqn:Hi; [|done..].
    destruct a; try destruct api; try (by apply budget_resolved_followup);
      simpl; unfold warn, fail;
      repeat first [ apply budget_settle | apply budget_logs; [done|]
                   | apply budget_set_flags; [done|done|] ]; done.
  - destruct (calls w !! i) as [[a|r]|] eqn:Hi; [|done..].
    destruct a; simpl; unfold warn, fail;
      repeat first [ apply budget_settle | apply budget_logs; [done|] ]; done.
Qed.

Lemma reachable_budget w : reachable w -> budget w.
Proof. apply reachable_ind'; [apply budget_init | apply budget_step]. Qed.

Lemma reachable_staged w : reachable w -> staged w.
Proof. apply reachable_ind'; [apply staged_init | apply staged_step]. Qed.

(** X27.  An interaction sends at most five follow-ups; the counter
    [followup.remaining] stays between 0 and 5 and is 5 minus the number
    of follow-up requests sent; [followup.messages] holds no more messages
    than follow-ups were sent and never refuses one; and once the counter
    is at 0, [reply] sends nothing and throws FOLLOW_UP_REACHED. *)
Theorem at_most_five_followups (w : World) :
  reachable w ->
  count is_followup (requests w) <= 5 /\
  (0 <= _remaining_followup (self w) <= 5)%Z /\
  _remaining_followup (self w) = (5 - Z.of_nat (count is_followup (requests w)))%Z /\
  Dictionary.size (_followup_messages (self w)) <= count is_followup (requests w) /\
  (forall warning, DictionaryLine warning ∉ log w) /\
  (_remaining_followup (self w) = 0%Z ->
     requests (reply w) = requests w /\
     calls (reply w) = calls w ++ [Settled (Throws FOLLOW_UP_REACHED)]).
Proof.
  intros Hr. destruct (reachable_budget w Hr) as (H1 & H2 & H3 & H4 & H5).
  split_and!; try lia.
  - intros warning Hin. apply list_elem_of_lookup in Hin as [i Hi].
    pose proof (count_lookup is_dictionary_line (log w) i _ Hi eq_refl). lia.
  - intros Hz. unfold reply. rewrite Hz. done.
Qed.

(** X27, at a concrete input: a reply, its response, and a second reply, which is a follow-up. *)
Lemma at_most_five_followups_witness :
  count is_followup
    (requests (run [CallReply; Resolves 0 (Constructs {| id := "1" |}); CallReply] init)) <= 5 /\
  _remaining_followup
    (self (run [CallReply; Resolves 0 (Constructs {| id := "1" |}); CallReply] init)) = 4%Z.
Proof.
  destruct (at_most_five_followups
              (run [CallReply; Resolves 0 (Constructs {| id := "1" |}); CallReply] init))
    as (H1 & H2 & H3 & H4 & H5 & H6).
  - by exists [CallReply; Resolves 0 (Constructs {| id := "1" |}); CallReply].
  - split; [exact H1 | reflexivity].
Defined.

(** X28.  A completed interaction is deferred, so that a later [reply] is a
    follow-up, a later [edit] is a PATCH of the original message, and
    [original] asks for it. *)
Theorem completed_is_deferred (w : World) :
  reachable w -> _completed (self w) = true ->
  _deferred (self w) = true /\
  requests (original w) =
    requests w ++ [{| method := Rest.GET; route := "webhookMessage"; type := None |}] /\
  requests (edit w) =
    requests w ++ [{| method := Rest.PATCH; route := "webhookMessage"; type := None |}] /\
  ((0 < _remaining_followup (self w))%Z ->
   requests (reply w) =
     requests w ++ [{| method := Rest.POST; route := "webhook"; type := None |}]).
Proof.
  intros Hr Hc. destruct (reachable_staged w Hr) as [Hd _]. specialize (Hd Hc).
  unfold original, edit, reply. rewrite Hc, Hd. simpl. split_and!; try done.
  intros Hpos. apply Z.leb_gt in Hpos. by rewrite Hpos.
Qed.

(** X28, at a concrete input: a deferral and a reply, both answered. *)
Lemma completed_is_deferred_witness :
  _completed (self (run [CallDefer; Resolves 0 (Constructs {| id := "0" |}); CallReply;
                         Resolves 1 (Constructs {| id := "1" |})] init)) = true /\
  _deferred (self (run [CallDefer; Resolves 0 (Constructs {| id := "0" |}); CallReply;
                        Resolves 1 (Constructs {| id := "1" |})] init)) = true.
Proof.
  split; [reflexivity|].
  apply (completed_is_deferred
           (run [CallDefer; Resolves 0 (Constructs {| id := "0" |}); CallReply;
                 Resolves 1 (Constructs {| id := "1" |})] init)); [|reflexivity].
  by exists [CallDefer; Resolves 0 (Constructs {| id := "0" |}); CallReply;
             Resolves 1 (Constructs {| id := "1" |})].
Defined.

End InteractionProofs.
